(** * Wolf-sheep predation: the agents of [mesa/examples/advanced/wolf_sheep/agents.py]

    A shallow embedding of the classes [Animal], [Sheep], [Wolf] and
    [GrassPatch].  Python objects live in a store addressed by their
    [unique_id]; cells hold the identities of their occupants; the methods
    are computations in a state-and-error monad over the model and its
    shared random generator. *)

From Stdlib Require Import ZArith QArith Lia List Bool.
From stdpp Require Import base option list gmap.
Import ListNotations.

Local Open Scope nat_scope.

(** ** Data model *)

Abbreviation AgentId := nat.
Abbreviation Cell := nat.

(** The two concrete subclasses of [Animal]; [self.__class__] is one of them. *)
Inductive Species := Sheep | Wolf.

(** Attributes of an [Animal] instance, as set by [Animal.__init__]. *)
Record Animal := mkAnimal {
  species : Species;
  energy : Q;
  p_reproduce : Q;
  energy_from_food : Q;
  cell : option Cell
}.

(** Attributes of a [GrassPatch] instance: [_fully_grown],
    [grass_regrowth_time] and [cell]. *)
Record GrassPatch := mkGrassPatch {
  fully_grown : bool;
  grass_regrowth_time : Z;
  patch_cell : option Cell
}.

Inductive Agent :=
| AnAnimal (a : Animal)
| AGrassPatch (g : GrassPatch).

(** A pending call [setattr(patch, "fully_grown", True)] of the simulator,
    the only kind of event the agents schedule: its due time and its target. *)
Record SimulationEvent := mkEvent {
  ev_time : Z;
  ev_target : AgentId
}.

(** The model as far as the agents see it: the registered agents, the
    occupants of every cell in insertion order, the fixed neighbourhood of
    every cell, the simulator's event list (in insertion order) and clock,
    and the next free [unique_id]. *)
Record Model := mkModel {
  agents : gmap nat Agent;
  cell_agents : gmap nat (list nat);
  neighborhood : Cell -> list Cell;
  event_list : list SimulationEvent;
  time : Z;
  next_id : AgentId
}.

Inductive Error :=
| StopIteration          (* next() on an exhausted generator *)
| AttributeError         (* self.cell is None *)
| EmptySelectionError    (* random cell of an empty collection *)
| InvalidScheduleError   (* negative delay *)
| NotAnAgent.            (* self is not a registered agent of the expected class *)

Inductive Result (A : Type) :=
| Ok (a : A)
| Err (e : Error).
Arguments Ok {A} a.
Arguments Err {A} e.

(** ** Field updates *)

Definition set_agents (f : gmap nat Agent -> gmap nat Agent) (w : Model) : Model :=
  mkModel (f (agents w)) (cell_agents w) (neighborhood w) (event_list w) (time w) (next_id w).

Definition set_cell_agents (f : gmap nat (list nat) -> gmap nat (list nat)) (w : Model) : Model :=
  mkModel (agents w) (f (cell_agents w)) (neighborhood w) (event_list w) (time w) (next_id w).

Definition set_event_list (f : list SimulationEvent -> list SimulationEvent) (w : Model) : Model :=
  mkModel (agents w) (cell_agents w) (neighborhood w) (f (event_list w)) (time w) (next_id w).

Definition set_time (t : Z) (w : Model) : Model :=
  mkModel (agents w) (cell_agents w) (neighborhood w) (event_list w) t (next_id w).

Definition set_next_id (n : AgentId) (w : Model) : Model :=
  mkModel (agents w) (cell_agents w) (neighborhood w) (event_list w) (time w) n.

Definition with_energy (e : Q) (a : Animal) : Animal :=
  mkAnimal (species a) e (p_reproduce a) (energy_from_food a) (cell a).

Definition with_cell (c : option Cell) (a : Animal) : Animal :=
  mkAnimal (species a) (energy a) (p_reproduce a) (energy_from_food a) c.

Definition with_fully_grown (b : bool) (g : GrassPatch) : GrassPatch :=
  mkGrassPatch b (grass_regrowth_time g) (patch_cell g).

Definition with_patch_cell (c : option Cell) (g : GrassPatch) : GrassPatch :=
  mkGrassPatch (fully_grown g) (grass_regrowth_time g) c.

Definition agent_cell (x : Agent) : option Cell :=
  match x with
  | AnAnimal a => cell a
  | AGrassPatch g => patch_cell g
  end.

Definition agent_with_cell (c : option Cell) (x : Agent) : Agent :=
  match x with
  | AnAnimal a => AnAnimal (with_cell c a)
  | AGrassPatch g => AGrassPatch (with_patch_cell c g)
  end.

(** [x < y] on rationals, as a boolean. *)
Definition Qltb (x y : Q) : bool := negb (Qle_bool y x).

(** ** Queries on the model: [cell.agents] and [isinstance] *)

(** [cell.agents]: the occupants of a cell, in the order they entered it. *)
Definition occupants (w : Model) (c : Cell) : list AgentId :=
  default [] (cell_agents w !! c).

Definition is_sheep (w : Model) (i : AgentId) : bool :=
  match agents w !! i with
  | Some (AnAnimal a) => match species a with Sheep => true | Wolf => false end
  | _ => false
  end.

Definition is_wolf (w : Model) (i : AgentId) : bool :=
  match agents w !! i with
  | Some (AnAnimal a) => match species a with Wolf => true | Sheep => false end
  | _ => false
  end.

Definition is_grass (w : Model) (i : AgentId) : bool :=
  match agents w !! i with
  | Some (AGrassPatch _) => true
  | _ => false
  end.

(** [isinstance(obj, GrassPatch) and obj.fully_grown] *)
Definition is_grown_grass (w : Model) (i : AgentId) : bool :=
  match agents w !! i with
  | Some (AGrassPatch g) => fully_grown g
  | _ => false
  end.

(** Removes the first occurrence, as Python's [list.remove]. *)
Fixpoint remove_first (i : AgentId) (l : list AgentId) : list AgentId :=
  match l with
  | [] => []
  | j :: l' => if Nat.eqb i j then l' else j :: remove_first i l'
  end.

(** ** The shared random source

    [model.random] is a [random.Random]: the agents use its [random()] (a
    float in [0, 1)) and its [choice], which indexes the sequence at
    [_randbelow(len(seq))]. *)
Class RandomSource (G : Type) := {
  rs_random : G -> Q * G;
  rs_randbelow : nat -> G -> nat * G;
  rs_random_range : forall g, (0 <= fst (rs_random g))%Q /\ (fst (rs_random g) < 1)%Q;
  rs_randbelow_lt : forall n g, 0 < n -> fst (rs_randbelow n g) < n
}.

(** ** The monad of the methods

    A method reads and updates the model, draws from the shared generator
    of type [G], and may raise. *)

Definition M (G A : Type) : Type := Model -> G -> Result (A * Model * G).

Definition ret {G A} (a : A) : M G A := fun w g => Ok (a, w, g).

Definition bind {G A B} (m : M G A) (k : A -> M G B) : M G B :=
  fun w g =>
    match m w g with
    | Ok (a, w', g') => k a w' g'
    | Err e => Err e
    end.

Definition raise {G A} (e : Error) : M G A := fun _ _ => Err e.

Definition get_model {G} : M G Model := fun w g => Ok (w, w, g).

Definition modify_model {G} (f : Model -> Model) : M G unit := fun w g => Ok (tt, f w, g).

Notation "'let*' x ':=' m 'in' k" := (bind m (fun x => k))
  (at level 10, x name, m at level 100, k at level 200).

Section Agents.

Context {G : Type} `{RandomSource G}.

(** Reading [self] as an [Animal] or as a [GrassPatch]. *)
Definition get_animal (self : AgentId) : M G Animal :=
  fun w g =>
    match agents w !! self with
    | Some (AnAnimal a) => Ok (a, w, g)
    | _ => Err NotAnAgent
    end.

Definition get_grass (self : AgentId) : M G GrassPatch :=
  fun w g =>
    match agents w !! self with
    | Some (AGrassPatch p) => Ok (p, w, g)
    | _ => Err NotAnAgent
    end.

(** [self.energy = e] *)
Definition set_energy (self : AgentId) (e : Q) : M G unit :=
  let* a := get_animal self in
  modify_model (set_agents (insert self (AnAnimal (with_energy e a)))).

(** [self.cell], which the methods dereference: [None] has no attributes. *)
Definition the_cell (c : option Cell) : M G Cell :=
  match c with
  | Some c' => ret c'
  | None => raise AttributeError
  end.

(** *** The framework the agents call *)

(** Modelled from the spec: [AgentStore.create], the registration done by
    [Agent.__init__] (the base-class constructor is not part of the agents'
    file).  The new agent gets the next identity and is live at once. *)
Definition register (x : Agent) : M G AgentId :=
  fun w g =>
    let i := next_id w in
    Ok (i, set_next_id (S i) (set_agents (insert i x) w), g).

(** Modelled from the spec: [vacate(agent, cell)], which takes the agent
    out of the occupants of a cell. *)
Definition vacate (i : AgentId) (c : Cell) (w : Model) : Model :=
  set_cell_agents (fun m => <[c := remove_first i (default [] (m !! c))]> m) w.

(** Modelled from the spec: [place(agent, cell)], which adds the agent to
    the occupants of a cell. *)
Definition place (i : AgentId) (c : Cell) (w : Model) : Model :=
  set_cell_agents (fun m => <[c := default [] (m !! c) ++ [i]]> m) w.

(** Modelled from the spec: the assignment [self.cell = c] of a [CellAgent]
    or [FixedAgent], which keeps an agent's recorded cell and the occupant
    sets consistent: leave the old cell, record the new one, enter it. *)
Definition relocate (self : AgentId) (x : Agent) (c : option Cell) (w : Model) : Model :=
  let w1 := match agent_cell x with Some c0 => vacate self c0 w | None => w end in
  let w2 := set_agents (insert self (agent_with_cell c x)) w1 in
  match c with Some c1 => place self c1 w2 | None => w2 end.

(** Modelled from the spec: the assignment [self.cell = c] as a method
    call, on an agent that is registered. *)
Definition set_cell (self : AgentId) (c : option Cell) : M G unit :=
  fun w g =>
    match agents w !! self with
    | None => Err NotAnAgent
    | Some x => Ok (tt, relocate self x c w, g)
    end.

(** Modelled from the spec: [AgentStore.remove], the method [remove()] the
    agents inherit: the agent leaves its cell and the set of live agents. *)
Definition Agent_remove (self : AgentId) : M G unit :=
  let* _ := set_cell self None in
  modify_model (set_agents (delete self)).

(** Modelled from the spec: [select(cells, predicate)], a filter that keeps
    the order of the cells. *)
Definition select (p : Cell -> bool) (cells : list Cell) : list Cell :=
  List.filter p cells.

(** [random.choice(seq)]: the element at index [_randbelow(len(seq))]. *)
Definition random_choice {A} (l : list A) : M G A :=
  fun w g =>
    match l with
    | [] => Err EmptySelectionError
    | x :: _ => let (i, g') := rs_randbelow (length l) g in Ok (nth i l x, w, g')
    end.

(** [random.random()] *)
Definition random_random : M G Q :=
  fun w g => let (u, g') := rs_random g in Ok (u, w, g').

(** Modelled from the spec: [random_cell(cells)], a uniform draw from the
    shared source that fails with [EmptySelectionError] on an empty set. *)
Definition select_random_cell (cells : list Cell) : M G Cell :=
  random_choice cells.

(** Modelled from the spec: [schedule_relative(delay, target, mutation)]
    of the event scheduler: the delay must be at least 0, the event is due
    at the current time plus the delay and queued after the pending ones. *)
Definition schedule_event_relative (delay : Z) (target : AgentId) : M G unit :=
  fun w g =>
    if (delay <? 0)%Z then Err InvalidScheduleError
    else Ok (tt, set_event_list (fun l => l ++ [mkEvent (time w + delay) target]) w, g).


(** *** [class Animal] *)

(** [Animal.__init__]: the base constructor registers the agent, then the
    attributes are stored and [self.cell = cell] enters the cell. *)
Definition Animal_init (sp : Species) (e p f : Q) (c : option Cell) : M G AgentId :=
  let* i := register (AnAnimal (mkAnimal sp e p f None)) in
  let* _ := set_cell i c in
  ret i.

(** [Animal.spawn_offspring] *)
Definition spawn_offspring (self : AgentId) : M G unit :=
  let* a := get_animal self in
  let* _ := set_energy self (energy a / 2) in
  let* a' := get_animal self in
  let* _ := Animal_init (species a') (energy a') (p_reproduce a')
                        (energy_from_food a') (cell a') in
  ret tt.

(** *** [class GrassPatch] *)

(** The setter of the property [fully_grown]. *)
Definition set_fully_grown (self : AgentId) (value : bool) : M G unit :=
  let* p := get_grass self in
  let* _ := modify_model (set_agents (insert self (AGrassPatch (with_fully_grown value p)))) in
  if negb value
  then schedule_event_relative (grass_regrowth_time p) self
  else ret tt.

(** [GrassPatch.__init__] *)
Definition GrassPatch_init (countdown regrowth : Z) (c : option Cell) : M G AgentId :=
  let* i := register (AGrassPatch (mkGrassPatch (countdown =? 0)%Z regrowth None)) in
  let* _ := set_cell i c in
  let* p := get_grass i in
  let* _ := (if negb (fully_grown p)
             then schedule_event_relative countdown i
             else ret tt) in
  ret i.

(** *** [class Sheep] *)

(** [Sheep.feed] *)
Definition Sheep_feed (self : AgentId) : M G unit :=
  let* a := get_animal self in
  let* c := the_cell (cell a) in
  let* w := get_model in
  match List.find (is_grass w) (occupants w c) with
  | None => raise StopIteration
  | Some grass_patch =>
      let* p := get_grass grass_patch in
      if fully_grown p
      then
        let* _ := set_energy self (energy a + energy_from_food a) in
        set_fully_grown grass_patch false
      else ret tt
  end.

(** The local variables of [Sheep.move], as functions of the model and of
    the sheep's cell. *)
Definition cells_without_wolves (w : Model) (c : Cell) : list Cell :=
  select (fun c' => negb (existsb (is_wolf w) (occupants w c'))) (neighborhood w c).

Definition cells_with_grass (w : Model) (c : Cell) : list Cell :=
  select (fun c' => existsb (is_grown_grass w) (occupants w c')) (cells_without_wolves w c).

Definition Sheep_target_cells (w : Model) (c : Cell) : list Cell :=
  if Nat.ltb 0 (length (cells_with_grass w c))
  then cells_with_grass w c
  else cells_without_wolves w c.

(** [Sheep.move] *)
Definition Sheep_move (self : AgentId) : M G unit :=
  let* a := get_animal self in
  let* c := the_cell (cell a) in
  let* w := get_model in
  if Nat.eqb (length (cells_without_wolves w c)) 0
  then ret tt
  else
    let* c' := select_random_cell (Sheep_target_cells w c) in
    set_cell self (Some c').

(** *** [class Wolf] *)

(** The list [sheep] of [Wolf.feed]: the sheep among the occupants of the
    wolf's cell. *)
Definition sheep_at (w : Model) (c : Cell) : list AgentId :=
  List.filter (is_sheep w) (occupants w c).

(** [Wolf.feed] *)
Definition Wolf_feed (self : AgentId) : M G unit :=
  let* a := get_animal self in
  let* c := the_cell (cell a) in
  let* w := get_model in
  match sheep_at w c with
  | [] => ret tt
  | _ :: _ =>
      let* sheep_to_eat := random_choice (sheep_at w c) in
      let* _ := set_energy self (energy a + energy_from_food a) in
      Agent_remove sheep_to_eat
  end.

(** The local variables of [Wolf.move]. *)
Definition cells_with_sheep (w : Model) (c : Cell) : list Cell :=
  select (fun c' => existsb (is_sheep w) (occupants w c')) (neighborhood w c).

Definition Wolf_target_cells (w : Model) (c : Cell) : list Cell :=
  if Nat.ltb 0 (length (cells_with_sheep w c))
  then cells_with_sheep w c
  else neighborhood w c.

(** [Wolf.move] *)
Definition Wolf_move (self : AgentId) : M G unit :=
  let* a := get_animal self in
  let* c := the_cell (cell a) in
  let* w := get_model in
  let* c' := select_random_cell (Wolf_target_cells w c) in
  set_cell self (Some c').

(** *** [Animal.step], with [move] and [feed] dispatched on the class *)

(** [self.move()]: the method of the animal's class. *)
Definition move (sp : Species) (self : AgentId) : M G unit :=
  match sp with
  | Sheep => Sheep_move self
  | Wolf => Wolf_move self
  end.

(** [self.feed()]: the method of the animal's class. *)
Definition feed (sp : Species) (self : AgentId) : M G unit :=
  match sp with
  | Sheep => Sheep_feed self
  | Wolf => Wolf_feed self
  end.

(** [Animal.step] *)
Definition step (self : AgentId) : M G unit :=
  let* a0 := get_animal self in
  let* _ := move (species a0) self in
  let* a1 := get_animal self in
  let* _ := set_energy self (energy a1 - 1) in
  let* _ := feed (species a0) self in
  let* a2 := get_animal self in
  if Qltb (energy a2) 0
  then Agent_remove self
  else
    let* u := random_random in
    if Qltb u (p_reproduce a2)
    then spawn_offspring self
    else ret tt.

(** *** The scheduler and the clock *)

(** A [for] loop over a list. *)
Fixpoint for_each {A} (l : list A) (f : A -> M G unit) : M G unit :=
  match l with
  | [] => ret tt
  | x :: l' => let* _ := f x in for_each l' f
  end.

(** Modelled from the spec: an event is due when its due time is at most
    the current time. *)
Definition is_due (now : Z) (e : SimulationEvent) : bool := (ev_time e <=? now)%Z.

(** Modelled from the spec: the time-then-insertion order of the scheduler,
    as a stable insertion by due time: ties keep their insertion order. *)
Fixpoint insert_event (e : SimulationEvent) (l : list SimulationEvent) : list SimulationEvent :=
  match l with
  | [] => [e]
  | e' :: l' =>
      if (ev_time e <=? ev_time e')%Z then e :: e' :: l' else e' :: insert_event e l'
  end.

(** Modelled from the spec: the events of a list in time-then-insertion
    order. *)
Definition sort_events (l : list SimulationEvent) : list SimulationEvent :=
  List.fold_right insert_event [] l.

(** Firing one event: the call [setattr(patch, "fully_grown", True)], which
    goes through the property setter. *)
Definition fire (e : SimulationEvent) : M G unit :=
  set_fully_grown (ev_target e) true.

(** Modelled from the spec: [fire_due(current_time)] pops every event with
    due time at most the current time and applies them in time-then-insertion
    order; the others stay queued. *)
Definition fire_due : M G unit :=
  let* w := get_model in
  let now := time w in
  let due := sort_events (List.filter (is_due now) (event_list w)) in
  let* _ := modify_model (set_event_list (List.filter (fun e => negb (is_due now e)))) in
  for_each due fire.

(** Modelled from the spec: the clock advances by one tick, then the
    scheduler fires the events due at the new time. *)
Definition advance_clock : M G unit :=
  let* _ := modify_model (fun w => set_time (time w + 1) w) in
  fire_due.

(** Modelled from the spec: [activation_order()], a fresh random permutation
    of the live animals, drawn from the shared source by repeatedly picking
    one of the identities not yet placed. *)
Fixpoint shuffle (n : nat) (l : list AgentId) : M G (list AgentId) :=
  match n with
  | 0 => ret []
  | S n' =>
      match l with
      | [] => ret []
      | _ :: _ =>
          let* i := random_choice (seq 0 (length l)) in
          let* rest := shuffle n' (take i l ++ drop (S i) l) in
          ret (nth i l 0 :: rest)
      end
  end.

(** [isinstance(obj, Animal)] on a registered agent. *)
Definition is_animal (w : Model) (i : AgentId) : bool :=
  match agents w !! i with
  | Some (AnAnimal _) => true
  | _ => false
  end.

(** Modelled from the spec: the live animals, the agents that take a turn. *)
Definition live_animals (w : Model) : list AgentId :=
  List.filter (is_animal w) (map fst (map_to_list (agents w))).

(** Modelled from the spec: [activation_order()], recomputed at each tick
    from the animals live at that moment. *)
Definition activation_order : M G (list AgentId) :=
  let* w := get_model in
  shuffle (length (live_animals w)) (live_animals w).

(** Modelled from the spec: one tick.  Due events fire first; then every
    animal of the activation order that is still alive when its turn comes
    takes its step; agents created during the pass wait for the next tick. *)
Definition tick : M G unit :=
  let* _ := advance_clock in
  let* order := activation_order in
  for_each order (fun i =>
    let* w := get_model in
    if is_animal w i then step i else ret tt).

(** Modelled from the spec: the population counts exposed per tick, live
    sheep, live wolves and fully grown patches. *)
Definition count_agents (p : Model -> AgentId -> bool) (w : Model) : nat :=
  length (List.filter (p w) (map fst (map_to_list (agents w)))).

(** Modelled from the spec: the three counts of a model. *)
Definition counts (w : Model) : nat * nat * nat :=
  (count_agents is_sheep w, count_agents is_wolf w, count_agents is_grown_grass w).

(** Modelled from the spec: a run of [n] ticks, with the counts after each
    of them. *)
Fixpoint run (n : nat) : M G (list (nat * nat * nat)) :=
  match n with
  | 0 => ret []
  | S n' =>
      let* _ := tick in
      let* w := get_model in
      let* cs := run n' in
      ret (counts w :: cs)
  end.

(** *** Evolutions of a model

    The models reached from [w0] by the operations of a run: creating
    patches and animals, steps of animals, and clock ticks (with a bound
    [Some T], only the ticks that land before time [T]). *)
Inductive evolution (bound : option Z) (w0 : Model) : Model -> Prop :=
| evolution_start : evolution bound w0 w0
| evolution_grass w g countdown regrowth c i w' g' :
    evolution bound w0 w ->
    GrassPatch_init countdown regrowth c w g = Ok (i, w', g') ->
    evolution bound w0 w'
| evolution_animal w g sp e p f c i w' g' :
    evolution bound w0 w ->
    Animal_init sp e p f c w g = Ok (i, w', g') ->
    evolution bound w0 w'
| evolution_step w g self w' g' :
    evolution bound w0 w ->
    step self w g = Ok (tt, w', g') ->
    evolution bound w0 w'
| evolution_clock w g w' g' :
    evolution bound w0 w ->
    advance_clock w g = Ok (tt, w', g') ->
    match bound with Some T => (time w' < T)%Z | None => True end ->
    evolution bound w0 w'.

(** The model before anything is created: no agent, no event, a grid. *)
Definition initial_model (nb : Cell -> list Cell) (t0 : Z) : Model :=
  mkModel ∅ ∅ nb [] t0 0.

(** The models a run can reach from an initial one. *)
Definition reachable (w : Model) : Prop :=
  exists nb t0, evolution None (initial_model nb t0) w.

End Agents.

(** ** A concrete random source

    A generator that replays a tape of raw draws: [random()] returns the next
    draw as hundredths, [_randbelow(n)] reduces it modulo [n]; an exhausted
    tape yields 0. *)

Definition tape_random (g : list nat) : Q * list nat :=
  (Z.of_nat (hd 0 g mod 100) # 100, tl g).

Definition tape_randbelow (n : nat) (g : list nat) : nat * list nat :=
  (hd 0 g mod n, tl g).

#[export, refine] Instance TapeSource : RandomSource (list nat) :=
  {| rs_random := tape_random; rs_randbelow := tape_randbelow |}.
Proof.
  - intros g. unfold tape_random, Qle, Qlt. simpl.
    pose proof (Nat.mod_upper_bound (hd 0 g) 100). lia.
  - intros n g Hn. unfold tape_randbelow. simpl.
    apply Nat.mod_upper_bound. lia.
Defined.

(** ** Well-formed models *)

(** Identities are handed out in increasing order: every registered agent
    has an identity below the next free one. *)
Definition fresh_ids (w : Model) : Prop :=
  forall i, is_Some (agents w !! i) -> i < next_id w.

(** The two directions the occupant sets are kept consistent in: a cell
    lists an agent at most once, and only agents whose recorded cell it is. *)
Definition consistent (w : Model) : Prop :=
  (forall c, NoDup (occupants w c)) /\
  (forall i c, i ∈ occupants w c ->
     exists x, agents w !! i = Some x /\ agent_cell x = Some c).

(** The events of the list that target patch [p]. *)
Definition pending (p : AgentId) (l : list SimulationEvent) : list SimulationEvent :=
  List.filter (fun e => Nat.eqb (ev_target e) p) l.

(** The model after a sheep [self] (with attributes [a]) has eaten the
    patch [q] (with attributes [gq]). *)
Definition eaten (self : AgentId) (a : Animal) (q : AgentId) (gq : GrassPatch)
    (w : Model) : Model :=
  set_event_list (fun l => l ++ [mkEvent (time w + grass_regrowth_time gq) q])
    (set_agents (insert q (AGrassPatch (with_fully_grown false gq)))
       (set_agents
          (insert self (AnAnimal (with_energy (energy a + energy_from_food a) a))) w)).

(** The phases of [Animal.step] after the move, named for the statements
    below: the flat cost [self.energy -= 1], and the final [if]/[elif] that
    handles death and reproduction. *)
Definition metabolize {G} (self : AgentId) : M G unit :=
  fun w g =>
    match agents w !! self with
    | Some (AnAnimal a) =>
        Ok (tt, set_agents (insert self (AnAnimal (with_energy (energy a - 1) a))) w, g)
    | _ => Err NotAnAgent
    end.

Definition resolve {G} `{RandomSource G} (self : AgentId) : M G unit :=
  let* a := get_animal self in
  if Qltb (energy a) 0
  then Agent_remove self
  else
    let* u := random_random in
    if Qltb u (p_reproduce a)
    then spawn_offspring self
    else ret tt.

(** The model after a wolf [self] (with attributes [a]) has eaten the sheep
    [s] (with attributes [sa]). *)
Definition devoured (self : AgentId) (a : Animal) (s : AgentId) (sa : Animal)
    (w : Model) : Model :=
  set_agents (delete s)
    (relocate s (AnAnimal sa) None
       (set_agents
          (insert self (AnAnimal (with_energy (energy a + energy_from_food a) a))) w)).

(** The model after the animal [self] (with attributes [a]) has spawned its
    offspring, which gets the identity [next_id w]. *)
Definition spawned (self : AgentId) (a : Animal) (w : Model) : Model :=
  let child := mkAnimal (species a) (energy a / 2) (p_reproduce a)
                 (energy_from_food a) None in
  relocate (next_id w) (AnAnimal child) (cell a)
    (set_next_id (S (next_id w))
       (set_agents (insert (next_id w) (AnAnimal child))
          (set_agents (insert self (AnAnimal (with_energy (energy a / 2) a))) w))).

(** The state of the automaton of patch [p]: its [fully_grown] flag and its
    regrowth time, if [p] is a patch. *)
Definition grass_of (m : gmap nat Agent) (p : AgentId) : option (bool * Z) :=
  match m !! p with
  | Some (AGrassPatch gp) => Some (fully_grown gp, grass_regrowth_time gp)
  | _ => None
  end.

Definition grass_state (w : Model) (p : AgentId) : option (bool * Z) :=
  grass_of (agents w) p.

(** The invariant of the patches and their events: patches have identities
    below the next free one, events target patches, and a patch has no
    pending event while fully grown and exactly one while not. *)
Definition grass_inv (w : Model) : Prop :=
  (forall p, next_id w <= p -> grass_state w p = None) /\
  (forall e, e ∈ event_list w -> is_Some (grass_state w (ev_target e))) /\
  (forall p b r, grass_state w p = Some (b, r) ->
     length (pending p (event_list w)) = if b then 0 else 1).

(** An operation that leaves the patches, the events and the clock alone. *)
Definition grass_frame (w w' : Model) : Prop :=
  (forall p, grass_state w' p = grass_state w p) /\
  event_list w' = event_list w /\
  time w' = time w /\
  next_id w <= next_id w'.

(** An operation in which the fully grown patch [q] is eaten. *)
Definition grass_eaten (q : AgentId) (r : Z) (w w' : Model) : Prop :=
  grass_state w q = Some (true, r) /\
  (0 <= r)%Z /\
  (forall p, grass_state w' p = if decide (p = q) then Some (false, r) else grass_state w p) /\
  event_list w' = event_list w ++ [mkEvent (time w + r) q] /\
  time w' = time w /\
  next_id w <= next_id w'.

(** The model after [GrassPatch.__init__] has created a patch, which gets
    the identity [next_id w]. *)
Definition planted (countdown regrowth : Z) (c : option Cell) (w : Model) : Model :=
  let i := next_id w in
  let p0 := AGrassPatch (mkGrassPatch (countdown =? 0)%Z regrowth None) in
  let w1 := relocate i p0 c (set_next_id (S i) (set_agents (insert i p0) w)) in
  if (countdown =? 0)%Z then w1
  else set_event_list (fun l => l ++ [mkEvent (time w + countdown) i]) w1.

(** Patch [q] is not grown and waits for its single event, due at [T]. *)
Definition waiting (q : AgentId) (T : Z) (w : Model) : Prop :=
  (exists r, grass_state w q = Some (false, r)) /\
  pending q (event_list w) = [mkEvent T q].

(** *** Generators that yield the same random stream

    What a run can observe of a generator is the answers to its requests: a
    request is a call of [random()] or of [_randbelow(n)].  Two generators
    yield the same stream when they answer every sequence of requests alike,
    as two generators seeded alike do. *)
Inductive Draw :=
| DrawRandom
| DrawBelow (n : nat).

Fixpoint observe {G} `{RandomSource G} (ds : list Draw) (g : G) : list (Q + nat) :=
  match ds with
  | [] => []
  | DrawRandom :: ds' =>
      inl (fst (rs_random g)) :: observe ds' (snd (rs_random g))
  | DrawBelow n :: ds' =>
      inr (fst (rs_randbelow n g)) :: observe ds' (snd (rs_randbelow n g))
  end.

Definition same_stream {G} `{RandomSource G} (g1 g2 : G) : Prop :=
  forall ds, observe ds g1 = observe ds g2.

(** Two outcomes agree: the same error, or the same value and model with
    generators that go on yielding the same stream. *)
Definition agree {G} `{RandomSource G} {A} (r1 r2 : Result (A * Model * G)) : Prop :=
  match r1, r2 with
  | Ok (a1, w1, g1), Ok (a2, w2, g2) => a1 = a2 /\ w1 = w2 /\ same_stream g1 g2
  | Err e1, Err e2 => e1 = e2
  | _, _ => False
  end.

(** A computation is determined by the model and the random stream. *)
Definition stream_determined {G} `{RandomSource G} {A} (m : M G A) : Prop :=
  forall w g1 g2, same_stream g1 g2 -> agree (m w g1) (m w g2).

(** The agent [s] has been removed: it is not registered, its identity is
    used up, and no cell lists it. *)
Definition gone (s : AgentId) (w : Model) : Prop :=
  agents w !! s = None /\ s < next_id w /\ forall c, s ∉ occupants w c.

(** The model after [Animal.__init__] has created an animal, which gets the
    identity [next_id w]. *)
Definition born (sp : Species) (e p f : Q) (c : option Cell) (w : Model) : Model :=
  relocate (next_id w) (AnAnimal (mkAnimal sp e p f None)) c
    (set_next_id (S (next_id w))
       (set_agents (insert (next_id w) (AnAnimal (mkAnimal sp e p f None))) w)).

(** ** A small pasture

    Three cells in a line, [0 - 1 - 2].  Patches 0, 1 and 2 lie on the cells
    of the same number, the one on cell 1 still growing (countdown 2); sheep
    3 grazes on cell 0, wolf 4 and sheep 5 stand on cell 1. *)
Definition line3 (c : Cell) : list Cell :=
  match c with
  | 0 => [1]
  | 1 => [0; 2]
  | 2 => [1]
  | _ => []
  end.

Definition sheep3 : Animal := mkAnimal Sheep 8 (1 # 2) 4 (Some 0).
Definition wolf4 : Animal := mkAnimal Wolf 5 (1 # 4) 6 (Some 1).
Definition sheep5 : Animal := mkAnimal Sheep 6 0 4 (Some 1).

Definition pasture : Model :=
  born Sheep 6 0 4 (Some 1)
    (born Wolf 5 (1 # 4) 6 (Some 1)
       (born Sheep 8 (1 # 2) 4 (Some 0)
          (planted 0 3 (Some 2)
             (planted 2 3 (Some 1)
                (planted 0 3 (Some 0) (initial_model line3 0)))))).

(** The checks behind [fresh_ids] and [consistent], as boolean functions. *)
Definition fresh_idsb (w : Model) : bool :=
  forallb (fun i => Nat.ltb i (next_id w)) (map fst (map_to_list (agents w))).

Fixpoint nodupb (l : list AgentId) : bool :=
  match l with
  | [] => true
  | x :: l' => negb (existsb (Nat.eqb x) l') && nodupb l'
  end.

Definition lives_in (w : Model) (c : Cell) (i : AgentId) : bool :=
  match agents w !! i with
  | Some x => match agent_cell x with Some c' => Nat.eqb c' c | None => false end
  | None => false
  end.

Definition consistentb (w : Model) : bool :=
  forallb (fun cl => nodupb (snd cl) && forallb (lives_in w (fst cl)) (snd cl))
          (map_to_list (cell_agents w)).

(** A lawn of one cell: patch 0, fully grown, with regrowth time 3, and
    sheep 1 with energy 8 that never reproduces. *)
Definition lawn : Model :=
  born Sheep 8 0 4 (Some 0) (planted 0 3 (Some 0) (initial_model (fun _ => []) 0)).

(** A well-formed model: fresh identities and consistent occupant lists. *)
Definition well_formed (w : Model) : Prop := fresh_ids w /\ consistent w.

(** Two conditions on the set-up: a cell holds at most one patch, and no
    patch has a negative regrowth time. *)
Definition one_patch_per_cell (w : Model) : Prop :=
  forall c q q', q ∈ occupants w c -> q' ∈ occupants w c ->
    is_grass w q = true -> is_grass w q' = true -> q = q'.

Definition regrowth_times_valid (w : Model) : Prop :=
  forall q gq, agents w !! q = Some (AGrassPatch gq) ->
    (0 <= grass_regrowth_time gq)%Z.

(** The model a computation ends in, [d] if it fails. *)
Definition model_after {A G} (r : Result (A * Model * G)) (d : Model) : Model :=
  match r with
  | Ok (_, w, _) => w
  | Err _ => d
  end.

(** * Properties *)

Section Proofs.

Context {G : Type} `{RandomSource G}.

(** ** Comparisons on rationals *)

Lemma Qltb_true (x y : Q) : Qltb x y = true <-> (x < y)%Q.
Proof.
  unfold Qltb. rewrite negb_true_iff. split.
  - intros Hb. apply Qnot_le_lt. intros Hle. apply Qle_bool_iff in Hle. congruence.
  - intros Hlt. destruct (Qle_bool y x) eqn:E; [|reflexivity].
    apply Qle_bool_iff in E. exfalso. exact (Qlt_not_le _ _ Hlt E).
Qed.

Lemma Qltb_false (x y : Q) : Qltb x y = false <-> (y <= x)%Q.
Proof. unfold Qltb. rewrite negb_false_iff. apply Qle_bool_iff. Qed.

(** ** Running the monad *)

Lemma bind_eq {A B} (m : M G A) (k : A -> M G B) w g a w' g' :
  m w g = Ok (a, w', g') -> bind m k w g = k a w' g'.
Proof. intros E. unfold bind. now rewrite E. Qed.

Lemma bind_err {A B} (m : M G A) (k : A -> M G B) w g e :
  m w g = Err e -> bind m k w g = Err e.
Proof. intros E. unfold bind. now rewrite E. Qed.

Lemma bind_inv {A B} (m : M G A) (k : A -> M G B) w g r :
  bind m k w g = Ok r ->
  exists a w' g', m w g = Ok (a, w', g') /\ k a w' g' = Ok r.
Proof.
  unfold bind. destruct (m w g) as [[[a w'] g']|e]; [|discriminate].
  intros E. now exists a, w', g'.
Qed.

Lemma bind_ext {A B} (m : M G A) (k1 k2 : A -> M G B) w g :
  (forall a w' g', k1 a w' g' = k2 a w' g') -> bind m k1 w g = bind m k2 w g.
Proof. intros E. unfold bind. destruct (m w g) as [[[a w'] g']|e]; auto. Qed.

Lemma get_animal_Ok self a w (g : G) :
  agents w !! self = Some (AnAnimal a) -> get_animal self w g = Ok (a, w, g).
Proof. intros E. unfold get_animal. now rewrite E. Qed.

Lemma get_animal_inv self w (g : G) a w' g' :
  get_animal self w g = Ok (a, w', g') ->
  agents w !! self = Some (AnAnimal a) /\ w' = w /\ g' = g.
Proof.
  unfold get_animal. destruct (agents w !! self) as [[b|p]|]; try discriminate.
  intros E. injection E as -> -> ->. auto.
Qed.

Lemma get_grass_Ok self p w (g : G) :
  agents w !! self = Some (AGrassPatch p) -> get_grass self w g = Ok (p, w, g).
Proof. intros E. unfold get_grass. now rewrite E. Qed.

Lemma get_grass_inv self w (g : G) p w' g' :
  get_grass self w g = Ok (p, w', g') ->
  agents w !! self = Some (AGrassPatch p) /\ w' = w /\ g' = g.
Proof.
  unfold get_grass. destruct (agents w !! self) as [[b|q]|]; try discriminate.
  intros E. injection E as -> -> ->. auto.
Qed.

Lemma set_energy_Ok self a e w (g : G) :
  agents w !! self = Some (AnAnimal a) ->
  set_energy self e w g
  = Ok (tt, set_agents (insert self (AnAnimal (with_energy e a))) w, g).
Proof.
  intros E. unfold set_energy.
  erewrite bind_eq by (apply get_animal_Ok; eassumption). reflexivity.
Qed.

Lemma set_cell_Ok self x c w (g : G) :
  agents w !! self = Some x ->
  set_cell self c w g = Ok (tt, relocate self x c w, g).
Proof. intros E. unfold set_cell. now rewrite E. Qed.

Lemma Agent_remove_Ok self x w (g : G) :
  agents w !! self = Some x ->
  Agent_remove self w g
  = Ok (tt, set_agents (delete self) (relocate self x None w), g).
Proof.
  intros E. unfold Agent_remove.
  erewrite bind_eq by (apply set_cell_Ok; eassumption). reflexivity.
Qed.

Lemma schedule_event_relative_Ok delay target w (g : G) :
  (0 <= delay)%Z ->
  schedule_event_relative delay target w g
  = Ok (tt, set_event_list (fun l => l ++ [mkEvent (time w + delay) target]) w, g).
Proof.
  intros Hd. unfold schedule_event_relative.
  destruct (Z.ltb_spec delay 0); [lia|reflexivity].
Qed.

Lemma random_choice_Ok {A} (l : list A) (d : A) w (g : G) :
  l <> [] ->
  random_choice l w g
  = Ok (nth (fst (rs_randbelow (length l) g)) l d, w, snd (rs_randbelow (length l) g)).
Proof.
  intros Hl. unfold random_choice. destruct l as [|x l']; [congruence|].
  pose proof (rs_randbelow_lt (length (x :: l')) g) as Hlt.
  destruct (rs_randbelow (length (x :: l')) g) as [i g'] eqn:E. simpl fst in *. simpl snd.
  f_equal. f_equal. f_equal. apply nth_indep. apply Hlt. simpl. lia.
Qed.

Lemma random_random_Ok w (g : G) :
  random_random w g = Ok (fst (rs_random g), w, snd (rs_random g)).
Proof. unfold random_random. now destruct (rs_random g). Qed.

(** ** What [relocate] changes *)

Lemma agents_relocate self x c w :
  agents (relocate self x c w) = <[self := agent_with_cell c x]> (agents w).
Proof. unfold relocate. destruct c, (agent_cell x); reflexivity. Qed.

Lemma event_list_relocate self x c w :
  event_list (relocate self x c w) = event_list w.
Proof. unfold relocate. destruct c, (agent_cell x); reflexivity. Qed.

Lemma time_relocate self x c w : time (relocate self x c w) = time w.
Proof. unfold relocate. destruct c, (agent_cell x); reflexivity. Qed.

Lemma next_id_relocate self x c w : next_id (relocate self x c w) = next_id w.
Proof. unfold relocate. destruct c, (agent_cell x); reflexivity. Qed.

Lemma neighborhood_relocate self x c w :
  neighborhood (relocate self x c w) = neighborhood w.
Proof. unfold relocate. destruct c, (agent_cell x); reflexivity. Qed.

Lemma occupants_vacate i c w c' :
  occupants (vacate i c w) c'
  = if decide (c = c') then remove_first i (occupants w c') else occupants w c'.
Proof.
  unfold occupants, vacate. simpl. destruct (decide (c = c')) as [->|Hne].
  - now rewrite lookup_insert_eq.
  - now rewrite lookup_insert_ne.
Qed.

Lemma occupants_place i c w c' :
  occupants (place i c w) c'
  = if decide (c = c') then occupants w c' ++ [i] else occupants w c'.
Proof.
  unfold occupants, place. simpl. destruct (decide (c = c')) as [->|Hne].
  - now rewrite lookup_insert_eq.
  - now rewrite lookup_insert_ne.
Qed.

Lemma occupants_set_agents f w c : occupants (set_agents f w) c = occupants w c.
Proof. reflexivity. Qed.

Lemma occupants_relocate self x c w c' :
  occupants (relocate self x c w) c'
  = let l := if decide (agent_cell x = Some c')
             then remove_first self (occupants w c') else occupants w c' in
    if decide (c = Some c') then l ++ [self] else l.
Proof.
  unfold relocate. cbv zeta.
  destruct c as [c1|]; destruct (agent_cell x) as [c0|];
    rewrite ?occupants_place, ?occupants_set_agents, ?occupants_vacate;
    repeat case_decide; simplify_eq; try reflexivity; try congruence.
Qed.

(** ** [Animal.__init__] and [Animal.spawn_offspring] *)

Lemma Animal_init_Ok sp e p f c w (g : G) :
  Animal_init sp e p f c w g
  = Ok (next_id w,
        relocate (next_id w) (AnAnimal (mkAnimal sp e p f None)) c
          (set_next_id (S (next_id w))
             (set_agents (insert (next_id w) (AnAnimal (mkAnimal sp e p f None))) w)),
        g).
Proof.
  unfold Animal_init.
  erewrite bind_eq by reflexivity.
  erewrite bind_eq by (apply set_cell_Ok; simpl; apply lookup_insert_eq).
  reflexivity.
Qed.


(** ** The setter of [GrassPatch.fully_grown] *)

Lemma set_fully_grown_false_Ok p gp w (g : G) :
  agents w !! p = Some (AGrassPatch gp) ->
  (0 <= grass_regrowth_time gp)%Z ->
  set_fully_grown p false w g
  = Ok (tt,
        set_event_list (fun l => l ++ [mkEvent (time w + grass_regrowth_time gp) p])
          (set_agents (insert p (AGrassPatch (with_fully_grown false gp))) w),
        g).
Proof.
  intros Hp Hr. unfold set_fully_grown.
  erewrite bind_eq by (apply get_grass_Ok; eassumption).
  erewrite bind_eq by reflexivity.
  change (negb false) with true. cbv iota.
  now rewrite schedule_event_relative_Ok.
Qed.

Lemma set_fully_grown_false_negative p gp w (g : G) :
  agents w !! p = Some (AGrassPatch gp) ->
  (grass_regrowth_time gp < 0)%Z ->
  set_fully_grown p false w g = Err InvalidScheduleError.
Proof.
  intros Hp Hr. unfold set_fully_grown.
  erewrite bind_eq by (apply get_grass_Ok; eassumption).
  erewrite bind_eq by reflexivity.
  simpl negb. cbv iota. unfold schedule_event_relative.
  destruct (Z.ltb_spec (grass_regrowth_time gp) 0); [reflexivity|lia].
Qed.

Lemma set_fully_grown_true_Ok p gp w (g : G) :
  agents w !! p = Some (AGrassPatch gp) ->
  set_fully_grown p true w g
  = Ok (tt, set_agents (insert p (AGrassPatch (with_fully_grown true gp))) w, g).
Proof.
  intros Hp. unfold set_fully_grown.
  erewrite bind_eq by (apply get_grass_Ok; eassumption).
  erewrite bind_eq by reflexivity.
  reflexivity.
Qed.

(** ** [Sheep.feed] *)

Lemma find_is_grass w l q :
  List.find (is_grass w) l = Some q ->
  q ∈ l /\ exists gq, agents w !! q = Some (AGrassPatch gq).
Proof.
  intros E. apply List.find_some in E as [Hin Hq]. split.
  - now apply list_elem_of_In.
  - unfold is_grass in Hq. destruct (agents w !! q) as [[b|gq]|]; try discriminate.
    now exists gq.
Qed.

Lemma Sheep_feed_grown self a c q gq w (g : G) :
  agents w !! self = Some (AnAnimal a) ->
  cell a = Some c ->
  List.find (is_grass w) (occupants w c) = Some q ->
  agents w !! q = Some (AGrassPatch gq) ->
  fully_grown gq = true ->
  (0 <= grass_regrowth_time gq)%Z ->
  Sheep_feed self w g = Ok (tt, eaten self a q gq w, g).
Proof.
  intros Hself Hc Hfind Hq Hgrown Hr. unfold Sheep_feed.
  erewrite bind_eq by (apply get_animal_Ok; eassumption).
  rewrite Hc. erewrite bind_eq by reflexivity.
  erewrite bind_eq by reflexivity.
  rewrite Hfind.
  erewrite bind_eq by (apply get_grass_Ok; eassumption).
  rewrite Hgrown.
  erewrite bind_eq by (apply set_energy_Ok; eassumption).
  assert (Hne : self <> q) by (intros ->; congruence).
  erewrite set_fully_grown_false_Ok; [reflexivity| |exact Hr].
  simpl. now rewrite lookup_insert_ne.
Qed.

Lemma Sheep_feed_not_grown self a c q gq w (g : G) :
  agents w !! self = Some (AnAnimal a) ->
  cell a = Some c ->
  List.find (is_grass w) (occupants w c) = Some q ->
  agents w !! q = Some (AGrassPatch gq) ->
  fully_grown gq = false ->
  Sheep_feed self w g = Ok (tt, w, g).
Proof.
  intros Hself Hc Hfind Hq Hgrown. unfold Sheep_feed.
  erewrite bind_eq by (apply get_animal_Ok; eassumption).
  rewrite Hc. erewrite bind_eq by reflexivity.
  erewrite bind_eq by reflexivity.
  rewrite Hfind.
  erewrite bind_eq by (apply get_grass_Ok; eassumption).
  now rewrite Hgrown.
Qed.

Lemma Sheep_feed_no_grass self a c w (g : G) :
  agents w !! self = Some (AnAnimal a) ->
  cell a = Some c ->
  List.find (is_grass w) (occupants w c) = None ->
  Sheep_feed self w g = Err StopIteration.
Proof.
  intros Hself Hc Hfind. unfold Sheep_feed.
  erewrite bind_eq by (apply get_animal_Ok; eassumption).
  rewrite Hc. erewrite bind_eq by reflexivity.
  erewrite bind_eq by reflexivity.
  now rewrite Hfind.
Qed.

(** Every successful call of [Sheep.feed] is one of the two cases. *)
Lemma Sheep_feed_inv self w (g : G) u w' g' :
  Sheep_feed self w g = Ok (u, w', g') ->
  exists a c q gq,
    agents w !! self = Some (AnAnimal a) /\ cell a = Some c /\
    List.find (is_grass w) (occupants w c) = Some q /\
    agents w !! q = Some (AGrassPatch gq) /\ g' = g /\
    ((fully_grown gq = false /\ w' = w) \/
     (fully_grown gq = true /\ (0 <= grass_regrowth_time gq)%Z /\
      w' = eaten self a q gq w)).
Proof.
  intros E.
  destruct (agents w !! self) as [[a|?]|] eqn:Hself;
    try (unfold Sheep_feed in E; erewrite bind_err in E; [discriminate|];
         unfold get_animal; now rewrite Hself).
  destruct (cell a) as [c|] eqn:Hc.
  2:{ unfold Sheep_feed in E.
      erewrite bind_eq in E by (apply get_animal_Ok; eassumption).
      rewrite Hc in E. discriminate. }
  destruct (List.find (is_grass w) (occupants w c)) as [q|] eqn:Hfind.
  2:{ erewrite Sheep_feed_no_grass in E by eassumption. discriminate. }
  destruct (find_is_grass _ _ _ Hfind) as [_ [gq Hq]].
  exists a, c, q, gq. repeat (split; [assumption || reflexivity|]).
  destruct (fully_grown gq) eqn:Hgrown.
  - destruct (Z.le_gt_cases 0 (grass_regrowth_time gq)) as [Hr|Hr].
    + erewrite Sheep_feed_grown in E by eassumption.
      injection E as _ <- <-. split; [reflexivity|]. right. auto.
    + exfalso. unfold Sheep_feed in E.
      erewrite bind_eq in E by (apply get_animal_Ok; eassumption).
      rewrite Hc in E. erewrite bind_eq in E by reflexivity.
      erewrite bind_eq in E by reflexivity.
      rewrite Hfind in E.
      erewrite bind_eq in E by (apply get_grass_Ok; eassumption).
      rewrite Hgrown in E.
      erewrite bind_eq in E by (apply set_energy_Ok; eassumption).
      assert (Hne : self <> q) by (intros ->; congruence).
      rewrite (set_fully_grown_false_negative q gq) in E; [discriminate| |lia].
      simpl. now rewrite lookup_insert_ne.
  - erewrite Sheep_feed_not_grown in E by eassumption.
    injection E as _ <- <-. split; [reflexivity|]. left. auto.
Qed.

(** C6: a sheep whose cell carries a patch ([q], the patch [next] finds
    among the occupants) gains [energy_from_food] and turns the patch to
    not-grown when the patch is fully grown; when it is not, neither the
    sheep nor the patch nor anything else changes, and no error is raised. *)
Theorem Sheep_feed_spec (self q : AgentId) (a : Animal) (c : Cell)
    (gq : GrassPatch) (w : Model) (g : G) :
  agents w !! self = Some (AnAnimal a) ->
  cell a = Some c ->
  List.find (is_grass w) (occupants w c) = Some q ->
  agents w !! q = Some (AGrassPatch gq) ->
  (0 <= grass_regrowth_time gq)%Z ->
  (fully_grown gq = true ->
     exists w',
       Sheep_feed self w g = Ok (tt, w', g) /\
       agents w' !! self
         = Some (AnAnimal (with_energy (energy a + energy_from_food a) a)) /\
       agents w' !! q = Some (AGrassPatch (with_fully_grown false gq)) /\
       (forall i, i <> self -> i <> q -> agents w' !! i = agents w !! i) /\
       cell_agents w' = cell_agents w) /\
  (fully_grown gq = false -> Sheep_feed self w g = Ok (tt, w, g)).
Proof.
  intros Hself Hc Hfind Hq Hr. split; intros Hgrown.
  - exists (eaten self a q gq w).
    assert (Hne : self <> q) by (intros ->; congruence).
    split; [now apply Sheep_feed_grown with (c := c)|].
    unfold eaten. simpl. repeat split.
    + rewrite lookup_insert_ne by congruence. apply lookup_insert_eq.
    + apply lookup_insert_eq.
    + intros i Hi1 Hi2. now rewrite !lookup_insert_ne by congruence.
  - now apply Sheep_feed_not_grown with (a := a) (c := c) (q := q) (gq := gq).
Qed.

Lemma find_is_grass_None w l :
  (forall i, i ∈ l -> is_grass w i = false) -> List.find (is_grass w) l = None.
Proof.
  intros Hall. destruct (List.find (is_grass w) l) as [q|] eqn:E; [|reflexivity].
  apply List.find_some in E as [Hin Hq]. apply list_elem_of_In in Hin.
  rewrite (Hall _ Hin) in Hq. discriminate.
Qed.

Lemma find_is_grass_Some w l q :
  q ∈ l -> is_grass w q = true -> exists q', List.find (is_grass w) l = Some q'.
Proof.
  intros Hin Hq. destruct (List.find (is_grass w) l) as [q'|] eqn:E; [eauto|].
  apply list_elem_of_In in Hin.
  pose proof (List.find_none _ _ E _ Hin) as Hn. congruence.
Qed.

(** [Animal.step] is its phases in sequence; it has no handler, so an error
    of a phase is the error of the step. *)
Lemma step_phases self w (g : G) :
  step self w g
  = (let* a0 := get_animal self in
     let* _ := move (species a0) self in
     let* _ := metabolize self in
     let* _ := feed (species a0) self in
     resolve self) w g.
Proof.
  unfold step.
  apply bind_ext; intros a0 w0 g0.
  apply bind_ext; intros _ w1 g1.
  unfold metabolize, set_energy, get_animal, modify_model, bind.
  destruct (agents w1 !! self) as [[a1|?]|] eqn:E; cbv beta iota; rewrite ?E; reflexivity.
Qed.

Lemma step_feed_error self a0 w0 (g0 : G) w1 g1 w g e :
  agents w0 !! self = Some (AnAnimal a0) ->
  move (species a0) self w0 g0 = Ok (tt, w1, g1) ->
  metabolize self w1 g1 = Ok (tt, w, g) ->
  feed (species a0) self w g = Err e ->
  step self w0 g0 = Err e.
Proof.
  intros Hself Hmove Hmet Hfeed. rewrite step_phases.
  erewrite bind_eq by (apply get_animal_Ok; eassumption).
  erewrite bind_eq by eassumption.
  erewrite bind_eq by eassumption.
  now apply bind_err.
Qed.

(** C8: a sheep whose cell holds no [GrassPatch] makes [Sheep.feed] raise
    ([StopIteration], from [next] on the exhausted generator), and the step
    that called it ends with that error instead of going on; when the cell
    holds a patch this error cannot occur, and the call succeeds. *)
Theorem Sheep_feed_needs_grass (self : AgentId) (a : Animal) (c : Cell)
    (w : Model) (g : G) :
  agents w !! self = Some (AnAnimal a) ->
  cell a = Some c ->
  ((forall i, i ∈ occupants w c -> is_grass w i = false) ->
     Sheep_feed self w g = Err StopIteration /\
     (forall a0 w0 g0 w1 g1,
        agents w0 !! self = Some (AnAnimal a0) -> species a0 = Sheep ->
        move Sheep self w0 g0 = Ok (tt, w1, g1) ->
        metabolize self w1 g1 = Ok (tt, w, g) ->
        step self w0 g0 = Err StopIteration)) /\
  ((exists q, q ∈ occupants w c /\ is_grass w q = true) ->
     Sheep_feed self w g <> Err StopIteration /\
     ((forall q gq, agents w !! q = Some (AGrassPatch gq) ->
         (0 <= grass_regrowth_time gq)%Z) ->
      exists w', Sheep_feed self w g = Ok (tt, w', g))).
Proof.
  intros Hself Hc. split.
  - intros Hnone.
    assert (Hfeed : Sheep_feed self w g = Err StopIteration).
    { apply Sheep_feed_no_grass with (a := a) (c := c); auto.
      now apply find_is_grass_None. }
    split; [exact Hfeed|].
    intros a0 w0 g0 w1 g1 Ha0 Hsp Hmove Hmet.
    apply step_feed_error with (a0 := a0) (w1 := w1) (g1 := g1) (w := w) (g := g);
      rewrite ?Hsp; auto.
  - intros (q & Hin & Hq).
    destruct (find_is_grass_Some _ _ _ Hin Hq) as [q' Hfind].
    destruct (find_is_grass _ _ _ Hfind) as [_ [gq Hq']].
    destruct (fully_grown gq) eqn:Hgrown.
    + split.
      * destruct (Z.le_gt_cases 0 (grass_regrowth_time gq)) as [Hr|Hr].
        -- erewrite Sheep_feed_grown by eassumption. discriminate.
        -- unfold Sheep_feed.
           erewrite bind_eq by (apply get_animal_Ok; eassumption).
           rewrite Hc. erewrite bind_eq by reflexivity.
           erewrite bind_eq by reflexivity.
           rewrite Hfind.
           erewrite bind_eq by (apply get_grass_Ok; eassumption).
           rewrite Hgrown.
           erewrite bind_eq by (apply set_energy_Ok; eassumption).
           assert (Hne : self <> q') by (intros ->; congruence).
           rewrite (set_fully_grown_false_negative q' gq); [discriminate| |lia].
           simpl. now rewrite lookup_insert_ne.
      * intros Hreg. eexists. eapply Sheep_feed_grown; eauto.
    + split.
      * erewrite Sheep_feed_not_grown by eassumption. discriminate.
      * intros _. eexists. eapply Sheep_feed_not_grown; eauto.
Qed.

(** C10: assigning [False] to [fully_grown] queues a regrowth event at
    [grass_regrowth_time] ticks whatever the patch's state was, so a second
    assignment queues a second event; assigning [True] queues nothing; and
    [Sheep.feed] assigns [False] only to a patch that is fully grown. *)
Theorem fully_grown_setter_schedules_unconditionally (p : AgentId)
    (gp : GrassPatch) (w : Model) (g : G) :
  agents w !! p = Some (AGrassPatch gp) ->
  (0 <= grass_regrowth_time gp)%Z ->
  let ev := mkEvent (time w + grass_regrowth_time gp) p in
  (exists w1 w2,
     set_fully_grown p false w g = Ok (tt, w1, g) /\
     agents w1 !! p = Some (AGrassPatch (with_fully_grown false gp)) /\
     event_list w1 = event_list w ++ [ev] /\
     set_fully_grown p false w1 g = Ok (tt, w2, g) /\
     agents w2 !! p = Some (AGrassPatch (with_fully_grown false gp)) /\
     event_list w2 = event_list w ++ [ev; ev] /\
     length (pending p (event_list w2)) = 2 + length (pending p (event_list w))) /\
  (exists w3,
     set_fully_grown p true w g = Ok (tt, w3, g) /\
     agents w3 !! p = Some (AGrassPatch (with_fully_grown true gp)) /\
     event_list w3 = event_list w) /\
  (forall self u w' g',
     Sheep_feed self w g = Ok (u, w', g') ->
     event_list w' = event_list w \/
     exists q gq,
       agents w !! q = Some (AGrassPatch gq) /\ fully_grown gq = true /\
       agents w' !! q = Some (AGrassPatch (with_fully_grown false gq)) /\
       event_list w' = event_list w ++ [mkEvent (time w + grass_regrowth_time gq) q]).
Proof.
  intros Hp Hr ev. split; [|split].
  - eexists _, _. split; [apply (set_fully_grown_false_Ok p gp); assumption|].
    split; [simpl; apply lookup_insert_eq|].
    split; [reflexivity|].
    split.
    { apply (set_fully_grown_false_Ok p (with_fully_grown false gp)); [|exact Hr].
      simpl. apply lookup_insert_eq. }
    split; [simpl; apply lookup_insert_eq|].
    split; [simpl; now rewrite <- app_assoc|].
    simpl. unfold pending. rewrite <- app_assoc, List.filter_app, length_app. simpl.
    rewrite Nat.eqb_refl. simpl. lia.
  - eexists. split; [apply (set_fully_grown_true_Ok p gp); assumption|].
    split; [simpl; apply lookup_insert_eq|reflexivity].
  - intros self u w' g' E.
    apply Sheep_feed_inv in E as (a & c & q & gq & Hself & Hc & Hfind & Hq & -> & Hcase).
    destruct Hcase as [[Hgrown ->]|(Hgrown & Hrq & ->)].
    + now left.
    + right. exists q, gq. repeat split; try assumption.
      unfold eaten. simpl. apply lookup_insert_eq.
Qed.

(** ** Lists *)

Lemma existsb_false_elem {A} (f : A -> bool) (l : list A) :
  existsb f l = false <-> forall x, x ∈ l -> f x = false.
Proof.
  split.
  - intros E x Hx. destruct (f x) eqn:Fx; [|reflexivity].
    assert (existsb f l = true) as E'; [|congruence].
    apply existsb_exists. exists x. split; [now apply list_elem_of_In|assumption].
  - intros Hall. destruct (existsb f l) eqn:E; [|reflexivity].
    apply existsb_exists in E as (x & Hin & Fx). apply list_elem_of_In in Hin.
    rewrite (Hall _ Hin) in Fx. discriminate.
Qed.

Lemma existsb_true_elem {A} (f : A -> bool) (l : list A) :
  existsb f l = true <-> exists x, x ∈ l /\ f x = true.
Proof.
  rewrite existsb_exists. split; intros (x & Hin & Fx); exists x;
    (split; [now apply list_elem_of_In|assumption]).
Qed.

Lemma elem_of_filter_list {A} (f : A -> bool) (l : list A) (x : A) :
  x ∈ List.filter f l <-> x ∈ l /\ f x = true.
Proof. rewrite !list_elem_of_In. apply List.filter_In. Qed.

Lemma NoDup_filter_list {A} (f : A -> bool) (l : list A) :
  NoDup l -> NoDup (List.filter f l).
Proof.
  rewrite !NoDup_ListNoDup. apply List.NoDup_filter.
Qed.

Lemma elem_of_remove_first i l x : x ∈ remove_first i l -> x ∈ l.
Proof.
  induction l as [|j l IH]; simpl; [auto|].
  destruct (Nat.eqb i j).
  - intros Hx. now right.
  - intros Hx. apply elem_of_cons in Hx as [->|Hx]; [left|right; auto].
Qed.

Lemma remove_first_NoDup i l : NoDup l -> NoDup (remove_first i l) /\ i ∉ remove_first i l.
Proof.
  induction 1 as [|j l Hj Hnd [IH1 IH2]]; simpl.
  - split; [constructor|]. apply not_elem_of_nil.
  - destruct (Nat.eqb_spec i j) as [->|Hne].
    + split; assumption.
    + split.
      * constructor; [|assumption]. intros Hin. apply Hj. eapply elem_of_remove_first; eauto.
      * intros Hin. apply elem_of_cons in Hin as [->|Hin]; [congruence|auto].
Qed.

Lemma remove_first_notin i l : i ∉ l -> remove_first i l = l.
Proof.
  induction l as [|j l IH]; simpl; [auto|].
  intros Hni. destruct (Nat.eqb_spec i j) as [->|Hne].
  - exfalso. apply Hni. left.
  - f_equal. apply IH. intros Hin. apply Hni. now right.
Qed.

Lemma lookup_nth {A} (l : list A) (i : nat) (d : A) :
  i < length l -> l !! i = Some (nth i l d).
Proof.
  revert i. induction l as [|x l IH]; intros [|i] Hi; simpl in *; try lia; [reflexivity|].
  apply IH. lia.
Qed.

(** ** [random.choice] *)

(** The element [choice] returns is the one at the index the generator
    draws below the length of the sequence. *)
Lemma random_choice_spec {A} (l : list A) w (g : G) :
  l <> [] ->
  exists x,
    fst (rs_randbelow (length l) g) < length l /\
    l !! fst (rs_randbelow (length l) g) = Some x /\
    random_choice l w g = Ok (x, w, snd (rs_randbelow (length l) g)).
Proof.
  intros Hl. destruct l as [|d l'] eqn:El; [congruence|]. rewrite <- El in *.
  assert (Hlt : fst (rs_randbelow (length l) g) < length l).
  { apply rs_randbelow_lt. rewrite El. simpl. lia. }
  exists (nth (fst (rs_randbelow (length l) g)) l d).
  split; [exact Hlt|]. split; [now apply lookup_nth|].
  now apply random_choice_Ok.
Qed.

Lemma random_choice_inv {A} (l : list A) w (g : G) x w' g' :
  random_choice l w g = Ok (x, w', g') ->
  l <> [] /\ w' = w /\ g' = snd (rs_randbelow (length l) g) /\
  l !! fst (rs_randbelow (length l) g) = Some x.
Proof.
  intros E. destruct l as [|d l'] eqn:El; [discriminate|]. rewrite <- El in *.
  assert (Hl : l <> []) by (rewrite El; discriminate).
  destruct (random_choice_spec l w g Hl) as (y & _ & Hy & E').
  rewrite E' in E. injection E as -> <- <-. auto.
Qed.

(** ** The moves *)

Lemma Sheep_target_cells_cases w c :
  (cells_with_grass w c <> [] /\ Sheep_target_cells w c = cells_with_grass w c) \/
  (cells_with_grass w c = [] /\ Sheep_target_cells w c = cells_without_wolves w c).
Proof.
  unfold Sheep_target_cells. destruct (cells_with_grass w c) as [|x l]; simpl.
  - right. auto.
  - left. split; [discriminate|reflexivity].
Qed.

Lemma Wolf_target_cells_cases w c :
  (cells_with_sheep w c <> [] /\ Wolf_target_cells w c = cells_with_sheep w c) \/
  (cells_with_sheep w c = [] /\ Wolf_target_cells w c = neighborhood w c).
Proof.
  unfold Wolf_target_cells. destruct (cells_with_sheep w c) as [|x l]; simpl.
  - right. auto.
  - left. split; [discriminate|reflexivity].
Qed.

Lemma elem_of_cells_without_wolves w c x :
  x ∈ cells_without_wolves w c <->
  x ∈ neighborhood w c /\ existsb (is_wolf w) (occupants w x) = false.
Proof.
  unfold cells_without_wolves, select.
  rewrite !list_elem_of_In, List.filter_In. cbv beta. now rewrite negb_true_iff.
Qed.

Lemma elem_of_cells_with_grass w c x :
  x ∈ cells_with_grass w c <->
  x ∈ cells_without_wolves w c /\ existsb (is_grown_grass w) (occupants w x) = true.
Proof.
  unfold cells_with_grass, select.
  rewrite !list_elem_of_In, List.filter_In. reflexivity.
Qed.

Lemma elem_of_cells_with_sheep w c x :
  x ∈ cells_with_sheep w c <->
  x ∈ neighborhood w c /\ existsb (is_sheep w) (occupants w x) = true.
Proof.
  unfold cells_with_sheep, select.
  rewrite !list_elem_of_In, List.filter_In. reflexivity.
Qed.

Lemma Sheep_target_cells_safe w c x :
  x ∈ Sheep_target_cells w c -> x ∈ cells_without_wolves w c.
Proof.
  destruct (Sheep_target_cells_cases w c) as [[_ ->]|[_ ->]]; [|auto].
  intros Hx. now apply elem_of_cells_with_grass in Hx.
Qed.

Lemma Sheep_target_cells_nonempty w c :
  cells_without_wolves w c <> [] -> Sheep_target_cells w c <> [].
Proof.
  intros Hs. destruct (Sheep_target_cells_cases w c) as [[Hg ->]|[_ ->]]; assumption.
Qed.

Lemma Wolf_target_cells_neighbor w c x :
  x ∈ Wolf_target_cells w c -> x ∈ neighborhood w c.
Proof.
  destruct (Wolf_target_cells_cases w c) as [[_ ->]|[_ ->]]; [|auto].
  intros Hx. now apply elem_of_cells_with_sheep in Hx.
Qed.

Lemma Wolf_target_cells_nonempty w c :
  neighborhood w c <> [] -> Wolf_target_cells w c <> [].
Proof.
  intros Hs. destruct (Wolf_target_cells_cases w c) as [[Hg ->]|[_ ->]]; assumption.
Qed.

Lemma Wolf_target_cells_empty w c :
  neighborhood w c = [] -> Wolf_target_cells w c = [].
Proof.
  intros Hs. unfold Wolf_target_cells, cells_with_sheep, select. now rewrite Hs.
Qed.

Lemma Sheep_move_stay self a c w (g : G) :
  agents w !! self = Some (AnAnimal a) ->
  cell a = Some c ->
  cells_without_wolves w c = [] ->
  Sheep_move self w g = Ok (tt, w, g).
Proof.
  intros Hself Hc Hs. unfold Sheep_move.
  erewrite bind_eq by (apply get_animal_Ok; eassumption).
  rewrite Hc. erewrite bind_eq by reflexivity.
  erewrite bind_eq by reflexivity.
  now rewrite Hs.
Qed.

Lemma Sheep_move_go self a c c' w (g : G) :
  agents w !! self = Some (AnAnimal a) ->
  cell a = Some c ->
  cells_without_wolves w c <> [] ->
  Sheep_target_cells w c !! fst (rs_randbelow (length (Sheep_target_cells w c)) g)
    = Some c' ->
  Sheep_move self w g
  = Ok (tt, relocate self (AnAnimal a) (Some c') w,
        snd (rs_randbelow (length (Sheep_target_cells w c)) g)).
Proof.
  intros Hself Hc Hs Hc'. unfold Sheep_move.
  erewrite bind_eq by (apply get_animal_Ok; eassumption).
  rewrite Hc. erewrite bind_eq by reflexivity.
  erewrite bind_eq by reflexivity.
  destruct (cells_without_wolves w c) as [|x l] eqn:E; [congruence|].
  change (length (x :: l) =? 0) with false. cbv iota.
  destruct (random_choice_spec (Sheep_target_cells w c) w g) as (y & _ & Hy & Ey).
  { apply Sheep_target_cells_nonempty. rewrite E. discriminate. }
  rewrite Hc' in Hy. injection Hy as <-.
  unfold select_random_cell. erewrite bind_eq by exact Ey.
  now apply set_cell_Ok.
Qed.

Lemma Wolf_move_go self a c c' w (g : G) :
  agents w !! self = Some (AnAnimal a) ->
  cell a = Some c ->
  Wolf_target_cells w c !! fst (rs_randbelow (length (Wolf_target_cells w c)) g)
    = Some c' ->
  Wolf_move self w g
  = Ok (tt, relocate self (AnAnimal a) (Some c') w,
        snd (rs_randbelow (length (Wolf_target_cells w c)) g)).
Proof.
  intros Hself Hc Hc'. unfold Wolf_move.
  erewrite bind_eq by (apply get_animal_Ok; eassumption).
  rewrite Hc. erewrite bind_eq by reflexivity.
  erewrite bind_eq by reflexivity.
  destruct (random_choice_spec (Wolf_target_cells w c) w g) as (y & _ & Hy & Ey).
  { intros E. rewrite E in Hc'. discriminate. }
  rewrite Hc' in Hy. injection Hy as <-.
  unfold select_random_cell. erewrite bind_eq by exact Ey.
  now apply set_cell_Ok.
Qed.

Lemma Wolf_move_nowhere self a c w (g : G) :
  agents w !! self = Some (AnAnimal a) ->
  cell a = Some c ->
  neighborhood w c = [] ->
  Wolf_move self w g = Err EmptySelectionError.
Proof.
  intros Hself Hc Hn. unfold Wolf_move.
  erewrite bind_eq by (apply get_animal_Ok; eassumption).
  rewrite Hc. erewrite bind_eq by reflexivity.
  erewrite bind_eq by reflexivity.
  rewrite Wolf_target_cells_empty by assumption. reflexivity.
Qed.

Lemma is_wolf_relocate self a c w x :
  is_wolf (relocate self (AnAnimal a) c w) x
  = if decide (x = self)
    then match species a with Wolf => true | Sheep => false end
    else is_wolf w x.
Proof.
  unfold is_wolf. rewrite agents_relocate. destruct (decide (x = self)) as [->|Hne].
  - rewrite lookup_insert_eq. reflexivity.
  - now rewrite lookup_insert_ne.
Qed.

Lemma elem_of_occupants_relocate self x c w c' j :
  j ∈ occupants (relocate self x c w) c' -> j = self \/ j ∈ occupants w c'.
Proof.
  rewrite occupants_relocate. cbv zeta.
  destruct (decide (c = Some c')), (decide (agent_cell x = Some c'));
    rewrite ?elem_of_app, ?list_elem_of_singleton;
    intuition eauto using elem_of_remove_first.
Qed.

Lemma self_in_new_cell self x c' w :
  self ∈ occupants (relocate self x (Some c') w) c'.
Proof.
  rewrite occupants_relocate. cbv zeta. rewrite decide_True by reflexivity.
  rewrite elem_of_app, list_elem_of_singleton. now right.
Qed.

(** C5: a sheep with no wolf-free neighbour cell stays where it is;
    otherwise it enters the cell that the shared generator's draw selects
    from the target cells, which are the wolf-free neighbours with fully
    grown grass if there are any and all wolf-free neighbours if not; the
    cell it enters holds no wolf. *)
Theorem Sheep_move_spec (self : AgentId) (a : Animal) (c : Cell) (w : Model) (g : G) :
  agents w !! self = Some (AnAnimal a) ->
  species a = Sheep ->
  cell a = Some c ->
  let targets := Sheep_target_cells w c in
  let i := fst (rs_randbelow (length targets) g) in
  (forall x, x ∈ cells_without_wolves w c <->
     x ∈ neighborhood w c /\ existsb (is_wolf w) (occupants w x) = false) /\
  (forall x, x ∈ cells_with_grass w c <->
     x ∈ cells_without_wolves w c /\
     existsb (is_grown_grass w) (occupants w x) = true) /\
  (cells_with_grass w c <> [] -> targets = cells_with_grass w c) /\
  (cells_with_grass w c = [] -> targets = cells_without_wolves w c) /\
  (NoDup (neighborhood w c) -> NoDup targets) /\
  (cells_without_wolves w c = [] -> Sheep_move self w g = Ok (tt, w, g)) /\
  (cells_without_wolves w c <> [] ->
     exists c' w',
       Sheep_move self w g = Ok (tt, w', snd (rs_randbelow (length targets) g)) /\
       i < length targets /\
       targets !! i = Some c' /\
       c' ∈ neighborhood w c /\
       existsb (is_wolf w) (occupants w c') = false /\
       existsb (is_wolf w') (occupants w' c') = false /\
       agents w' !! self = Some (AnAnimal (with_cell (Some c') a)) /\
       self ∈ occupants w' c' /\
       (forall j, j <> self -> agents w' !! j = agents w !! j)).
Proof.
  intros Hself Hsp Hc targets i.
  split; [apply elem_of_cells_without_wolves|].
  split; [apply elem_of_cells_with_grass|].
  split.
  { intros Hg. subst targets.
    destruct (Sheep_target_cells_cases w c) as [[_ E]|[E _]]; congruence. }
  split.
  { intros Hg. subst targets.
    destruct (Sheep_target_cells_cases w c) as [[E _]|[_ E]]; congruence. }
  split.
  { intros Hnd. subst targets.
    destruct (Sheep_target_cells_cases w c) as [[_ ->]|[_ ->]];
      unfold cells_with_grass, cells_without_wolves, select;
      repeat apply NoDup_filter_list; assumption. }
  split; [intros Hs; now apply Sheep_move_stay with (a := a) (c := c)|].
  intros Hs.
  assert (Hlt : i < length targets).
  { apply rs_randbelow_lt.
    pose proof (Sheep_target_cells_nonempty w c Hs) as Hne.
    subst targets. destruct (Sheep_target_cells w c); [congruence|simpl; lia]. }
  destruct (lookup_lt_is_Some_2 targets i Hlt) as [c' Hc'].
  assert (Hsafe : c' ∈ cells_without_wolves w c).
  { apply Sheep_target_cells_safe. eapply list_elem_of_lookup_2. exact Hc'. }
  apply elem_of_cells_without_wolves in Hsafe as [Hnb Hnowolf].
  exists c', (relocate self (AnAnimal a) (Some c') w).
  split; [now apply Sheep_move_go with (c := c)|].
  split; [exact Hlt|]. split; [exact Hc'|]. split; [exact Hnb|].
  split; [exact Hnowolf|].
  split.
  { apply existsb_false_elem. intros j Hj. rewrite is_wolf_relocate.
    destruct (decide (j = self)) as [->|Hne]; [now rewrite Hsp|].
    apply elem_of_occupants_relocate in Hj as [->|Hj]; [congruence|].
    eapply existsb_false_elem in Hnowolf; eauto. }
  split; [rewrite agents_relocate; apply lookup_insert_eq|].
  split; [apply self_in_new_cell|].
  intros j Hj. rewrite agents_relocate. now rewrite lookup_insert_ne.
Qed.

(** C7: a wolf enters the cell that the shared generator's draw selects
    from its target cells, which are the neighbour cells holding a sheep if
    there are any and all neighbour cells if not; nothing else excludes a
    neighbour, in particular not the wolves in it.  Without any neighbour
    the selection fails. *)
Theorem Wolf_move_spec (self : AgentId) (a : Animal) (c : Cell) (w : Model) (g : G) :
  agents w !! self = Some (AnAnimal a) ->
  cell a = Some c ->
  let targets := Wolf_target_cells w c in
  let i := fst (rs_randbelow (length targets) g) in
  (forall x, x ∈ cells_with_sheep w c <->
     x ∈ neighborhood w c /\ existsb (is_sheep w) (occupants w x) = true) /\
  (cells_with_sheep w c <> [] -> targets = cells_with_sheep w c) /\
  (cells_with_sheep w c = [] -> targets = neighborhood w c) /\
  (forall x, x ∈ targets <->
     x ∈ neighborhood w c /\
     (cells_with_sheep w c = [] \/ existsb (is_sheep w) (occupants w x) = true)) /\
  (NoDup (neighborhood w c) -> NoDup targets) /\
  (neighborhood w c <> [] ->
     exists c' w',
       Wolf_move self w g = Ok (tt, w', snd (rs_randbelow (length targets) g)) /\
       i < length targets /\
       targets !! i = Some c' /\
       c' ∈ neighborhood w c /\
       agents w' !! self = Some (AnAnimal (with_cell (Some c') a)) /\
       self ∈ occupants w' c' /\
       (forall j, j <> self -> agents w' !! j = agents w !! j)) /\
  (neighborhood w c = [] -> Wolf_move self w g = Err EmptySelectionError).
Proof.
  intros Hself Hc targets i.
  split; [apply elem_of_cells_with_sheep|].
  split.
  { intros Hg. subst targets.
    destruct (Wolf_target_cells_cases w c) as [[_ E]|[E _]]; congruence. }
  split.
  { intros Hg. subst targets.
    destruct (Wolf_target_cells_cases w c) as [[E _]|[_ E]]; congruence. }
  split.
  { intros x. subst targets.
    destruct (Wolf_target_cells_cases w c) as [[Hne ->]|[He ->]].
    - rewrite elem_of_cells_with_sheep. intuition congruence.
    - intuition auto. }
  split.
  { intros Hnd. subst targets.
    destruct (Wolf_target_cells_cases w c) as [[_ ->]|[_ ->]]; [|assumption].
    unfold cells_with_sheep, select. now apply NoDup_filter_list. }
  split; [|intros Hn; now apply Wolf_move_nowhere with (a := a) (c := c)].
  intros Hn.
  assert (Hlt : i < length targets).
  { apply rs_randbelow_lt.
    pose proof (Wolf_target_cells_nonempty w c Hn) as Hne.
    subst targets. destruct (Wolf_target_cells w c); [congruence|simpl; lia]. }
  destruct (lookup_lt_is_Some_2 targets i Hlt) as [c' Hc'].
  exists c', (relocate self (AnAnimal a) (Some c') w).
  split; [now apply Wolf_move_go with (c := c)|].
  split; [exact Hlt|]. split; [exact Hc'|].
  split.
  { apply Wolf_target_cells_neighbor. eapply list_elem_of_lookup_2. exact Hc'. }
  split; [rewrite agents_relocate; apply lookup_insert_eq|].
  split; [apply self_in_new_cell|].
  intros j Hj. rewrite agents_relocate. now rewrite lookup_insert_ne.
Qed.

(** ** [Wolf.feed] *)

Lemma elem_of_remove_first_ne i l x : x <> i -> x ∈ l -> x ∈ remove_first i l.
Proof.
  intros Hne. induction l as [|j l IH]; simpl; [auto|].
  intros Hx. apply elem_of_cons in Hx as [->|Hx].
  - destruct (Nat.eqb_spec i j) as [->|_]; [congruence|left].
  - destruct (Nat.eqb_spec i j) as [->|_]; [assumption|right; auto].
Qed.

Lemma is_sheep_animal w s :
  is_sheep w s = true ->
  exists sa, agents w !! s = Some (AnAnimal sa) /\ species sa = Sheep.
Proof.
  unfold is_sheep. destruct (agents w !! s) as [[sa|?]|]; try discriminate.
  destruct (species sa) eqn:E; [|discriminate]. eauto.
Qed.

Lemma elem_of_sheep_at w c x :
  x ∈ sheep_at w c <-> x ∈ occupants w c /\ is_sheep w x = true.
Proof. unfold sheep_at. apply elem_of_filter_list. Qed.

Lemma Wolf_feed_nothing self a c w (g : G) :
  agents w !! self = Some (AnAnimal a) ->
  cell a = Some c ->
  sheep_at w c = [] ->
  Wolf_feed self w g = Ok (tt, w, g).
Proof.
  intros Hself Hc Hs. unfold Wolf_feed.
  erewrite bind_eq by (apply get_animal_Ok; eassumption).
  rewrite Hc. erewrite bind_eq by reflexivity.
  erewrite bind_eq by reflexivity.
  now rewrite Hs.
Qed.

Lemma Wolf_feed_eats self a c s sa w (g : G) :
  agents w !! self = Some (AnAnimal a) ->
  cell a = Some c ->
  sheep_at w c !! fst (rs_randbelow (length (sheep_at w c)) g) = Some s ->
  agents w !! s = Some (AnAnimal sa) ->
  self <> s ->
  Wolf_feed self w g
  = Ok (tt, devoured self a s sa w, snd (rs_randbelow (length (sheep_at w c)) g)).
Proof.
  intros Hself Hc Hs Hsa Hne. unfold Wolf_feed.
  erewrite bind_eq by (apply get_animal_Ok; eassumption).
  rewrite Hc. erewrite bind_eq by reflexivity.
  erewrite bind_eq by reflexivity.
  destruct (random_choice_spec (sheep_at w c) w g) as (y & _ & Hy & Ey).
  { intros E. rewrite E in Hs. discriminate. }
  rewrite Hs in Hy. injection Hy as <-.
  destruct (sheep_at w c) as [|x l] eqn:E; [discriminate|].
  erewrite bind_eq by exact Ey.
  erewrite bind_eq by (apply set_energy_Ok; eassumption).
  erewrite Agent_remove_Ok; [reflexivity|].
  simpl. now rewrite lookup_insert_ne.
Qed.

(** Every successful call of [Wolf.feed] is one of the two cases. *)
Lemma Wolf_feed_inv self w (g : G) u w' g' :
  Wolf_feed self w g = Ok (u, w', g') ->
  exists a c,
    agents w !! self = Some (AnAnimal a) /\ cell a = Some c /\
    ((sheep_at w c = [] /\ w' = w /\ g' = g) \/
     (exists s sa,
        s ∈ sheep_at w c /\ agents w !! s = Some (AnAnimal sa) /\
        species sa = Sheep /\
        (self <> s -> w' = devoured self a s sa w))).
Proof.
  intros E.
  destruct (agents w !! self) as [[a|?]|] eqn:Hself;
    try (unfold Wolf_feed in E; erewrite bind_err in E; [discriminate|];
         unfold get_animal; now rewrite Hself).
  destruct (cell a) as [c|] eqn:Hc.
  2:{ unfold Wolf_feed in E.
      erewrite bind_eq in E by (apply get_animal_Ok; eassumption).
      rewrite Hc in E. discriminate. }
  exists a, c. split; [reflexivity|]. split; [exact Hc|].
  destruct (sheep_at w c) as [|x l] eqn:Hs.
  - left. erewrite Wolf_feed_nothing in E by eassumption.
    injection E as _ <- <-. auto.
  - right.
    destruct (random_choice_spec (sheep_at w c) w g) as (s & _ & Hy & Ey).
    { rewrite Hs. discriminate. }
    assert (Hin : s ∈ sheep_at w c) by (eapply list_elem_of_lookup_2; eauto).
    pose proof Hin as Hin'. apply elem_of_sheep_at in Hin' as [_ Hsheep].
    destruct (is_sheep_animal _ _ Hsheep) as (sa & Hsa & Hsp).
    exists s, sa. rewrite <- Hs. repeat (split; [assumption|]).
    intros Hne. erewrite Wolf_feed_eats in E by eassumption.
    congruence.
Qed.

Lemma occupants_devoured self a s sa w c' :
  occupants (devoured self a s sa w) c'
  = if decide (cell sa = Some c') then remove_first s (occupants w c')
    else occupants w c'.
Proof.
  unfold devoured. rewrite occupants_set_agents, occupants_relocate. cbv zeta.
  simpl agent_cell. rewrite occupants_set_agents.
  rewrite (decide_False (P := None = Some c')) by discriminate. reflexivity.
Qed.

Lemma agents_devoured self a s sa w :
  agents (devoured self a s sa w)
  = delete s
      (<[self := AnAnimal (with_energy (energy a + energy_from_food a) a)]> (agents w)).
Proof.
  unfold devoured. change (agents (set_agents ?f ?m)) with (f (agents m)).
  rewrite agents_relocate. change (agents (set_agents ?f ?m)) with (f (agents m)).
  now rewrite delete_insert_eq.
Qed.

Lemma next_id_devoured self a s sa w : next_id (devoured self a s sa w) = next_id w.
Proof. unfold devoured. change (next_id (set_agents ?f ?m)) with (next_id m). now rewrite next_id_relocate. Qed.

Lemma event_list_devoured self a s sa w :
  event_list (devoured self a s sa w) = event_list w.
Proof. unfold devoured. change (event_list (set_agents ?f ?m)) with (event_list m). now rewrite event_list_relocate. Qed.

Lemma time_devoured self a s sa w : time (devoured self a s sa w) = time w.
Proof. unfold devoured. change (time (set_agents ?f ?m)) with (time m). now rewrite time_relocate. Qed.

(** ** [Animal.step] *)

(** Every successful move leaves the model as it was or relocates [self]. *)
Lemma move_inv sp self a w (g : G) u w' g' :
  agents w !! self = Some (AnAnimal a) ->
  move sp self w g = Ok (u, w', g') ->
  exists c, cell a = Some c /\
    ((w' = w /\ g' = g) \/
     (exists c', c' ∈ neighborhood w c /\ w' = relocate self (AnAnimal a) (Some c') w)).
Proof.
  intros Hself E.
  destruct (cell a) as [c|] eqn:Hc.
  2:{ destruct sp; simpl in E; unfold Sheep_move, Wolf_move in E;
      erewrite bind_eq in E by (apply get_animal_Ok; eassumption);
      rewrite Hc in E; discriminate. }
  exists c. split; [reflexivity|].
  destruct sp; simpl in E.
  - destruct (cells_without_wolves w c) as [|x l] eqn:Hs.
    + erewrite Sheep_move_stay in E by eassumption. left.
      injection E as _ <- <-. auto.
    + assert (Hne : cells_without_wolves w c <> []) by (rewrite Hs; discriminate).
      pose proof (Sheep_target_cells_nonempty w c Hne) as Ht.
      destruct (random_choice_spec (Sheep_target_cells w c) w g Ht) as (c' & _ & Hc' & _).
      erewrite Sheep_move_go in E by eassumption.
      right. exists c'. split; [|congruence].
      apply elem_of_cells_without_wolves with (w := w) (c := c).
      apply Sheep_target_cells_safe. eapply list_elem_of_lookup_2; eauto.
  - destruct (neighborhood w c) as [|x l] eqn:Hn.
    + erewrite Wolf_move_nowhere in E by eassumption. discriminate.
    + assert (Hne : neighborhood w c <> []) by (rewrite Hn; discriminate).
      pose proof (Wolf_target_cells_nonempty w c Hne) as Ht.
      destruct (random_choice_spec (Wolf_target_cells w c) w g Ht) as (c' & _ & Hc' & _).
      erewrite Wolf_move_go in E by eassumption.
      right. exists c'. split; [|congruence].
      rewrite <- Hn. apply Wolf_target_cells_neighbor. eapply list_elem_of_lookup_2; eauto.
Qed.

Lemma metabolize_Ok self a w (g : G) :
  agents w !! self = Some (AnAnimal a) ->
  metabolize self w g
  = Ok (tt, set_agents (insert self (AnAnimal (with_energy (energy a - 1) a))) w, g).
Proof. intros E. unfold metabolize. now rewrite E. Qed.

(** Every successful feed leaves [self] an animal; only its energy may differ. *)
Lemma feed_inv self a w (g : G) u w' g' :
  agents w !! self = Some (AnAnimal a) ->
  feed (species a) self w g = Ok (u, w', g') ->
  next_id w' = next_id w /\
  (forall i, is_Some (agents w' !! i) -> is_Some (agents w !! i)) /\
  (agents w' !! self = Some (AnAnimal a) \/
   agents w' !! self
     = Some (AnAnimal (with_energy (energy a + energy_from_food a) a))).
Proof.
  intros Hself E. destruct (species a) eqn:Hsp; simpl in E.
  - apply Sheep_feed_inv in E as (a' & c & q & gq & Ha' & Hc & Hfind & Hq & -> & Hcase).
    rewrite Hself in Ha'. injection Ha' as <-.
    destruct Hcase as [[_ ->]|(_ & _ & ->)]; [auto|].
    assert (Hne : self <> q) by (intros ->; congruence).
    unfold eaten. simpl. split; [reflexivity|]. split.
    + intros i. destruct (decide (i = q)) as [->|Hiq]; [rewrite Hq; eauto|].
      rewrite lookup_insert_ne by congruence.
      destruct (decide (i = self)) as [->|His]; [rewrite Hself; eauto|].
      now rewrite lookup_insert_ne by congruence.
    + right. rewrite lookup_insert_ne by congruence. apply lookup_insert_eq.
  - apply Wolf_feed_inv in E as (a' & c & Ha' & Hc & Hcase).
    rewrite Hself in Ha'. injection Ha' as <-.
    destruct Hcase as [(_ & -> & _)|(s & sa & Hin & Hsa & Hspa & Hw')]; [auto|].
    assert (Hne : self <> s) by (intros ->; congruence).
    rewrite (Hw' Hne). split; [apply next_id_devoured|].
    rewrite agents_devoured. split.
    + intros i. destruct (decide (i = s)) as [->|His]; [rewrite Hsa; eauto|].
      rewrite lookup_delete_ne by congruence.
      destruct (decide (i = self)) as [->|Hi]; [rewrite Hself; eauto|].
      now rewrite lookup_insert_ne by congruence.
    + right. rewrite lookup_delete_ne by congruence. apply lookup_insert_eq.
Qed.

Lemma resolve_dies self a w (g : G) :
  agents w !! self = Some (AnAnimal a) ->
  (energy a < 0)%Q ->
  resolve self w g
  = Ok (tt, set_agents (delete self) (relocate self (AnAnimal a) None w), g).
Proof.
  intros Hself He. unfold resolve.
  erewrite bind_eq by (apply get_animal_Ok; eassumption).
  apply Qltb_true in He. rewrite He.
  now apply Agent_remove_Ok.
Qed.

Lemma resolve_survives self a w (g : G) :
  agents w !! self = Some (AnAnimal a) ->
  ~ (energy a < 0)%Q ->
  resolve self w g
  = if Qltb (fst (rs_random g)) (p_reproduce a)
    then spawn_offspring self w (snd (rs_random g))
    else Ok (tt, w, snd (rs_random g)).
Proof.
  intros Hself He. unfold resolve.
  erewrite bind_eq by (apply get_animal_Ok; eassumption).
  destruct (Qltb (energy a) 0) eqn:Eb; [apply Qltb_true in Eb; contradiction|].
  erewrite bind_eq by apply random_random_Ok.
  destruct (Qltb (fst (rs_random g)) (p_reproduce a)); reflexivity.
Qed.

Lemma step_resolve self a0 w (g : G) w1 g1 w2 g2 w3 g3 :
  agents w !! self = Some (AnAnimal a0) ->
  move (species a0) self w g = Ok (tt, w1, g1) ->
  metabolize self w1 g1 = Ok (tt, w2, g2) ->
  feed (species a0) self w2 g2 = Ok (tt, w3, g3) ->
  step self w g = resolve self w3 g3.
Proof.
  intros Hself Hmove Hmet Hfeed. rewrite step_phases.
  erewrite bind_eq by (apply get_animal_Ok; eassumption).
  erewrite bind_eq by eassumption.
  erewrite bind_eq by eassumption.
  erewrite bind_eq by eassumption.
  reflexivity.
Qed.

Lemma spawn_offspring_Ok self a w (g : G) :
  agents w !! self = Some (AnAnimal a) ->
  spawn_offspring self w g = Ok (tt, spawned self a w, g).
Proof.
  intros Hself. unfold spawn_offspring.
  erewrite bind_eq by (apply get_animal_Ok; eassumption).
  erewrite bind_eq by (apply set_energy_Ok; eassumption).
  erewrite bind_eq by (apply get_animal_Ok; simpl; apply lookup_insert_eq).
  erewrite bind_eq by apply Animal_init_Ok.
  reflexivity.
Qed.

Lemma agents_spawned self a w :
  agents (spawned self a w)
  = <[next_id w := AnAnimal (mkAnimal (species a) (energy a / 2) (p_reproduce a)
                               (energy_from_food a) (cell a))]>
      (<[self := AnAnimal (with_energy (energy a / 2) a)]> (agents w)).
Proof.
  unfold spawned. cbv zeta. rewrite agents_relocate.
  change (agents (set_next_id ?n ?m)) with (agents m).
  change (agents (set_agents ?f ?m)) with (f (agents m)).
  change (agents (set_agents ?f ?m)) with (f (agents m)).
  now rewrite insert_insert_eq.
Qed.

Lemma next_id_spawned self a w : next_id (spawned self a w) = S (next_id w).
Proof. unfold spawned. cbv zeta. now rewrite next_id_relocate. Qed.

Lemma event_list_spawned self a w : event_list (spawned self a w) = event_list w.
Proof. unfold spawned. cbv zeta. now rewrite event_list_relocate. Qed.

Lemma time_spawned self a w : time (spawned self a w) = time w.
Proof. unfold spawned. cbv zeta. now rewrite time_relocate. Qed.

Lemma fresh_ids_mono w w' :
  next_id w' = next_id w ->
  (forall i, is_Some (agents w' !! i) -> is_Some (agents w !! i)) ->
  fresh_ids w -> fresh_ids w'.
Proof. intros Hn Hsub Hf i Hi. rewrite Hn. apply Hf, Hsub, Hi. Qed.

Lemma is_Some_insert_existing (m : gmap nat Agent) i j x :
  is_Some (m !! j) -> is_Some (<[j := x]> m !! i) -> is_Some (m !! i).
Proof.
  intros Hj. destruct (decide (i = j)) as [->|Hne]; [auto|].
  now rewrite lookup_insert_ne by congruence.
Qed.

(** What a successful move does to [self]: only its cell may change. *)
Lemma move_self sp self a w (g : G) u w' g' :
  agents w !! self = Some (AnAnimal a) ->
  move sp self w g = Ok (u, w', g') ->
  next_id w' = next_id w /\
  (forall i, is_Some (agents w' !! i) -> is_Some (agents w !! i)) /\
  exists a', agents w' !! self = Some (AnAnimal a') /\
    species a' = species a /\ energy a' = energy a /\
    p_reproduce a' = p_reproduce a /\ energy_from_food a' = energy_from_food a.
Proof.
  intros Hself E.
  destruct (move_inv _ _ _ _ _ _ _ _ Hself E) as (c & Hc & [[-> _]|(c' & _ & ->)]).
  - split; [reflexivity|]. split; [auto|]. exists a. auto.
  - split; [apply next_id_relocate|]. rewrite agents_relocate. split.
    + intros i. apply is_Some_insert_existing. rewrite Hself. eauto.
    + exists (with_cell (Some c') a). rewrite lookup_insert_eq. auto.
Qed.


(** ** The patches under the operations of the animals *)

Lemma grass_of_animal (m : gmap nat Agent) i a :
  m !! i = Some (AnAnimal a) -> grass_of m i = None.
Proof. intros E. unfold grass_of. now rewrite E. Qed.

Lemma grass_of_insert_animal (m : gmap nat Agent) i x p :
  grass_of m i = None -> grass_of (<[i := AnAnimal x]> m) p = grass_of m p.
Proof.
  intros Hi. unfold grass_of. destruct (decide (p = i)) as [->|Hne].
  - rewrite lookup_insert_eq. unfold grass_of in Hi. now rewrite Hi.
  - now rewrite lookup_insert_ne by congruence.
Qed.

Lemma grass_of_delete (m : gmap nat Agent) i p :
  grass_of m i = None -> grass_of (delete i m) p = grass_of m p.
Proof.
  intros Hi. unfold grass_of. destruct (decide (p = i)) as [->|Hne].
  - rewrite lookup_delete_eq. unfold grass_of in Hi. now rewrite Hi.
  - now rewrite lookup_delete_ne by congruence.
Qed.

Lemma grass_of_insert_patch (m : gmap nat Agent) q gp p :
  grass_of (<[q := AGrassPatch gp]> m) p
  = if decide (p = q) then Some (fully_grown gp, grass_regrowth_time gp)
    else grass_of m p.
Proof.
  unfold grass_of. destruct (decide (p = q)) as [->|Hne].
  - now rewrite lookup_insert_eq.
  - now rewrite lookup_insert_ne by congruence.
Qed.

Lemma grass_of_patch (m : gmap nat Agent) p gp :
  m !! p = Some (AGrassPatch gp) ->
  grass_of m p = Some (fully_grown gp, grass_regrowth_time gp).
Proof. intros E. unfold grass_of. now rewrite E. Qed.

Lemma grass_of_Some (m : gmap nat Agent) p b r :
  grass_of m p = Some (b, r) ->
  exists gp, m !! p = Some (AGrassPatch gp) /\ fully_grown gp = b /\
             grass_regrowth_time gp = r.
Proof.
  unfold grass_of. destruct (m !! p) as [[a|gp]|]; try discriminate.
  intros E. injection E as <- <-. eauto.
Qed.

Lemma is_grass_grass_state w p :
  is_grass w p = true <-> is_Some (grass_state w p).
Proof.
  unfold is_grass, grass_state, grass_of.
  destruct (agents w !! p) as [[a|gp]|]; split; intros E;
    try discriminate; try reflexivity; try (now inversion E); eauto.
Qed.

Lemma is_grown_grass_grass_state w p b :
  is_grown_grass w p = b <->
  match grass_state w p with Some (b', _) => b' = b | None => false = b end.
Proof.
  unfold is_grown_grass, grass_state, grass_of.
  destruct (agents w !! p) as [[a|gp]|]; reflexivity.
Qed.

Lemma grass_frame_refl w : grass_frame w w.
Proof. repeat split; auto. Qed.

Lemma grass_frame_trans w1 w2 w3 :
  grass_frame w1 w2 -> grass_frame w2 w3 -> grass_frame w1 w3.
Proof.
  intros (Hg1 & He1 & Ht1 & Hn1) (Hg2 & He2 & Ht2 & Hn2). repeat split.
  - intros p. now rewrite Hg2.
  - congruence.
  - congruence.
  - lia.
Qed.

Lemma grass_frame_eaten q r w1 w2 w3 :
  grass_frame w1 w2 -> grass_eaten q r w2 w3 -> grass_eaten q r w1 w3.
Proof.
  intros (Hg1 & He1 & Ht1 & Hn1) (Hq & Hr & Hg2 & He2 & Ht2 & Hn2). repeat split.
  - now rewrite <- Hg1.
  - exact Hr.
  - intros p. rewrite Hg2. now rewrite Hg1.
  - now rewrite He2, He1, Ht1.
  - congruence.
  - lia.
Qed.

Lemma grass_eaten_frame q r w1 w2 w3 :
  grass_eaten q r w1 w2 -> grass_frame w2 w3 -> grass_eaten q r w1 w3.
Proof.
  intros (Hq & Hr & Hg1 & He1 & Ht1 & Hn1) (Hg2 & He2 & Ht2 & Hn2). repeat split.
  - exact Hq.
  - exact Hr.
  - intros p. now rewrite Hg2.
  - congruence.
  - congruence.
  - lia.
Qed.

Lemma grass_frame_relocate self a a' c w :
  agents w !! self = Some (AnAnimal a') ->
  grass_frame w (relocate self (AnAnimal a) c w).
Proof.
  intros Hself. repeat split.
  - intros p. unfold grass_state. rewrite agents_relocate. simpl.
    apply grass_of_insert_animal. eapply grass_of_animal; eauto.
  - apply event_list_relocate.
  - apply time_relocate.
  - now rewrite next_id_relocate.
Qed.

Lemma grass_frame_set_animal self a a' w :
  agents w !! self = Some (AnAnimal a') ->
  grass_frame w (set_agents (insert self (AnAnimal a)) w).
Proof.
  intros Hself. repeat split; auto.
  intros p. unfold grass_state. simpl.
  apply grass_of_insert_animal. eapply grass_of_animal; eauto.
Qed.

Lemma grass_frame_removed self a w :
  agents w !! self = Some (AnAnimal a) ->
  grass_frame w (set_agents (delete self) (relocate self (AnAnimal a) None w)).
Proof.
  intros Hself. repeat split.
  - intros p. unfold grass_state.
    change (agents (set_agents ?f ?m)) with (f (agents m)).
    rewrite agents_relocate, delete_insert_eq.
    apply grass_of_delete. eapply grass_of_animal; eauto.
  - apply event_list_relocate.
  - apply time_relocate.
  - change (next_id (set_agents ?f ?m)) with (next_id m). now rewrite next_id_relocate.
Qed.

Lemma grass_frame_devoured self a s sa w :
  agents w !! self = Some (AnAnimal a) ->
  agents w !! s = Some (AnAnimal sa) ->
  grass_frame w (devoured self a s sa w).
Proof.
  intros Hself Hs. repeat split.
  - intros p. unfold grass_state. rewrite agents_devoured.
    rewrite grass_of_delete.
    + apply grass_of_insert_animal. eapply grass_of_animal; eauto.
    + rewrite grass_of_insert_animal by (eapply grass_of_animal; eauto).
      eapply grass_of_animal; eauto.
  - apply event_list_devoured.
  - apply time_devoured.
  - now rewrite next_id_devoured.
Qed.

Lemma grass_frame_spawned self a w :
  agents w !! self = Some (AnAnimal a) ->
  grass_state w (next_id w) = None ->
  grass_frame w (spawned self a w).
Proof.
  intros Hself Hfresh. repeat split.
  - intros p. unfold grass_state. rewrite agents_spawned.
    rewrite grass_of_insert_animal.
    + apply grass_of_insert_animal. eapply grass_of_animal; eauto.
    + rewrite grass_of_insert_animal by (eapply grass_of_animal; eauto). exact Hfresh.
  - apply event_list_spawned.
  - apply time_spawned.
  - rewrite next_id_spawned. lia.
Qed.

Lemma grass_eaten_eaten self a q gq w :
  agents w !! self = Some (AnAnimal a) ->
  agents w !! q = Some (AGrassPatch gq) ->
  fully_grown gq = true ->
  (0 <= grass_regrowth_time gq)%Z ->
  grass_eaten q (grass_regrowth_time gq) w (eaten self a q gq w).
Proof.
  intros Hself Hq Hgrown Hr. repeat split; auto.
  - unfold grass_state. erewrite grass_of_patch by eassumption. now rewrite Hgrown.
  - intros p. unfold grass_state, eaten. simpl.
    rewrite grass_of_insert_patch. destruct (decide (p = q)); [reflexivity|].
    apply grass_of_insert_animal. eapply grass_of_animal; eauto.
Qed.

(** ** Inversion of the step *)

Lemma metabolize_inv self w (g : G) u w' g' :
  metabolize self w g = Ok (u, w', g') ->
  exists a, agents w !! self = Some (AnAnimal a) /\ g' = g /\
    w' = set_agents (insert self (AnAnimal (with_energy (energy a - 1) a))) w.
Proof.
  unfold metabolize. destruct (agents w !! self) as [[a|?]|]; try discriminate.
  intros E. injection E as _ <- <-. eauto.
Qed.

Lemma resolve_inv self w (g : G) u w' g' :
  resolve self w g = Ok (u, w', g') ->
  exists a, agents w !! self = Some (AnAnimal a) /\
    (w' = set_agents (delete self) (relocate self (AnAnimal a) None w) \/
     w' = w \/ w' = spawned self a w).
Proof.
  intros E.
  destruct (agents w !! self) as [[a|?]|] eqn:Hself;
    try (unfold resolve in E; erewrite bind_err in E; [discriminate|];
         unfold get_animal; now rewrite Hself).
  exists a. split; [reflexivity|].
  destruct (Qlt_le_dec (energy a) 0) as [Hneg|Hpos].
  - rewrite (resolve_dies self a) in E by assumption. left. congruence.
  - rewrite (resolve_survives self a) in E by (auto; now apply Qle_not_lt).
    destruct (Qltb (fst (rs_random g)) (p_reproduce a)).
    + rewrite (spawn_offspring_Ok self a) in E by assumption. right. right. congruence.
    + right. left. congruence.
Qed.

(** What a step does to the patches: nothing, or one fully grown patch is
    eaten. *)
Lemma step_grass self w (g : G) u w' g' :
  (forall p, next_id w <= p -> grass_state w p = None) ->
  step self w g = Ok (u, w', g') ->
  grass_frame w w' \/ exists q r, grass_eaten q r w w'.
Proof.
  intros Hfresh E. rewrite step_phases in E.
  apply bind_inv in E as (a0 & w0 & g0 & E0 & E).
  apply get_animal_inv in E0 as (Hself & -> & ->).
  apply bind_inv in E as (u1 & w1 & g1 & Hmove & E).
  apply bind_inv in E as (u2 & w2 & g2 & Hmet & E).
  apply bind_inv in E as (u3 & w3 & g3 & Hfeed & E).
  (* the move *)
  assert (F1 : grass_frame w w1 /\ exists a1, agents w1 !! self = Some (AnAnimal a1) /\
                                              species a1 = species a0).
  { destruct (move_inv _ _ _ _ _ _ _ _ Hself Hmove) as (c & Hc & [[-> _]|(c' & _ & ->)]).
    - split; [apply grass_frame_refl|eauto].
    - split; [eapply grass_frame_relocate; eauto|].
      exists (with_cell (Some c') a0). rewrite agents_relocate, lookup_insert_eq. auto. }
  destruct F1 as (F1 & a1 & Ha1 & Hsp1).
  (* the cost *)
  apply metabolize_inv in Hmet as (a1' & Ha1' & -> & ->).
  rewrite Ha1 in Ha1'. injection Ha1' as <-.
  set (a2 := with_energy (energy a1 - 1) a1) in *.
  set (w2 := set_agents (insert self (AnAnimal a2)) w1) in *.
  assert (F2 : grass_frame w1 w2) by (eapply grass_frame_set_animal; eauto).
  assert (Ha2 : agents w2 !! self = Some (AnAnimal a2)) by apply lookup_insert_eq.
  (* the feed *)
  assert (F3 : (grass_frame w2 w3 \/ exists q r, grass_eaten q r w2 w3) /\
               exists a3, agents w3 !! self = Some (AnAnimal a3)).
  { destruct (species a0) eqn:Hsp; simpl in Hfeed.
    - apply Sheep_feed_inv in Hfeed
        as (a' & c & q & gq & Ha' & Hc & Hfind & Hq & -> & Hcase).
      rewrite Ha2 in Ha'. injection Ha' as <-.
      destruct Hcase as [[_ ->]|(Hgrown & Hr & ->)].
      + split; [left; apply grass_frame_refl|eauto].
      + split.
        * right. exists q, (grass_regrowth_time gq). now apply grass_eaten_eaten.
        * assert (Hne : self <> q) by (intros ->; congruence).
          eexists. unfold eaten. simpl.
          rewrite lookup_insert_ne by congruence. apply lookup_insert_eq.
    - apply Wolf_feed_inv in Hfeed as (a' & c & Ha' & Hc & Hcase).
      rewrite Ha2 in Ha'. injection Ha' as <-.
      destruct Hcase as [(_ & -> & _)|(s & sa & Hin & Hsa & Hspa & Hw')].
      + split; [left; apply grass_frame_refl|eauto].
      + assert (Hne : self <> s).
        { intros ->. rewrite Ha2 in Hsa. injection Hsa as <-.
          subst a2. simpl in Hspa. congruence. }
        rewrite (Hw' Hne). split.
        * left. now apply grass_frame_devoured.
        * eexists. rewrite agents_devoured.
          rewrite lookup_delete_ne by congruence. apply lookup_insert_eq. }
  destruct F3 as (F3 & a3 & Ha3).
  (* death or reproduction *)
  assert (F4 : grass_frame w3 w').
  { apply resolve_inv in E as (a3' & Ha3' & Hcase).
    rewrite Ha3 in Ha3'. injection Ha3' as <-.
    destruct Hcase as [->|[->| ->]].
    - now apply grass_frame_removed.
    - apply grass_frame_refl.
    - apply grass_frame_spawned; [assumption|].
      assert (Hn : next_id w <= next_id w3).
      { destruct F1 as (_ & _ & _ & Hn1). destruct F2 as (_ & _ & _ & Hn2).
        destruct F3 as [(_ & _ & _ & Hn3)|(q & r & _ & _ & _ & _ & _ & Hn3)]; lia. }
      assert (Hg : forall p, grass_state w3 p = None <-> grass_state w p = None).
      { intros p. destruct F1 as (Hg1 & _). destruct F2 as (Hg2 & _).
        destruct F3 as [(Hg3 & _)|(q & r & Hq & _ & Hg3 & _)].
        - now rewrite Hg3, Hg2, Hg1.
        - rewrite Hg3. destruct (decide (p = q)) as [->|_].
          + rewrite Hg2, Hg1 in Hq. rewrite Hq. split; discriminate.
          + now rewrite Hg2, Hg1. }
      apply Hg, Hfresh, Hn. }
  pose proof (grass_frame_trans _ _ _ F1 F2) as F12.
  destruct F3 as [F3|(q & r & F3)].
  - left. eauto using grass_frame_trans.
  - right. exists q, r. eauto using grass_frame_eaten, grass_eaten_frame.
Qed.

(** ** Creating agents *)

Lemma grass_frame_Animal_init sp e p f c w (g : G) i w' g' :
  grass_state w (next_id w) = None ->
  Animal_init sp e p f c w g = Ok (i, w', g') ->
  grass_frame w w'.
Proof.
  intros Hfresh E. rewrite Animal_init_Ok in E. injection E as _ <- _.
  repeat split.
  - intros q. unfold grass_state. rewrite agents_relocate.
    change (agents (set_next_id ?n ?m)) with (agents m).
    change (agents (set_agents ?h ?m)) with (h (agents m)).
    rewrite insert_insert_eq. simpl. now apply grass_of_insert_animal.
  - now rewrite event_list_relocate.
  - now rewrite time_relocate.
  - rewrite next_id_relocate. simpl. lia.
Qed.

Lemma GrassPatch_init_Ok countdown regrowth c w (g : G) :
  (0 <= countdown)%Z ->
  GrassPatch_init countdown regrowth c w g
  = Ok (next_id w, planted countdown regrowth c w, g).
Proof.
  intros Hcd. unfold GrassPatch_init.
  erewrite bind_eq by reflexivity.
  erewrite bind_eq by (apply set_cell_Ok; simpl; apply lookup_insert_eq).
  erewrite bind_eq.
  2:{ apply get_grass_Ok. rewrite agents_relocate. apply lookup_insert_eq. }
  unfold planted. cbv zeta. simpl fully_grown.
  destruct (countdown =? 0)%Z eqn:E.
  - reflexivity.
  - change (negb false) with true. cbv iota.
    erewrite bind_eq; [reflexivity|].
    rewrite schedule_event_relative_Ok by assumption.
    now rewrite time_relocate.
Qed.

Lemma GrassPatch_init_inv countdown regrowth c w (g : G) i w' g' :
  GrassPatch_init countdown regrowth c w g = Ok (i, w', g') ->
  (0 <= countdown)%Z /\ i = next_id w /\ w' = planted countdown regrowth c w /\ g' = g.
Proof.
  intros E. destruct (Z.le_gt_cases 0 countdown) as [Hcd|Hcd].
  - rewrite GrassPatch_init_Ok in E by assumption. injection E as <- <- <-. auto.
  - exfalso. unfold GrassPatch_init in E.
    erewrite bind_eq in E by reflexivity.
    erewrite bind_eq in E by (apply set_cell_Ok; simpl; apply lookup_insert_eq).
    erewrite bind_eq in E.
    2:{ apply get_grass_Ok. rewrite agents_relocate. apply lookup_insert_eq. }
    simpl fully_grown in E.
    destruct (Z.eqb_spec countdown 0) as [->|Hne]; [lia|].
    change (negb false) with true in E. cbv iota in E.
    erewrite bind_err in E; [discriminate|].
    unfold schedule_event_relative.
    destruct (Z.ltb_spec countdown 0); [reflexivity|lia].
Qed.

Lemma agents_planted countdown regrowth c w :
  agents (planted countdown regrowth c w)
  = <[next_id w := AGrassPatch (mkGrassPatch (countdown =? 0)%Z regrowth c)]> (agents w).
Proof.
  unfold planted. cbv zeta.
  destruct (countdown =? 0)%Z;
    [|change (agents (set_event_list ?f ?m)) with (agents m)];
    rewrite agents_relocate;
    change (agents (set_next_id ?n ?m)) with (agents m);
    change (agents (set_agents ?h ?m)) with (h (agents m));
    now rewrite insert_insert_eq.
Qed.

Lemma event_list_planted countdown regrowth c w :
  event_list (planted countdown regrowth c w)
  = event_list w ++
    (if (countdown =? 0)%Z then [] else [mkEvent (time w + countdown) (next_id w)]).
Proof.
  unfold planted. cbv zeta. destruct (countdown =? 0)%Z.
  - rewrite event_list_relocate. simpl. now rewrite app_nil_r.
  - change (event_list (set_event_list ?f ?m)) with (f (event_list m)).
    now rewrite event_list_relocate.
Qed.

Lemma time_planted countdown regrowth c w :
  time (planted countdown regrowth c w) = time w.
Proof.
  unfold planted. cbv zeta. destruct (countdown =? 0)%Z;
    [|change (time (set_event_list ?f ?m)) with (time m)];
    now rewrite time_relocate.
Qed.

Lemma next_id_planted countdown regrowth c w :
  next_id (planted countdown regrowth c w) = S (next_id w).
Proof.
  unfold planted. cbv zeta. destruct (countdown =? 0)%Z;
    [|change (next_id (set_event_list ?f ?m)) with (next_id m)];
    now rewrite next_id_relocate.
Qed.

Lemma grass_state_planted countdown regrowth c w p :
  grass_state (planted countdown regrowth c w) p
  = if decide (p = next_id w) then Some ((countdown =? 0)%Z, regrowth)
    else grass_state w p.
Proof. unfold grass_state. rewrite agents_planted. apply grass_of_insert_patch. Qed.

(** ** The scheduler *)

Lemma existsb_insert_event f e l :
  existsb f (insert_event e l) = f e || existsb f l.
Proof.
  induction l as [|e' l IH]; simpl; [reflexivity|].
  destruct (ev_time e <=? ev_time e')%Z; simpl; [reflexivity|].
  rewrite IH. destruct (f e), (f e'); reflexivity.
Qed.

Lemma existsb_sort_events f l : existsb f (sort_events l) = existsb f l.
Proof.
  induction l as [|e l IH]; simpl; [reflexivity|].
  now rewrite existsb_insert_event, IH.
Qed.

Lemma existsb_filter_list {A} (f h : A -> bool) (l : list A) :
  existsb f (List.filter h l) = existsb (fun x => h x && f x) l.
Proof.
  induction l as [|x l IH]; simpl; [reflexivity|].
  destruct (h x); simpl; now rewrite IH.
Qed.

Lemma existsb_ext {A} (f h : A -> bool) (l : list A) :
  (forall x, f x = h x) -> existsb f l = existsb h l.
Proof. intros E. induction l as [|x l IH]; simpl; [reflexivity|]. now rewrite E, IH. Qed.

Lemma elem_of_insert_event e e' l : e' ∈ insert_event e l <-> e' = e \/ e' ∈ l.
Proof.
  induction l as [|x l IH]; simpl.
  - rewrite list_elem_of_singleton. rewrite elem_of_nil. tauto.
  - destruct (ev_time e <=? ev_time x)%Z.
    + now rewrite elem_of_cons.
    + rewrite !elem_of_cons, IH. tauto.
Qed.

Lemma elem_of_sort_events e l : e ∈ sort_events l <-> e ∈ l.
Proof.
  induction l as [|x l IH]; simpl; [reflexivity|].
  now rewrite elem_of_insert_event, elem_of_cons, IH.
Qed.

Lemma for_each_fire l : forall w (g : G),
  (forall e, e ∈ l -> is_Some (grass_state w (ev_target e))) ->
  exists w',
    for_each l fire w g = Ok (tt, w', g) /\
    event_list w' = event_list w /\ time w' = time w /\ next_id w' = next_id w /\
    forall p, grass_state w' p
      = match grass_state w p with
        | Some (b, r) => Some (b || existsb (fun e => Nat.eqb (ev_target e) p) l, r)
        | None => None
        end.
Proof.
  induction l as [|e l IH]; intros w g Hall.
  - exists w. simpl. repeat split; auto.
    intros p. destruct (grass_state w p) as [[b r]|]; [|reflexivity].
    now rewrite orb_false_r.
  - destruct (Hall e) as [[b0 r0] He]; [left|].
    apply grass_of_Some in He as (gp & Hgp & Hb0 & Hr0).
    set (w1 := set_agents (insert (ev_target e) (AGrassPatch (with_fully_grown true gp))) w).
    assert (Hg1 : forall p, grass_state w1 p
                  = if decide (p = ev_target e) then Some (true, r0) else grass_state w p).
    { intros p. unfold grass_state, w1. simpl. rewrite grass_of_insert_patch.
      simpl. now rewrite Hr0. }
    destruct (IH w1 g) as (w' & E & Hev & Ht & Hn & Hg).
    { intros e' He'. rewrite Hg1. destruct (decide _); [eauto|].
      apply Hall. now right. }
    exists w'. split.
    { simpl. erewrite bind_eq; [exact E|].
      unfold fire. now apply set_fully_grown_true_Ok. }
    split; [exact Hev|]. split; [exact Ht|]. split; [exact Hn|].
    intros p. rewrite Hg, Hg1. simpl.
    destruct (decide (p = ev_target e)) as [->|Hne].
    + unfold grass_state. erewrite grass_of_patch by eassumption.
      rewrite Hr0, Nat.eqb_refl. simpl. now rewrite orb_true_r.
    + destruct (grass_state w p) as [[b r]|]; [|reflexivity].
      destruct (Nat.eqb_spec (ev_target e) p); [congruence|reflexivity].
Qed.

Lemma advance_clock_Ok w (g : G) :
  (forall e, e ∈ event_list w -> is_Some (grass_state w (ev_target e))) ->
  exists w',
    advance_clock w g = Ok (tt, w', g) /\
    time w' = (time w + 1)%Z /\
    next_id w' = next_id w /\
    event_list w'
      = List.filter (fun e => negb (is_due (time w + 1) e)) (event_list w) /\
    forall p, grass_state w' p
      = match grass_state w p with
        | Some (b, r) =>
            Some (b || existsb (is_due (time w + 1)) (pending p (event_list w)), r)
        | None => None
        end.
Proof.
  intros Hall.
  set (w0 := set_event_list (List.filter (fun e => negb (is_due (time w + 1) e)))
               (set_time (time w + 1) w)).
  destruct (for_each_fire
              (sort_events (List.filter (is_due (time w + 1)) (event_list w))) w0 g)
    as (w' & E & Hev & Ht & Hn & Hg).
  { intros e He. apply elem_of_sort_events, elem_of_filter_list in He as [He _].
    now apply Hall. }
  exists w'. split.
  { unfold advance_clock. erewrite bind_eq by reflexivity.
    unfold fire_due. erewrite bind_eq by reflexivity.
    erewrite bind_eq by reflexivity. exact E. }
  split; [exact Ht|]. split; [exact Hn|]. split; [exact Hev|].
  intros p. rewrite Hg. change (grass_state w0 p) with (grass_state w p).
  destruct (grass_state w p) as [[b r]|]; [|reflexivity].
  rewrite existsb_sort_events. unfold pending. rewrite !existsb_filter_list.
  do 3 f_equal. apply existsb_ext. intros e. apply andb_comm.
Qed.

(** ** The invariant of the patches *)

Lemma pending_app p l1 l2 : pending p (l1 ++ l2) = pending p l1 ++ pending p l2.
Proof. unfold pending. apply List.filter_app. Qed.

Lemma pending_filter p f l : pending p (List.filter f l) = List.filter f (pending p l).
Proof.
  unfold pending. induction l as [|e l IH]; simpl; [reflexivity|].
  destruct (f e) eqn:Ef, (Nat.eqb (ev_target e) p) eqn:Et; simpl;
    rewrite ?Ef, ?Et, IH; reflexivity.
Qed.

Lemma pending_nil_fresh p l w :
  (forall e, e ∈ l -> is_Some (grass_state w (ev_target e))) ->
  grass_state w p = None ->
  pending p l = [].
Proof.
  intros Hall Hp. unfold pending. induction l as [|e l IH]; simpl; [reflexivity|].
  destruct (Nat.eqb_spec (ev_target e) p) as [Heq|Hne].
  - destruct (Hall e) as [x Hx]; [left|]. congruence.
  - apply IH. intros e' He'. apply Hall. now right.
Qed.

Lemma grass_inv_initial nb t0 : grass_inv (initial_model nb t0).
Proof.
  repeat split.
  - intros e He. simpl in He. now apply elem_of_nil in He.
  - intros p b r E. discriminate.
Qed.

Lemma grass_inv_frame w w' : grass_inv w -> grass_frame w w' -> grass_inv w'.
Proof.
  intros (I1 & I2 & I3) (Hg & He & Ht & Hn). repeat split.
  - intros p Hp. rewrite Hg. apply I1. lia.
  - intros e Hin. rewrite Hg. apply I2. now rewrite <- He.
  - intros p b r Hp. rewrite He. apply (I3 p b r). now rewrite <- Hg.
Qed.

Lemma grass_inv_eaten q r w w' : grass_inv w -> grass_eaten q r w w' -> grass_inv w'.
Proof.
  intros (I1 & I2 & I3) (Hq & Hr & Hg & He & Ht & Hn). repeat split.
  - intros p Hp. rewrite Hg. destruct (decide (p = q)) as [->|_].
    + rewrite I1 in Hq by lia. discriminate.
    + apply I1. lia.
  - intros e Hin. rewrite Hg. destruct (decide _); [eauto|].
    rewrite He in Hin. apply elem_of_app in Hin as [Hin|Hin]; [now apply I2|].
    apply list_elem_of_singleton in Hin. subst e. simpl in *. congruence.
  - intros p b r' Hp. rewrite He, pending_app, length_app. rewrite Hg in Hp.
    unfold pending at 2. simpl.
    destruct (decide (p = q)) as [->|Hne].
    + injection Hp as <- <-. rewrite Nat.eqb_refl. simpl.
      rewrite (I3 q true r Hq). reflexivity.
    + destruct (Nat.eqb_spec q p); [congruence|]. simpl.
      rewrite (I3 p b r' Hp). lia.
Qed.

Lemma grass_inv_planted countdown regrowth c w :
  grass_inv w -> grass_inv (planted countdown regrowth c w).
Proof.
  intros (I1 & I2 & I3).
  assert (Hnew : pending (next_id w) (event_list w) = []).
  { apply pending_nil_fresh with (w := w); [exact I2|]. apply I1. lia. }
  repeat split.
  - intros p Hp. rewrite next_id_planted in Hp. rewrite grass_state_planted.
    destruct (decide _); [lia|]. apply I1. lia.
  - intros e Hin. rewrite grass_state_planted. destruct (decide _); [eauto|].
    rewrite event_list_planted in Hin. apply elem_of_app in Hin as [Hin|Hin].
    + now apply I2.
    + destruct (countdown =? 0)%Z; [now apply elem_of_nil in Hin|].
      apply list_elem_of_singleton in Hin. subst e. simpl in *. congruence.
  - intros p b r Hp. rewrite grass_state_planted in Hp.
    rewrite event_list_planted, pending_app, length_app.
    destruct (decide (p = next_id w)) as [->|Hne].
    + injection Hp as <- <-. rewrite Hnew. simpl.
      destruct (countdown =? 0)%Z; simpl; [reflexivity|].
      unfold pending. simpl. now rewrite Nat.eqb_refl.
    + rewrite (I3 p b r Hp).
      assert (E : pending p (if (countdown =? 0)%Z then []
                             else [mkEvent (time w + countdown) (next_id w)]) = []).
      { destruct (countdown =? 0)%Z; [reflexivity|]. unfold pending. simpl.
        destruct (Nat.eqb_spec (next_id w) p); [congruence|reflexivity]. }
      rewrite E. simpl. lia.
Qed.

Lemma length_one {A} (l : list A) : length l = 1 -> exists x, l = [x].
Proof. destruct l as [|x [|y l]]; simpl; try discriminate. eauto. Qed.

Lemma grass_inv_clock w (g : G) u w' g' :
  grass_inv w -> advance_clock w g = Ok (u, w', g') -> grass_inv w'.
Proof.
  intros (I1 & I2 & I3) E.
  destruct (advance_clock_Ok w g I2) as (w'' & E' & Ht & Hn & Hev & Hg).
  rewrite E' in E. injection E as _ <- _.
  repeat split.
  - intros p Hp. rewrite Hg, I1; [reflexivity|lia].
  - intros e Hin. rewrite Hev in Hin. apply elem_of_filter_list in Hin as [Hin _].
    rewrite Hg. destruct (I2 e Hin) as [[b r] Hx]. rewrite Hx. eauto.
  - intros p b r Hp. rewrite Hg in Hp. rewrite Hev, pending_filter.
    destruct (grass_state w p) as [[b0 r0]|] eqn:Hp0; [|discriminate].
    injection Hp as <- <-. pose proof (I3 p b0 r0 Hp0) as Hlen.
    destruct b0.
    + apply nil_length_inv in Hlen. rewrite Hlen. reflexivity.
    + apply length_one in Hlen as [e0 He0]. rewrite He0. simpl.
      destruct (is_due (time w + 1) e0); reflexivity.
Qed.

(** The invariant holds along every evolution. *)
Lemma evolution_grass_inv bound w0 w :
  grass_inv w0 -> evolution (G := G) bound w0 w -> grass_inv w.
Proof.
  intros I0. induction 1 as [|w g cd r c i w' g' Hev IH E
                             |w g sp e p f c i w' g' Hev IH E
                             |w g self w' g' Hev IH E
                             |w g w' g' Hev IH E Hb].
  - exact I0.
  - apply GrassPatch_init_inv in E as (_ & _ & -> & _). now apply grass_inv_planted.
  - apply grass_inv_frame with (w := w); [exact IH|].
    eapply grass_frame_Animal_init; [|exact E].
    destruct IH as (I1 & _). apply I1. lia.
  - destruct (step_grass self w g tt w' g') as [F|(q & r & F)]; [apply IH|exact E| |].
    + now apply grass_inv_frame with (w := w).
    + now apply grass_inv_eaten with (q := q) (r := r) (w := w).
  - now apply grass_inv_clock with (w := w) (g := g) (u := tt) (g' := g').
Qed.

Lemma reachable_grass_inv w : reachable (G := G) w -> grass_inv w.
Proof.
  intros (nb & t0 & Hev).
  eapply evolution_grass_inv; [apply grass_inv_initial|exact Hev].
Qed.

Lemma grass_inv_pending_le w p : grass_inv w -> length (pending p (event_list w)) <= 1.
Proof.
  intros (I1 & I2 & I3). destruct (grass_state w p) as [[b r]|] eqn:Hp.
  - rewrite (I3 p b r Hp). destruct b; lia.
  - rewrite (pending_nil_fresh p (event_list w) w I2 Hp). simpl. lia.
Qed.

(** ** A patch that waits for its regrowth *)

Lemma waiting_frame q T w w' : waiting q T w -> grass_frame w w' -> waiting q T w'.
Proof.
  intros [[r Hq] Hp] (Hg & He & _). split.
  - exists r. now rewrite Hg.
  - now rewrite He.
Qed.

Lemma waiting_eaten q T q' r' w w' :
  waiting q T w -> grass_eaten q' r' w w' -> waiting q T w'.
Proof.
  intros [[r Hq] Hp] (Hq' & _ & Hg & He & _).
  assert (Hne : q <> q') by (intros ->; congruence).
  split.
  - exists r. rewrite Hg. now rewrite decide_False.
  - rewrite He, pending_app, Hp. unfold pending at 1. simpl.
    destruct (Nat.eqb_spec q' q); [congruence|reflexivity].
Qed.

Lemma waiting_planted q T countdown regrowth c w :
  grass_inv w -> waiting q T w -> waiting q T (planted countdown regrowth c w).
Proof.
  intros (I1 & _) [[r Hq] Hp].
  assert (Hne : q <> next_id w).
  { intros ->. rewrite I1 in Hq by lia. discriminate. }
  split.
  - exists r. rewrite grass_state_planted. now rewrite decide_False.
  - rewrite event_list_planted, pending_app, Hp.
    destruct (countdown =? 0)%Z; [reflexivity|]. unfold pending at 1. simpl.
    destruct (Nat.eqb_spec (next_id w) q); [congruence|reflexivity].
Qed.

Lemma waiting_clock_before q T w (g : G) u w' g' :
  grass_inv w -> waiting q T w ->
  advance_clock w g = Ok (u, w', g') -> (time w' < T)%Z ->
  waiting q T w'.
Proof.
  intros (I1 & I2 & I3) [[r Hq] Hp] E Hlt.
  destruct (advance_clock_Ok w g I2) as (w'' & E' & Ht & Hn & Hev & Hg).
  rewrite E' in E. injection E as _ <- _.
  assert (Hnd : is_due (time w + 1) (mkEvent T q) = false).
  { unfold is_due. simpl. apply Z.leb_gt. lia. }
  split.
  - exists r. rewrite Hg, Hq, Hp. simpl. now rewrite Hnd.
  - rewrite Hev, pending_filter, Hp. simpl. now rewrite Hnd.
Qed.

Lemma waiting_clock_due q T w (g : G) :
  grass_inv w -> waiting q T w -> (T <= time w + 1)%Z ->
  exists w',
    advance_clock w g = Ok (tt, w', g) /\
    time w' = (time w + 1)%Z /\
    (exists r, grass_state w' q = Some (true, r)) /\
    pending q (event_list w') = [].
Proof.
  intros (I1 & I2 & I3) [[r Hq] Hp] Hle.
  destruct (advance_clock_Ok w g I2) as (w' & E & Ht & Hn & Hev & Hg).
  assert (Hd : is_due (time w + 1) (mkEvent T q) = true).
  { unfold is_due. simpl. apply Z.leb_le. lia. }
  exists w'. split; [exact E|]. split; [exact Ht|]. split.
  - exists r. rewrite Hg, Hq, Hp. simpl. now rewrite Hd.
  - rewrite Hev, pending_filter, Hp. simpl. now rewrite Hd.
Qed.

Lemma evolution_waiting q T w0 w :
  grass_inv w0 -> waiting q T w0 -> evolution (G := G) (Some T) w0 w ->
  waiting q T w /\ (time w0 <= time w)%Z /\ (time w = time w0 \/ time w < T)%Z.
Proof.
  intros I0 W0 Hev.
  induction Hev as [|w g cd r c i w' g' Hev IH E
                    |w g sp e p f c i w' g' Hev IH E
                    |w g self w' g' Hev IH E
                    |w g w' g' Hev IH E Hb].
  - split; [exact W0|]. split; [lia|now left].
  - destruct IH as [IHw IHt].
    pose proof (evolution_grass_inv _ _ _ I0 Hev) as Iw.
    apply GrassPatch_init_inv in E as (_ & _ & -> & _).
    split; [now apply waiting_planted|]. now rewrite time_planted.
  - destruct IH as [IHw IHt].
    pose proof (evolution_grass_inv _ _ _ I0 Hev) as Iw.
    assert (F : grass_frame w w').
    { eapply grass_frame_Animal_init; [|exact E]. destruct Iw as (I1 & _). apply I1. lia. }
    split; [now apply waiting_frame with (w := w)|].
    destruct F as (_ & _ & -> & _). exact IHt.
  - destruct IH as [IHw IHt].
    pose proof (evolution_grass_inv _ _ _ I0 Hev) as Iw.
    destruct (step_grass self w g tt w' g') as [F|(q' & r' & F)];
      [apply Iw|exact E| |].
    + split; [now apply waiting_frame with (w := w)|].
      destruct F as (_ & _ & -> & _). exact IHt.
    + split; [now apply waiting_eaten with (q' := q') (r' := r') (w := w)|].
      destruct F as (_ & _ & _ & _ & -> & _). exact IHt.
  - destruct IH as [IHw [IHt _]].
    pose proof (evolution_grass_inv _ _ _ I0 Hev) as Iw.
    split; [now apply waiting_clock_before with (w := w) (g := g) (u := tt) (g' := g')|].
    split; [|right; exact Hb].
    destruct Iw as (_ & I2 & _).
    destruct (advance_clock_Ok w g I2) as (w'' & E' & Ht & _).
    rewrite E' in E. injection E as <- _. lia.
Qed.

Lemma evolution_trans bound w0 w1 w2 :
  evolution (G := G) bound w0 w1 -> evolution bound w1 w2 -> evolution bound w0 w2.
Proof.
  intros H01 H12. induction H12; eauto using evolution.
Qed.


(** ** Determinism in the random stream *)

Lemma same_stream_refl (g : G) : same_stream g g.
Proof. intros ds. reflexivity. Qed.

Lemma same_stream_random (g1 g2 : G) :
  same_stream g1 g2 ->
  fst (rs_random g1) = fst (rs_random g2) /\
  same_stream (snd (rs_random g1)) (snd (rs_random g2)).
Proof.
  intros Hs. split.
  - specialize (Hs [DrawRandom]). simpl in Hs. congruence.
  - intros ds. specialize (Hs (DrawRandom :: ds)). simpl in Hs. congruence.
Qed.

Lemma same_stream_randbelow n (g1 g2 : G) :
  same_stream g1 g2 ->
  fst (rs_randbelow n g1) = fst (rs_randbelow n g2) /\
  same_stream (snd (rs_randbelow n g1)) (snd (rs_randbelow n g2)).
Proof.
  intros Hs. split.
  - specialize (Hs [DrawBelow n]). simpl in Hs. congruence.
  - intros ds. specialize (Hs (DrawBelow n :: ds)). simpl in Hs. congruence.
Qed.

Lemma stream_determined_ret {A} (a : A) : stream_determined (G := G) (ret a).
Proof. intros w g1 g2 Hs. simpl. auto. Qed.

Lemma stream_determined_raise {A} e : stream_determined (G := G) (raise (A := A) e).
Proof. intros w g1 g2 Hs. reflexivity. Qed.

Lemma stream_determined_bind {A B} (m : M G A) (k : A -> M G B) :
  stream_determined m -> (forall a, stream_determined (k a)) ->
  stream_determined (bind m k).
Proof.
  intros Hm Hk w g1 g2 Hs. specialize (Hm w g1 g2 Hs). unfold bind, agree in *.
  destruct (m w g1) as [[[a1 w1] g1']|e1], (m w g2) as [[[a2 w2] g2']|e2];
    try contradiction; [|exact Hm].
  destruct Hm as (-> & -> & Hs'). apply Hk, Hs'.
Qed.

(** A computation that does not touch the generator. *)
Lemma stream_determined_pure {A} (m : M G A) (f : Model -> Result (A * Model)) :
  (forall w g, m w g = match f w with
                       | Ok (a, w') => Ok (a, w', g)
                       | Err e => Err e
                       end) ->
  stream_determined m.
Proof.
  intros E w g1 g2 Hs. rewrite !E. destruct (f w) as [[a w']|e]; simpl; auto.
Qed.

Lemma stream_determined_get_model : stream_determined (G := G) get_model.
Proof. now apply stream_determined_pure with (f := fun w => Ok (w, w)). Qed.

Lemma stream_determined_modify_model f : stream_determined (G := G) (modify_model f).
Proof. now apply stream_determined_pure with (f := fun w => Ok (tt, f w)). Qed.

Lemma stream_determined_get_animal self : stream_determined (G := G) (get_animal self).
Proof.
  apply stream_determined_pure with
    (f := fun w => match agents w !! self with
                   | Some (AnAnimal a) => Ok (a, w)
                   | _ => Err NotAnAgent
                   end).
  intros w g. unfold get_animal. destruct (agents w !! self) as [[a|?]|]; reflexivity.
Qed.

Lemma stream_determined_get_grass self : stream_determined (G := G) (get_grass self).
Proof.
  apply stream_determined_pure with
    (f := fun w => match agents w !! self with
                   | Some (AGrassPatch p) => Ok (p, w)
                   | _ => Err NotAnAgent
                   end).
  intros w g. unfold get_grass. destruct (agents w !! self) as [[a|?]|]; reflexivity.
Qed.

Lemma stream_determined_the_cell c : stream_determined (G := G) (the_cell c).
Proof.
  destruct c; [apply stream_determined_ret|apply stream_determined_raise].
Qed.

Lemma stream_determined_register x : stream_determined (G := G) (register x).
Proof.
  now apply stream_determined_pure with
    (f := fun w => Ok (next_id w,
                       set_next_id (S (next_id w)) (set_agents (insert (next_id w) x) w))).
Qed.

Lemma stream_determined_set_cell self c : stream_determined (G := G) (set_cell self c).
Proof.
  apply stream_determined_pure with
    (f := fun w => match agents w !! self with
                   | None => Err NotAnAgent
                   | Some x => Ok (tt, relocate self x c w)
                   end).
  intros w g. unfold set_cell. destruct (agents w !! self); reflexivity.
Qed.

Lemma stream_determined_schedule delay target :
  stream_determined (G := G) (schedule_event_relative delay target).
Proof.
  apply stream_determined_pure with
    (f := fun w => if (delay <? 0)%Z then Err InvalidScheduleError
                   else Ok (tt, set_event_list
                                  (fun l => l ++ [mkEvent (time w + delay) target]) w)).
  intros w g. unfold schedule_event_relative. destruct (delay <? 0)%Z; reflexivity.
Qed.

Lemma stream_determined_metabolize self : stream_determined (G := G) (metabolize self).
Proof.
  apply stream_determined_pure with
    (f := fun w => match agents w !! self with
                   | Some (AnAnimal a) =>
                       Ok (tt, set_agents
                                 (insert self (AnAnimal (with_energy (energy a - 1) a))) w)
                   | _ => Err NotAnAgent
                   end).
  intros w g. unfold metabolize. destruct (agents w !! self) as [[a|?]|]; reflexivity.
Qed.

Lemma stream_determined_random_random : stream_determined (G := G) random_random.
Proof.
  intros w g1 g2 Hs. rewrite !random_random_Ok. simpl.
  destruct (same_stream_random g1 g2 Hs) as [-> Hs']. auto.
Qed.

Lemma stream_determined_random_choice {A} (l : list A) :
  stream_determined (G := G) (random_choice l).
Proof.
  intros w g1 g2 Hs. destruct l as [|d l'] eqn:El; [reflexivity|]. rewrite <- El.
  assert (Hl : l <> []) by (rewrite El; discriminate).
  rewrite !(random_choice_Ok l d) by assumption. simpl.
  destruct (same_stream_randbelow (length l) g1 g2 Hs) as [-> Hs']. auto.
Qed.

Create HintDb determined discriminated.

#[local] Hint Resolve stream_determined_ret stream_determined_raise
  stream_determined_get_model stream_determined_modify_model
  stream_determined_get_animal stream_determined_get_grass
  stream_determined_the_cell stream_determined_register
  stream_determined_set_cell stream_determined_schedule
  stream_determined_metabolize stream_determined_random_random
  stream_determined_random_choice : determined.

(** Splits a computation along its binds and branches. *)
Ltac determined :=
  repeat first
    [ progress auto with determined
    | apply stream_determined_bind; [|intros ?]
    | match goal with
      | |- stream_determined (if ?b then _ else _) => destruct b
      | |- stream_determined (match ?x with _ => _ end) => destruct x
      end ].

Lemma stream_determined_set_energy self e : stream_determined (G := G) (set_energy self e).
Proof. unfold set_energy. determined. Qed.

Lemma stream_determined_Agent_remove self : stream_determined (G := G) (Agent_remove self).
Proof. unfold Agent_remove. determined. Qed.

#[local] Hint Resolve stream_determined_set_energy stream_determined_Agent_remove
  : determined.

Lemma stream_determined_Animal_init sp e p f c :
  stream_determined (G := G) (Animal_init sp e p f c).
Proof. unfold Animal_init. determined. Qed.

#[local] Hint Resolve stream_determined_Animal_init : determined.

Lemma stream_determined_spawn_offspring self :
  stream_determined (G := G) (spawn_offspring self).
Proof. unfold spawn_offspring. determined. Qed.

Lemma stream_determined_set_fully_grown self b :
  stream_determined (G := G) (set_fully_grown self b).
Proof. unfold set_fully_grown. determined. Qed.

#[local] Hint Resolve stream_determined_spawn_offspring
  stream_determined_set_fully_grown : determined.

Lemma stream_determined_GrassPatch_init countdown regrowth c :
  stream_determined (G := G) (GrassPatch_init countdown regrowth c).
Proof. unfold GrassPatch_init. determined. Qed.

Lemma stream_determined_Sheep_feed self : stream_determined (G := G) (Sheep_feed self).
Proof. unfold Sheep_feed. determined. Qed.

Lemma stream_determined_Sheep_move self : stream_determined (G := G) (Sheep_move self).
Proof. unfold Sheep_move, select_random_cell. determined. Qed.

Lemma stream_determined_Wolf_feed self : stream_determined (G := G) (Wolf_feed self).
Proof. unfold Wolf_feed. determined. Qed.

Lemma stream_determined_Wolf_move self : stream_determined (G := G) (Wolf_move self).
Proof. unfold Wolf_move, select_random_cell. determined. Qed.

#[local] Hint Resolve stream_determined_Sheep_feed stream_determined_Sheep_move
  stream_determined_Wolf_feed stream_determined_Wolf_move : determined.

Lemma stream_determined_move sp self : stream_determined (G := G) (move sp self).
Proof. destruct sp; simpl; auto with determined. Qed.

Lemma stream_determined_feed sp self : stream_determined (G := G) (feed sp self).
Proof. destruct sp; simpl; auto with determined. Qed.

#[local] Hint Resolve stream_determined_move stream_determined_feed : determined.

Lemma stream_determined_step self : stream_determined (G := G) (step self).
Proof. unfold step. determined. Qed.

#[local] Hint Resolve stream_determined_step : determined.

Lemma stream_determined_for_each {A} (l : list A) (f : A -> M G unit) :
  (forall x, stream_determined (f x)) -> stream_determined (for_each l f).
Proof. intros Hf. induction l as [|x l IH]; simpl; determined. Qed.

Lemma stream_determined_fire_due : stream_determined (G := G) fire_due.
Proof.
  unfold fire_due. determined. apply stream_determined_for_each.
  intros e. unfold fire. auto with determined.
Qed.

#[local] Hint Resolve stream_determined_fire_due : determined.

Lemma stream_determined_advance_clock : stream_determined (G := G) advance_clock.
Proof. unfold advance_clock. determined. Qed.

Lemma stream_determined_shuffle n : forall l, stream_determined (G := G) (shuffle n l).
Proof. induction n as [|n IH]; intros l; simpl; determined. Qed.

#[local] Hint Resolve stream_determined_advance_clock stream_determined_shuffle
  : determined.

Lemma stream_determined_activation_order : stream_determined (G := G) activation_order.
Proof. unfold activation_order. determined. Qed.

#[local] Hint Resolve stream_determined_activation_order : determined.

Lemma stream_determined_tick : stream_determined (G := G) tick.
Proof.
  unfold tick. determined. apply stream_determined_for_each.
  intros i. determined.
Qed.

#[local] Hint Resolve stream_determined_tick : determined.

Lemma stream_determined_run n : stream_determined (G := G) (run n).
Proof. induction n as [|n IH]; simpl; determined. Qed.


(** ** A removed agent stays removed *)

(** The cases of a successful step, as explicit models. *)
Lemma step_cases self w (g : G) u w' g' :
  step self w g = Ok (u, w', g') ->
  exists a0 w1 a1 w3 a3,
    agents w !! self = Some (AnAnimal a0) /\
    (w1 = w \/ exists c', w1 = relocate self (AnAnimal a0) (Some c') w) /\
    agents w1 !! self = Some (AnAnimal a1) /\
    species a1 = species a0 /\
    let a2 := with_energy (energy a1 - 1) a1 in
    let w2 := set_agents (insert self (AnAnimal a2)) w1 in
    (w3 = w2 \/
     (exists q gq, agents w2 !! q = Some (AGrassPatch gq) /\ w3 = eaten self a2 q gq w2) \/
     (exists s sa, agents w2 !! s = Some (AnAnimal sa) /\ self <> s /\
                   w3 = devoured self a2 s sa w2)) /\
    agents w3 !! self = Some (AnAnimal a3) /\
    (w' = set_agents (delete self) (relocate self (AnAnimal a3) None w3) \/
     w' = w3 \/ w' = spawned self a3 w3).
Proof.
  intros E. rewrite step_phases in E.
  apply bind_inv in E as (a0 & w0 & g0 & E0 & E).
  apply get_animal_inv in E0 as (Hself & -> & ->).
  apply bind_inv in E as (u1 & w1 & g1 & Hmove & E).
  apply bind_inv in E as (u2 & w2 & g2 & Hmet & E).
  apply bind_inv in E as (u3 & w3 & g3 & Hfeed & E).
  assert (F1 : (w1 = w \/ exists c', w1 = relocate self (AnAnimal a0) (Some c') w) /\
               exists a1, agents w1 !! self = Some (AnAnimal a1) /\
                          species a1 = species a0).
  { destruct (move_inv _ _ _ _ _ _ _ _ Hself Hmove) as (c & Hc & [[-> _]|(c' & _ & ->)]).
    - split; [now left|eauto].
    - split; [right; eauto|].
      exists (with_cell (Some c') a0). rewrite agents_relocate, lookup_insert_eq. auto. }
  destruct F1 as (F1 & a1 & Ha1 & Hsp1).
  apply metabolize_inv in Hmet as (a1' & Ha1' & -> & ->).
  rewrite Ha1 in Ha1'. injection Ha1' as <-.
  set (a2 := with_energy (energy a1 - 1) a1) in *.
  set (w2 := set_agents (insert self (AnAnimal a2)) w1) in *.
  assert (Ha2 : agents w2 !! self = Some (AnAnimal a2)) by apply lookup_insert_eq.
  assert (F3 : (w3 = w2 \/
     (exists q gq, agents w2 !! q = Some (AGrassPatch gq) /\ w3 = eaten self a2 q gq w2) \/
     (exists s sa, agents w2 !! s = Some (AnAnimal sa) /\ self <> s /\
                   w3 = devoured self a2 s sa w2)) /\
     exists a3, agents w3 !! self = Some (AnAnimal a3)).
  { destruct (species a0) eqn:Hsp; simpl in Hfeed.
    - apply Sheep_feed_inv in Hfeed
        as (a' & c & q & gq & Ha' & Hc & Hfind & Hq & -> & Hcase).
      rewrite Ha2 in Ha'. injection Ha' as <-.
      destruct Hcase as [[_ ->]|(Hgrown & Hr & ->)].
      + split; [now left|eauto].
      + split; [right; left; eauto|].
        assert (Hne : self <> q) by (intros ->; congruence).
        eexists. unfold eaten. simpl.
        rewrite lookup_insert_ne by congruence. apply lookup_insert_eq.
    - apply Wolf_feed_inv in Hfeed as (a' & c & Ha' & Hc & Hcase).
      rewrite Ha2 in Ha'. injection Ha' as <-.
      destruct Hcase as [(_ & -> & _)|(s & sa & Hin & Hsa & Hspa & Hw')].
      + split; [now left|eauto].
      + assert (Hne : self <> s).
        { intros ->. rewrite Ha2 in Hsa. injection Hsa as <-.
          subst a2. simpl in Hspa. congruence. }
        rewrite (Hw' Hne). split; [right; right; eauto|].
        eexists. rewrite agents_devoured.
        rewrite lookup_delete_ne by congruence. apply lookup_insert_eq. }
  destruct F3 as (F3 & a3 & Ha3).
  apply resolve_inv in E as (a3' & Ha3' & Hcase).
  rewrite Ha3 in Ha3'. injection Ha3' as <-.
  exists a0, w1, a1, w3, a3. auto 10.
Qed.

Lemma gone_insert s i x w :
  i <> s -> gone s w -> gone s (set_agents (insert i x) w).
Proof.
  intros Hne (Hs & Hn & Hc). repeat split; auto.
  simpl. now rewrite lookup_insert_ne.
Qed.

Lemma gone_delete s i w : gone s w -> gone s (set_agents (delete i) w).
Proof.
  intros (Hs & Hn & Hc). repeat split; auto.
  simpl. destruct (decide (i = s)) as [->|Hne].
  - apply lookup_delete_eq.
  - now rewrite lookup_delete_ne.
Qed.

Lemma gone_relocate s i x c w :
  i <> s -> gone s w -> gone s (relocate i x c w).
Proof.
  intros Hne (Hs & Hn & Hc). repeat split.
  - rewrite agents_relocate. now rewrite lookup_insert_ne.
  - now rewrite next_id_relocate.
  - intros c' Hin. apply elem_of_occupants_relocate in Hin as [->|Hin]; [congruence|].
    exact (Hc c' Hin).
Qed.

Lemma gone_set_next_id s w : gone s w -> gone s (set_next_id (S (next_id w)) w).
Proof. intros (Hs & Hn & Hc). repeat split; auto. simpl. lia. Qed.

Lemma gone_set_event_list s f w : gone s w -> gone s (set_event_list f w).
Proof. intros (Hs & Hn & Hc). repeat split; auto. Qed.

Lemma gone_set_time s t w : gone s w -> gone s (set_time t w).
Proof. intros (Hs & Hn & Hc). repeat split; auto. Qed.

Lemma gone_registered s i x w : gone s w -> agents w !! i = Some x -> i <> s.
Proof. intros (Hs & _) Hi ->. congruence. Qed.

Lemma gone_next_id s w : gone s w -> next_id w <> s.
Proof. intros (_ & Hn & _). lia. Qed.

Lemma gone_created s x c w :
  gone s w ->
  gone s (relocate (next_id w) x c
            (set_next_id (S (next_id w)) (set_agents (insert (next_id w) x) w))).
Proof.
  intros Hg. pose proof (gone_next_id s w Hg) as Hne.
  apply gone_relocate; [exact Hne|].
  apply (gone_set_next_id s (set_agents (insert (next_id w) x) w)).
  now apply gone_insert.
Qed.

Lemma gone_step s self w (g : G) u w' g' :
  gone s w -> step self w g = Ok (u, w', g') -> gone s w'.
Proof.
  intros Hg E.
  apply step_cases in E
    as (a0 & w1 & a1 & w3 & a3 & Hself & H1 & Ha1 & _ & H3 & Ha3 & H4).
  cbv zeta in H3.
  assert (Hself1 : self <> s) by exact (gone_registered _ _ _ _ Hg Hself).
  assert (G1 : gone s w1).
  { destruct H1 as [->|(c' & ->)]; [exact Hg|]. now apply gone_relocate. }
  assert (G2 : gone s (set_agents
                         (insert self (AnAnimal (with_energy (energy a1 - 1) a1))) w1)).
  { now apply gone_insert. }
  assert (G3 : gone s w3).
  { destruct H3 as [->|[(q & gq & Hq & ->)|(s' & sa & Hs' & Hne & ->)]].
    - exact G2.
    - unfold eaten. apply gone_set_event_list.
      apply gone_insert; [exact (gone_registered _ _ _ _ G2 Hq)|].
      now apply gone_insert.
    - unfold devoured. apply gone_delete.
      apply gone_relocate; [exact (gone_registered _ _ _ _ G2 Hs')|].
      now apply gone_insert. }
  destruct H4 as [->|[->| ->]].
  - apply gone_delete. now apply gone_relocate.
  - exact G3.
  - unfold spawned. cbv zeta.
    set (w4 := set_agents (insert self (AnAnimal (with_energy (energy a3 / 2) a3))) w3).
    change (next_id w3) with (next_id w4).
    apply gone_created. now apply gone_insert.
Qed.

Lemma gone_for_each_fire s l : forall w (g : G) u w' g',
  gone s w -> for_each l fire w g = Ok (u, w', g') -> gone s w'.
Proof.
  induction l as [|e l IH]; intros w g u w' g' Hg E; simpl in E.
  - injection E as _ <- _. exact Hg.
  - apply bind_inv in E as (u1 & w1 & g1 & E1 & E).
    apply (IH w1 g1 u w' g'); [|exact E].
    unfold fire, set_fully_grown in E1.
    apply bind_inv in E1 as (p & w0 & g0 & Ep & E1).
    apply get_grass_inv in Ep as (Hp & -> & ->).
    injection E1 as _ <- _.
    apply gone_insert; [|exact Hg]. exact (gone_registered _ _ _ _ Hg Hp).
Qed.

Lemma gone_advance_clock s w (g : G) u w' g' :
  gone s w -> advance_clock w g = Ok (u, w', g') -> gone s w'.
Proof.
  intros Hg E. unfold advance_clock in E.
  erewrite bind_eq in E by reflexivity.
  unfold fire_due in E. erewrite bind_eq in E by reflexivity.
  erewrite bind_eq in E by reflexivity.
  eapply gone_for_each_fire; [|exact E].
  apply gone_set_event_list, gone_set_time, Hg.
Qed.

Lemma gone_evolution s bound w0 w :
  gone s w0 -> evolution (G := G) bound w0 w -> gone s w.
Proof.
  intros G0. induction 1 as [|w g cd r c i w' g' Hev IH E
                             |w g sp e p f c i w' g' Hev IH E
                             |w g self w' g' Hev IH E
                             |w g w' g' Hev IH E Hb].
  - exact G0.
  - apply GrassPatch_init_inv in E as (_ & _ & -> & _).
    unfold planted. cbv zeta.
    destruct (cd =? 0)%Z; [|apply gone_set_event_list]; now apply gone_created.
  - rewrite Animal_init_Ok in E. injection E as _ <- _. now apply gone_created.
  - eapply gone_step; eauto.
  - eapply gone_advance_clock; eauto.
Qed.

(** C4: a wolf in a cell with sheep eats the one that the shared
    generator's draw selects among them: the wolf gains [energy_from_food],
    that sheep leaves the live agents and every cell, and nothing else
    changes; however the run goes on, no cell and no candidate list scanned
    later contains that sheep again.  In a cell without sheep the call
    changes nothing and raises nothing. *)
Theorem Wolf_feed_spec (self : AgentId) (a : Animal) (c : Cell) (w : Model) (g : G) :
  agents w !! self = Some (AnAnimal a) ->
  species a = Wolf ->
  cell a = Some c ->
  consistent w ->
  fresh_ids w ->
  let sheep := sheep_at w c in
  let i := fst (rs_randbelow (length sheep) g) in
  (forall x, x ∈ sheep <-> x ∈ occupants w c /\ is_sheep w x = true) /\
  NoDup sheep /\
  (sheep = [] -> Wolf_feed self w g = Ok (tt, w, g)) /\
  (sheep <> [] ->
     exists s w',
       Wolf_feed self w g = Ok (tt, w', snd (rs_randbelow (length sheep) g)) /\
       i < length sheep /\
       sheep !! i = Some s /\
       agents w' !! self
         = Some (AnAnimal (with_energy (energy a + energy_from_food a) a)) /\
       agents w' !! s = None /\
       (forall j, j <> self -> j <> s -> agents w' !! j = agents w !! j) /\
       (forall c', s ∉ occupants w' c') /\
       (forall c' j, j <> s -> j ∈ occupants w' c' <-> j ∈ occupants w c') /\
       (forall c', s ∉ sheep_at w' c') /\
       (forall w'', evolution None w' w'' ->
          agents w'' !! s = None /\
          (forall c', s ∉ occupants w'' c') /\
          (forall c', s ∉ sheep_at w'' c'))).
Proof.
  intros Hself Hsp Hc [Hnd Hocc] Hfresh sheep i.
  split; [apply elem_of_sheep_at|].
  split; [apply NoDup_filter_list, Hnd|].
  split; [intros Hs; now apply Wolf_feed_nothing with (a := a) (c := c)|].
  intros Hs.
  assert (Hlt : i < length sheep).
  { apply rs_randbelow_lt. destruct sheep; [congruence|simpl; lia]. }
  destruct (lookup_lt_is_Some_2 sheep i Hlt) as [s Hi].
  assert (Hin : s ∈ sheep_at w c) by (eapply list_elem_of_lookup_2; eauto).
  apply elem_of_sheep_at in Hin as [Hin Hsheep].
  destruct (is_sheep_animal _ _ Hsheep) as (sa & Hsa & Hspa).
  assert (Hne : self <> s) by (intros ->; congruence).
  assert (Hgone : forall c', s ∉ occupants (devoured self a s sa w) c').
  { intros c'. rewrite occupants_devoured.
    destruct (decide (cell sa = Some c')) as [Hc'|Hc'].
    - apply remove_first_NoDup, Hnd.
    - intros Hin'. destruct (Hocc _ _ Hin') as (x & Hx & Hxc).
      rewrite Hsa in Hx. injection Hx as <-. simpl in Hxc. congruence. }
  assert (Hdead : agents (devoured self a s sa w) !! s = None).
  { rewrite agents_devoured. apply lookup_delete_eq. }
  exists s, (devoured self a s sa w).
  split; [now apply Wolf_feed_eats|].
  split; [exact Hlt|]. split; [exact Hi|].
  split.
  { rewrite agents_devoured.
    rewrite lookup_delete_ne by congruence. apply lookup_insert_eq. }
  split; [exact Hdead|].
  split.
  { intros j Hj1 Hj2. rewrite agents_devoured.
    rewrite lookup_delete_ne by congruence.
    now rewrite lookup_insert_ne by congruence. }
  split; [exact Hgone|].
  split.
  { intros c' j Hj. rewrite occupants_devoured.
    destruct (decide (cell sa = Some c')); [|reflexivity].
    split; [apply elem_of_remove_first|now apply elem_of_remove_first_ne]. }
  split.
  { intros c' Hin'. apply elem_of_sheep_at in Hin' as [Hin' _]. exact (Hgone c' Hin'). }
  intros w'' Hev.
  assert (G0 : gone s (devoured self a s sa w)).
  { split; [exact Hdead|]. split; [|exact Hgone].
    rewrite next_id_devoured. apply Hfresh. rewrite Hsa. eauto. }
  destruct (gone_evolution s None _ w'' G0 Hev) as (Hd & _ & Hc'').
  split; [exact Hd|]. split; [exact Hc''|].
  intros c' Hin'. apply elem_of_sheep_at in Hin' as [Hin' _]. exact (Hc'' c' Hin').
Qed.

(** ** Ticks are evolutions *)

Lemma shuffle_model n : forall l w (g : G) r w' g',
  shuffle n l w g = Ok (r, w', g') -> w' = w.
Proof.
  induction n as [|n IH]; intros l w g r w' g' E; simpl in E.
  - now injection E as _ <- _.
  - destruct l as [|x l]; [now injection E as _ <- _|].
    apply bind_inv in E as (i & w1 & g1 & E1 & E).
    apply random_choice_inv in E1 as (_ & -> & _ & _).
    apply bind_inv in E as (rest & w2 & g2 & E2 & E).
    apply IH in E2. injection E as _ <- _. exact E2.
Qed.

Lemma for_each_step_evolution w0 order : forall w (g : G) u w' g',
  evolution None w0 w ->
  for_each order
    (fun i => let* m := get_model in if is_animal m i then step i else ret tt) w g
  = Ok (u, w', g') ->
  evolution None w0 w'.
Proof.
  induction order as [|i order IH]; intros w g u w' g' Hev E; simpl in E.
  - now injection E as _ <- _.
  - apply bind_inv in E as ([] & w1 & g1 & E1 & E).
    apply (IH w1 g1 u w' g'); [|exact E].
    erewrite bind_eq in E1 by reflexivity.
    destruct (is_animal w i).
    + eapply evolution_step; eauto.
    + now injection E1 as <- _.
Qed.

(** A tick of the clock and the activation pass is an evolution, so every
    model of a run is reachable. *)
Lemma tick_evolution w0 w (g : G) u w' g' :
  evolution None w0 w -> tick w g = Ok (u, w', g') -> evolution None w0 w'.
Proof.
  intros Hev E. unfold tick in E.
  apply bind_inv in E as ([] & w1 & g1 & E1 & E).
  apply bind_inv in E as (order & w2 & g2 & E2 & E).
  unfold activation_order in E2. erewrite bind_eq in E2 by reflexivity.
  apply shuffle_model in E2. subst w2.
  eapply for_each_step_evolution; [|exact E].
  eapply evolution_clock; eauto.
Qed.

Lemma run_reachable n : forall w (g : G) cs w' g',
  reachable w -> run n w g = Ok (cs, w', g') -> reachable w'.
Proof.
  induction n as [|n IH]; intros w g cs w' g' Hr E; simpl in E.
  - now injection E as _ <- _.
  - apply bind_inv in E as ([] & w1 & g1 & E1 & E).
    erewrite bind_eq in E by reflexivity.
    apply bind_inv in E as (cs' & w2 & g2 & E2 & E).
    injection E as _ <- _.
    apply (IH w1 g1 cs' w2 g2); [|exact E2].
    destruct Hr as (nb & t0 & Hev). exists nb, t0.
    eapply tick_evolution; eauto.
Qed.

(** ** Checking well-formedness by computation *)

Lemma fresh_idsb_spec w : fresh_idsb w = true -> fresh_ids w.
Proof.
  unfold fresh_idsb, fresh_ids. rewrite forallb_forall. intros Hall i [x Hx].
  apply Nat.ltb_lt, Hall. apply in_map_iff. exists (i, x). split; [reflexivity|].
  apply list_elem_of_In, elem_of_map_to_list, Hx.
Qed.

Lemma nodupb_spec l : nodupb l = true -> NoDup l.
Proof.
  induction l as [|x l IH]; simpl; [constructor|].
  rewrite andb_true_iff, negb_true_iff. intros [Hx Hl]. constructor; [|auto].
  intros Hin. apply existsb_false_elem with (x := x) in Hx; [|exact Hin].
  now rewrite Nat.eqb_refl in Hx.
Qed.

Lemma consistentb_spec w : consistentb w = true -> consistent w.
Proof.
  unfold consistentb, consistent. rewrite forallb_forall. intros Hall.
  assert (Hc : forall c l, cell_agents w !! c = Some l ->
                 NoDup l /\ forall i, i ∈ l -> lives_in w c i = true).
  { intros c l Hl. specialize (Hall (c, l)).
    rewrite andb_true_iff, forallb_forall in Hall. simpl in Hall.
    destruct Hall as [Hnd Hlive].
    { apply list_elem_of_In, elem_of_map_to_list, Hl. }
    split; [now apply nodupb_spec|]. intros i Hi. apply Hlive. now apply list_elem_of_In. }
  split.
  - intros c. unfold occupants. destruct (cell_agents w !! c) as [l|] eqn:Hl; simpl.
    + apply (Hc c l Hl).
    + constructor.
  - intros i c. unfold occupants. destruct (cell_agents w !! c) as [l|] eqn:Hl; simpl.
    + intros Hi. destruct (Hc c l Hl) as [_ Hlive]. specialize (Hlive i Hi).
      unfold lives_in in Hlive. destruct (agents w !! i) as [x|]; [|discriminate].
      exists x. split; [reflexivity|].
      destruct (agent_cell x) as [c'|]; [|discriminate].
      apply Nat.eqb_eq in Hlive. now subst.
    + intros Hi. now apply elem_of_nil in Hi.
Qed.

Lemma Animal_init_born sp e p f c w (g : G) :
  Animal_init sp e p f c w g = Ok (next_id w, born sp e p f c w, g).
Proof. apply Animal_init_Ok. Qed.

Lemma reachable_initial nb t0 : reachable (G := G) (initial_model nb t0).
Proof. exists nb, t0. constructor. Qed.

Lemma reachable_planted (g : G) countdown regrowth c w :
  (0 <= countdown)%Z -> reachable (G := G) w ->
  reachable (G := G) (planted countdown regrowth c w).
Proof.
  intros Hcd (nb & t0 & Hev). exists nb, t0.
  eapply evolution_grass; [exact Hev|]. apply GrassPatch_init_Ok with (g := g). exact Hcd.
Qed.

Lemma reachable_born (g : G) sp e p f c w :
  reachable (G := G) w -> reachable (G := G) (born sp e p f c w).
Proof.
  intros (nb & t0 & Hev). exists nb, t0.
  eapply evolution_animal; [exact Hev|]. apply Animal_init_born with (g := g).
Qed.

(** ** Reachable models are well formed *)

Lemma well_formed_initial nb t0 : well_formed (initial_model nb t0).
Proof.
  split.
  - intros i [x Hx]. simpl in Hx. rewrite lookup_empty in Hx. discriminate.
  - split.
    + intros c. unfold occupants. simpl. rewrite lookup_empty. constructor.
    + intros i c Hi. unfold occupants in Hi. simpl in Hi.
      rewrite lookup_empty in Hi. now apply elem_of_nil in Hi.
Qed.

Lemma well_formed_ext w w' :
  agents w' = agents w -> cell_agents w' = cell_agents w -> next_id w' = next_id w ->
  well_formed w -> well_formed w'.
Proof.
  intros Ha Hc Hn [Hf [Hnd Hocc]]. split.
  - intros i Hi. rewrite Hn. apply Hf. now rewrite <- Ha.
  - split.
    + intros c. unfold occupants in *. rewrite Hc. apply Hnd.
    + intros i c. unfold occupants in *. rewrite Hc, Ha. apply Hocc.
Qed.

Lemma well_formed_update i x x' w :
  agents w !! i = Some x -> agent_cell x' = agent_cell x ->
  well_formed w -> well_formed (set_agents (insert i x') w).
Proof.
  intros Hi Hcell [Hf [Hnd Hocc]]. split.
  - intros j Hj. simpl in *. apply Hf.
    eapply is_Some_insert_existing; [|exact Hj]. rewrite Hi. eauto.
  - split; [exact Hnd|].
    intros j c Hj. change (occupants (set_agents ?f ?m) c) with (occupants m c) in Hj.
    destruct (Hocc j c Hj) as (y & Hy & Hyc). simpl.
    destruct (decide (j = i)) as [->|Hne].
    + rewrite lookup_insert_eq. exists x'. split; [reflexivity|]. congruence.
    + rewrite lookup_insert_ne by congruence. eauto.
Qed.

Lemma not_registered_no_occupant i w :
  consistent w -> agents w !! i = None -> forall c, i ∉ occupants w c.
Proof.
  intros [_ Hocc] Hi c Hin. destruct (Hocc i c Hin) as (x & Hx & _). congruence.
Qed.

Lemma well_formed_relocate i x c w :
  agents w !! i = Some x -> well_formed w -> well_formed (relocate i x c w).
Proof.
  intros Hi [Hf [Hnd Hocc]]. split.
  - intros j Hj. rewrite next_id_relocate. rewrite agents_relocate in Hj. apply Hf.
    eapply is_Some_insert_existing; [|exact Hj]. rewrite Hi. eauto.
  - assert (Hrest : forall c',
        let l := if decide (agent_cell x = Some c')
                 then remove_first i (occupants w c') else occupants w c' in
        NoDup l /\ (i ∉ l) /\ (forall j, j ∈ l -> j ∈ occupants w c')).
    { intros c'. cbv zeta. destruct (decide (agent_cell x = Some c')) as [Hc'|Hc'].
      - destruct (remove_first_NoDup i _ (Hnd c')) as [H1 H2].
        split; [exact H1|]. split; [exact H2|]. intros j. apply elem_of_remove_first.
      - split; [apply Hnd|]. split; [|auto].
        intros Hin. destruct (Hocc i c' Hin) as (y & Hy & Hyc). congruence. }
    split.
    + intros c'. rewrite occupants_relocate. cbv zeta.
      destruct (Hrest c') as (H1 & H2 & _). cbv zeta in H1, H2.
      destruct (decide (c = Some c')); [|exact H1].
      apply NoDup_app. split; [exact H1|]. split; [|apply NoDup_singleton].
      intros j Hj Hj'. apply list_elem_of_singleton in Hj'. congruence.
    + intros j c'. rewrite occupants_relocate, agents_relocate. cbv zeta.
      destruct (Hrest c') as (_ & H2 & H3). cbv zeta in H2, H3.
      intros Hj.
      assert (Hcase : (j = i /\ c = Some c') \/ (j <> i /\ j ∈ occupants w c')).
      { destruct (decide (c = Some c')) as [Hc|Hc].
        - apply elem_of_app in Hj as [Hj|Hj].
          + right. split; [intros ->; contradiction|auto].
          + apply list_elem_of_singleton in Hj. left. auto.
        - right. split; [intros ->; contradiction|auto]. }
      destruct Hcase as [[-> ->]|[Hne Hin]].
      * rewrite lookup_insert_eq. eexists. split; [reflexivity|].
        destruct x; reflexivity.
      * rewrite lookup_insert_ne by congruence. apply Hocc, Hin.
Qed.

Lemma well_formed_removed i x w :
  agents w !! i = Some x -> well_formed w ->
  well_formed (set_agents (delete i) (relocate i x None w)).
Proof.
  intros Hi Hw.
  assert (Hout : forall c', i ∉ occupants (relocate i x None w) c').
  { intros c'. rewrite occupants_relocate. cbv zeta.
    rewrite (decide_False (P := None = Some c')) by discriminate.
    destruct Hw as [_ [Hnd Hocc]].
    destruct (decide (agent_cell x = Some c')) as [Hc'|Hc'].
    - apply remove_first_NoDup, Hnd.
    - intros Hin. destruct (Hocc i c' Hin) as (y & Hy & Hyc). congruence. }
  destruct (well_formed_relocate i x None w Hi Hw) as [Hf [Hnd Hocc]].
  split.
  - intros j Hj. simpl in *. apply Hf.
    destruct (decide (j = i)) as [->|Hne].
    + rewrite lookup_delete_eq in Hj. now inversion Hj.
    + now rewrite lookup_delete_ne in Hj by congruence.
  - split; [exact Hnd|].
    intros j c' Hj. change (occupants (set_agents ?f ?m) c') with (occupants m c') in Hj.
    assert (Hne : j <> i) by (intros ->; exact (Hout c' Hj)).
    simpl. rewrite lookup_delete_ne by congruence. apply Hocc, Hj.
Qed.

Lemma well_formed_created x c w :
  agent_cell x = None -> well_formed w ->
  well_formed (relocate (next_id w) x c
                 (set_next_id (S (next_id w)) (set_agents (insert (next_id w) x) w))).
Proof.
  intros Hx [Hf [Hnd Hocc]].
  assert (Hnew : agents w !! next_id w = None).
  { destruct (agents w !! next_id w) eqn:E; [|reflexivity].
    specialize (Hf (next_id w)). rewrite E in Hf.
    specialize (Hf (mk_is_Some _ _ eq_refl)). lia. }
  apply (well_formed_relocate (next_id w) x c
           (set_next_id (S (next_id w)) (set_agents (insert (next_id w) x) w))).
  { simpl. apply lookup_insert_eq. }
  split.
  - intros j Hj. simpl in *. destruct (decide (j = next_id w)) as [->|Hne]; [lia|].
    rewrite lookup_insert_ne in Hj by congruence. specialize (Hf j Hj). lia.
  - split; [exact Hnd|].
    intros j c' Hj.
    change (occupants (set_next_id ?n (set_agents ?f w)) c') with (occupants w c') in Hj.
    destruct (Hocc j c' Hj) as (y & Hy & Hyc). simpl.
    assert (Hne : j <> next_id w) by (intros ->; congruence).
    rewrite lookup_insert_ne by congruence. eauto.
Qed.

Lemma well_formed_step self w (g : G) u w' g' :
  well_formed w -> step self w g = Ok (u, w', g') -> well_formed w'.
Proof.
  intros Hw E.
  apply step_cases in E
    as (a0 & w1 & a1 & w3 & a3 & Hself & H1 & Ha1 & _ & H3 & Ha3 & H4).
  cbv zeta in H3.
  assert (W1 : well_formed w1).
  { destruct H1 as [->|(c' & ->)]; [exact Hw|]. now apply well_formed_relocate. }
  set (a2 := with_energy (energy a1 - 1) a1) in *.
  set (w2 := set_agents (insert self (AnAnimal a2)) w1) in *.
  assert (W2 : well_formed w2).
  { apply (well_formed_update self (AnAnimal a1)); auto. }
  assert (Ha2 : agents w2 !! self = Some (AnAnimal a2)) by apply lookup_insert_eq.
  assert (W3 : well_formed w3).
  { destruct H3 as [->|[(q & gq & Hq & ->)|(s' & sa & Hs' & Hne & ->)]].
    - exact W2.
    - assert (Hneq : self <> q) by (intros ->; congruence).
      unfold eaten.
      apply (well_formed_ext
               (set_agents (insert q (AGrassPatch (with_fully_grown false gq)))
                  (set_agents
                     (insert self
                        (AnAnimal (with_energy (energy a2 + energy_from_food a2) a2))) w2)));
        try reflexivity.
      apply (well_formed_update q (AGrassPatch gq)); [|reflexivity|].
      + simpl. now rewrite lookup_insert_ne by congruence.
      + apply (well_formed_update self (AnAnimal a2)); auto.
    - unfold devoured. apply well_formed_removed.
      + simpl. now rewrite lookup_insert_ne by congruence.
      + apply (well_formed_update self (AnAnimal a2)); auto. }
  destruct H4 as [->|[->| ->]].
  - now apply well_formed_removed.
  - exact W3.
  - unfold spawned. cbv zeta.
    set (w4 := set_agents (insert self (AnAnimal (with_energy (energy a3 / 2) a3))) w3).
    change (next_id w3) with (next_id w4).
    apply well_formed_created; [reflexivity|].
    apply (well_formed_update self (AnAnimal a3)); auto.
Qed.

Lemma well_formed_for_each_fire l : forall w (g : G) u w' g',
  well_formed w -> for_each l fire w g = Ok (u, w', g') -> well_formed w'.
Proof.
  induction l as [|e l IH]; intros w g u w' g' Hw E; simpl in E.
  - injection E as _ <- _. exact Hw.
  - apply bind_inv in E as (u1 & w1 & g1 & E1 & E).
    apply (IH w1 g1 u w' g'); [|exact E].
    unfold fire, set_fully_grown in E1.
    apply bind_inv in E1 as (p & w0 & g0 & Ep & E1).
    apply get_grass_inv in Ep as (Hp & -> & ->).
    injection E1 as _ <- _.
    apply (well_formed_update (ev_target e) (AGrassPatch p)); auto.
Qed.

Lemma well_formed_advance_clock w (g : G) u w' g' :
  well_formed w -> advance_clock w g = Ok (u, w', g') -> well_formed w'.
Proof.
  intros Hw E. unfold advance_clock in E.
  erewrite bind_eq in E by reflexivity.
  unfold fire_due in E. erewrite bind_eq in E by reflexivity.
  erewrite bind_eq in E by reflexivity.
  eapply well_formed_for_each_fire; [|exact E].
  now apply (well_formed_ext w).
Qed.

Lemma well_formed_evolution bound w0 w :
  well_formed w0 -> evolution (G := G) bound w0 w -> well_formed w.
Proof.
  intros W0. induction 1 as [|w g cd r c i w' g' Hev IH E
                             |w g sp e p f c i w' g' Hev IH E
                             |w g self w' g' Hev IH E
                             |w g w' g' Hev IH E Hb].
  - exact W0.
  - apply GrassPatch_init_inv in E as (_ & _ & -> & _).
    unfold planted. cbv zeta.
    pose proof (well_formed_created
                  (AGrassPatch (mkGrassPatch (cd =? 0)%Z r None)) c w eq_refl IH) as Hc.
    destruct (cd =? 0)%Z; [exact Hc|].
    revert Hc. apply well_formed_ext; reflexivity.
  - rewrite Animal_init_Ok in E. injection E as _ <- _.
    now apply well_formed_created.
  - eapply well_formed_step; eauto.
  - eapply well_formed_advance_clock; eauto.
Qed.

(** In every reachable model identities are fresh and the occupant lists
    consistent. *)
Lemma reachable_well_formed w : reachable (G := G) w -> well_formed w.
Proof.
  intros (nb & t0 & Hev).
  eapply well_formed_evolution; [apply well_formed_initial|exact Hev].
Qed.

(** ** More on the step: its trace *)

(** Every successful step, phase by phase: the move, the cost, the feed of
    the animal's class, and the final test run on the model after the feed. *)
Lemma step_trace self a0 w (g : G) u w' g' :
  agents w !! self = Some (AnAnimal a0) ->
  step self w g = Ok (u, w', g') ->
  exists w1 a1 w3 a3 g3,
    (w1 = w \/ exists c', w1 = relocate self (AnAnimal a0) (Some c') w) /\
    agents w1 !! self = Some (AnAnimal a1) /\
    (a1 = a0 \/ exists c', a1 = with_cell (Some c') a0) /\
    let a2 := with_energy (energy a1 - 1) a1 in
    let w2 := set_agents (insert self (AnAnimal a2)) w1 in
    ((w3 = w2 /\ a3 = a2) \/
     (species a0 = Sheep /\
      exists q gq, agents w2 !! q = Some (AGrassPatch gq) /\ fully_grown gq = true /\
                   (0 <= grass_regrowth_time gq)%Z /\
                   w3 = eaten self a2 q gq w2 /\
                   a3 = with_energy (energy a2 + energy_from_food a2) a2) \/
     (species a0 = Wolf /\
      exists s sa, agents w2 !! s = Some (AnAnimal sa) /\ species sa = Sheep /\
                   self <> s /\ w3 = devoured self a2 s sa w2 /\
                   a3 = with_energy (energy a2 + energy_from_food a2) a2)) /\
    agents w3 !! self = Some (AnAnimal a3) /\
    resolve self w3 g3 = Ok (u, w', g').
Proof.
  intros Hself E. rewrite step_phases in E.
  erewrite bind_eq in E by (apply get_animal_Ok; eassumption).
  apply bind_inv in E as (u1 & w1 & g1 & Hmove & E).
  apply bind_inv in E as (u2 & w2 & g2 & Hmet & E).
  apply bind_inv in E as (u3 & w3 & g3 & Hfeed & E).
  assert (F1 : exists a1,
             (w1 = w \/ exists c', w1 = relocate self (AnAnimal a0) (Some c') w) /\
             agents w1 !! self = Some (AnAnimal a1) /\
             (a1 = a0 \/ exists c', a1 = with_cell (Some c') a0)).
  { destruct (move_inv _ _ _ _ _ _ _ _ Hself Hmove) as (c & Hc & [[-> _]|(c' & _ & ->)]).
    - exists a0. auto.
    - exists (with_cell (Some c') a0). split; [eauto|].
      rewrite agents_relocate, lookup_insert_eq. eauto. }
  destruct F1 as (a1 & H1 & Ha1 & Ha10).
  assert (Hsp1 : species a1 = species a0).
  { destruct Ha10 as [->|(c' & ->)]; reflexivity. }
  apply metabolize_inv in Hmet as (a1' & Ha1' & -> & ->).
  rewrite Ha1 in Ha1'. injection Ha1' as <-.
  set (a2 := with_energy (energy a1 - 1) a1) in *.
  set (w2 := set_agents (insert self (AnAnimal a2)) w1) in *.
  assert (Ha2 : agents w2 !! self = Some (AnAnimal a2)) by apply lookup_insert_eq.
  exists w1, a1, w3.
  destruct (species a0) eqn:Hsp; simpl in Hfeed.
  - apply Sheep_feed_inv in Hfeed
      as (a' & c & q & gq & Ha' & Hc & Hfind & Hq & -> & Hcase).
    rewrite Ha2 in Ha'. injection Ha' as <-.
    destruct Hcase as [[_ ->]|(Hgrown & Hr & ->)].
    + exists a2, g1. repeat (split; [assumption|]). split; [left; auto|]. auto.
    + exists (with_energy (energy a2 + energy_from_food a2) a2), g1.
      repeat (split; [assumption|]).
      split; [right; left; split; [reflexivity|]; exists q, gq; auto|].
      split; [|exact E].
      assert (Hne : self <> q) by (intros ->; congruence).
      unfold eaten. simpl.
      rewrite lookup_insert_ne by congruence. apply lookup_insert_eq.
  - apply Wolf_feed_inv in Hfeed as (a' & c & Ha' & Hc & Hcase).
    rewrite Ha2 in Ha'. injection Ha' as <-.
    destruct Hcase as [(_ & -> & ->)|(s & sa & Hin & Hsa & Hspa & Hw')].
    + exists a2, g1. repeat (split; [assumption|]). split; [left; auto|]. auto.
    + assert (Hne : self <> s).
      { intros ->. rewrite Ha2 in Hsa. injection Hsa as <-.
        subst a2. simpl in Hspa. congruence. }
      rewrite (Hw' Hne) in *.
      exists (with_energy (energy a2 + energy_from_food a2) a2), g3.
      repeat (split; [assumption|]).
      split; [right; right; split; [reflexivity|]; exists s, sa; auto|].
      split; [|exact E].
      rewrite agents_devoured.
      rewrite lookup_delete_ne by congruence. apply lookup_insert_eq.
Qed.


(** The animal as the final test of a step finds it: its class and its
    parameters are those it started with, its energy is the initial energy
    less the cost of the step, plus the gain from food if it ate; no
    identity has been handed out so far. *)
Lemma step_outcome self a0 w (g : G) u w' g' :
  agents w !! self = Some (AnAnimal a0) ->
  step self w g = Ok (u, w', g') ->
  exists w3 a3 g3,
    agents w3 !! self = Some (AnAnimal a3) /\
    species a3 = species a0 /\
    p_reproduce a3 = p_reproduce a0 /\
    energy_from_food a3 = energy_from_food a0 /\
    (energy a3 = (energy a0 - 1)%Q \/
     energy a3 = (energy a0 - 1 + energy_from_food a0)%Q) /\
    next_id w3 = next_id w /\
    resolve self w3 g3 = Ok (u, w', g').
Proof.
  intros Hself E.
  destruct (step_trace _ _ _ _ _ _ _ Hself E)
    as (w1 & a1 & w3 & a3 & g3 & Hw1 & Ha1 & Ha10 & Hfeed & Ha3 & Hres).
  cbv zeta in Hfeed.
  exists w3, a3, g3. split; [exact Ha3|].
  assert (Hn1 : next_id w1 = next_id w).
  { destruct Hw1 as [->|(c' & ->)]; [reflexivity|apply next_id_relocate]. }
  assert (Hattr : species a1 = species a0 /\ p_reproduce a1 = p_reproduce a0 /\
                  energy_from_food a1 = energy_from_food a0 /\ energy a1 = energy a0).
  { destruct Ha10 as [->|(c' & ->)]; auto. }
  destruct Hattr as (Hsp & Hp & Hf & He).
  assert (Hn3 : next_id w3 = next_id w).
  { rewrite <- Hn1.
    destruct Hfeed as [[-> _]|[(_ & q & gq & _ & _ & _ & -> & _)
                              |(_ & s & sa & _ & _ & _ & -> & _)]];
      [reflexivity|reflexivity|now rewrite next_id_devoured]. }
  assert (Hattr : species a3 = species a1 /\ p_reproduce a3 = p_reproduce a1 /\
                  energy_from_food a3 = energy_from_food a1 /\
                  (energy a3 = (energy a1 - 1)%Q \/
                   energy a3 = (energy a1 - 1 + energy_from_food a1)%Q)).
  { destruct Hfeed as [[_ ->]|[(_ & q & gq & _ & _ & _ & _ & ->)
                              |(_ & s & sa & _ & _ & _ & _ & ->)]];
      simpl; auto. }
  destruct Hattr as (Hsp3 & Hp3 & Hf3 & He3).
  rewrite Hsp3, Hp3, Hf3. rewrite He, Hf in He3. auto 10.
Qed.


(** X2: the two ends of the reproduction probability.  The draw
    [random()] lies in [0, 1), so an animal whose [p_reproduce] is zero or
    less never gets offspring from a step, and an animal whose [p_reproduce]
    is one or more gets offspring from every step it survives. *)
Theorem step_reproduction_bounds self a0 w (g : G) w' g' :
  agents w !! self = Some (AnAnimal a0) ->
  step self w g = Ok (tt, w', g') ->
  ((p_reproduce a0 <= 0)%Q -> next_id w' = next_id w) /\
  ((1 <= p_reproduce a0)%Q -> is_Some (agents w' !! self) ->
   next_id w' = S (next_id w)).
Proof.
  intros Hself E.
  destruct (step_outcome _ _ _ _ _ _ _ Hself E)
    as (w3 & a3 & g3 & Ha3 & _ & Hp & _ & _ & Hn & Hres).
  destruct (rs_random_range g3) as [Hlo Hhi].
  destruct (Qlt_le_dec (energy a3) 0) as [Hneg|Hpos].
  - rewrite (resolve_dies self a3) in Hres by assumption.
    injection Hres as <- _. split.
    + intros _. rewrite <- Hn. exact (next_id_relocate self (AnAnimal a3) None w3).
    + intros _ [x Hx]. exfalso. revert Hx.
      change (agents (set_agents ?f ?m)) with (f (agents m)).
      now rewrite lookup_delete_eq.
  - apply Qle_not_lt in Hpos.
    rewrite (resolve_survives self a3) in Hres by assumption.
    destruct (Qltb (fst (rs_random g3)) (p_reproduce a3)) eqn:Eb.
    + apply Qltb_true in Eb. rewrite Hp in Eb.
      rewrite (spawn_offspring_Ok self a3) in Hres by assumption.
      injection Hres as <- _. rewrite next_id_spawned, Hn. split; [|reflexivity].
      intros Hle. exfalso.
      apply (Qlt_irrefl 0). apply (Qle_lt_trans _ _ _ Hlo).
      exact (Qlt_le_trans _ _ _ Eb Hle).
    + apply Qltb_false in Eb. rewrite Hp in Eb.
      injection Hres as <- _. split; [auto|].
      intros Hge _. exfalso.
      apply (Qlt_irrefl 1). apply (Qle_lt_trans _ _ _ (Qle_trans _ _ _ Hge Eb) Hhi).
Qed.


(** A wolf's step queues no event. *)
Lemma Wolf_step_event_list self a0 w (g : G) u w' g' :
  agents w !! self = Some (AnAnimal a0) ->
  species a0 = Wolf ->
  step self w g = Ok (u, w', g') ->
  event_list w' = event_list w.
Proof.
  intros Hself Hwolf E.
  destruct (step_trace _ _ _ _ _ _ _ Hself E)
    as (w1 & a1 & w3 & a3 & g3 & Hw1 & Ha1 & Ha10 & Hfeed & Ha3 & Hres).
  cbv zeta in Hfeed.
  assert (He1 : event_list w1 = event_list w).
  { destruct Hw1 as [->|(c' & ->)]; [reflexivity|apply event_list_relocate]. }
  assert (He3 : event_list w3 = event_list w).
  { rewrite <- He1.
    destruct Hfeed as [[-> _]|[(Hsheep & _)|(_ & s & sa & _ & _ & _ & -> & _)]];
      [reflexivity|congruence|now rewrite event_list_devoured]. }
  rewrite <- He3.
  apply resolve_inv in Hres as (a3' & Ha3' & [->|[->| ->]]).
  - exact (event_list_relocate self (AnAnimal a3') None w3).
  - reflexivity.
  - apply event_list_spawned.
Qed.

(** X3: what a step does to the grass.  A step never moves the clock,
    never creates or removes a patch, never changes a regrowth time and never
    makes a patch grow.  A wolf's step leaves every patch and the event list
    as they were; a sheep's step does the same or turns exactly one fully
    grown patch into an eaten one and queues exactly one event, for that
    patch, one regrowth time from now. *)
Theorem step_grass_by_class self a0 w (g : G) w' g' :
  fresh_ids w ->
  agents w !! self = Some (AnAnimal a0) ->
  step self w g = Ok (tt, w', g') ->
  time w' = time w /\
  (((forall p, grass_state w' p = grass_state w p) /\
    event_list w' = event_list w) \/
   (species a0 = Sheep /\
    exists q r,
      grass_state w q = Some (true, r) /\
      (forall p, grass_state w' p
                 = if decide (p = q) then Some (false, r) else grass_state w p) /\
      event_list w' = event_list w ++ [mkEvent (time w + r) q])).
Proof.
  intros Hfresh Hself E.
  assert (Hpatch : forall p, next_id w <= p -> grass_state w p = None).
  { intros p Hp. unfold grass_state, grass_of.
    destruct (agents w !! p) as [x|] eqn:Hx; [|reflexivity].
    assert (p < next_id w) by (apply Hfresh; rewrite Hx; eauto). lia. }
  destruct (step_grass _ _ _ _ _ _ Hpatch E)
    as [(Hg & He & Ht & _)|(q & r & Hq & Hr & Hg & He & Ht & _)].
  - split; [exact Ht|]. left. auto.
  - split; [exact Ht|]. right. split.
    + destruct (species a0) eqn:Hsp; [reflexivity|]. exfalso.
      pose proof (Wolf_step_event_list _ _ _ _ _ _ _ Hself Hsp E) as He'.
      rewrite He in He'. apply (f_equal (@length _)) in He'.
      rewrite length_app in He'. simpl in He'. lia.
    + exists q, r. auto.
Qed.


(** X4: a wolf next to sheep always gets one.  When some neighbouring
    cell of a wolf holds a sheep, the wolf's step returns, and it has removed
    a sheep that stood in a neighbouring cell: the move goes to a cell with
    sheep and the feed that follows finds one there.  The wolf itself is then
    in that cell, unless the step has removed it for lack of energy. *)
Theorem Wolf_step_hunts self a c w (g : G) :
  fresh_ids w ->
  agents w !! self = Some (AnAnimal a) ->
  species a = Wolf ->
  cell a = Some c ->
  cells_with_sheep w c <> [] ->
  exists w' g' c' s,
    step self w g = Ok (tt, w', g') /\
    c' ∈ neighborhood w c /\
    s ∈ occupants w c' /\
    is_sheep w s = true /\
    agents w' !! s = None /\
    (agents w' !! self = None \/
     exists a', agents w' !! self = Some (AnAnimal a') /\ cell a' = Some c').
Proof.
  intros Hfresh Hself Hwolf Hcell Hsheep.
  (* the move *)
  destruct (Wolf_target_cells_cases w c) as [[_ Ht]|[Hnil _]]; [|contradiction].
  destruct (random_choice_spec (Wolf_target_cells w c) w g) as (c' & _ & Hc' & _).
  { now rewrite Ht. }
  pose proof (Wolf_move_go _ _ _ _ _ _ Hself Hcell Hc') as Hmove.
  apply list_elem_of_lookup_2 in Hc'. rewrite Ht in Hc'.
  apply elem_of_cells_with_sheep in Hc' as [Hnb Hex].
  apply existsb_true_elem in Hex as (s0 & Hs0 & Hs0sheep).
  set (w1 := relocate self (AnAnimal a) (Some c') w) in *.
  set (g1 := snd (rs_randbelow (length (Wolf_target_cells w c)) g)) in *.
  set (a1 := with_cell (Some c') a).
  assert (Ha1 : agents w1 !! self = Some (AnAnimal a1)).
  { unfold w1. rewrite agents_relocate. apply lookup_insert_eq. }
  (* the cost *)
  pose proof (metabolize_Ok _ _ _ g1 Ha1) as Hmet.
  set (a2 := with_energy (energy a1 - 1) a1) in *.
  set (w2 := set_agents (insert self (AnAnimal a2)) w1) in *.
  assert (Ha2 : agents w2 !! self = Some (AnAnimal a2)) by apply lookup_insert_eq.
  assert (Hag : forall i, i <> self -> agents w2 !! i = agents w !! i).
  { intros i Hi. unfold w2.
    change (agents (set_agents ?f ?m)) with (f (agents m)).
    rewrite lookup_insert_ne by congruence.
    unfold w1. rewrite agents_relocate. now rewrite lookup_insert_ne by congruence. }
  assert (Hnot : forall i, is_sheep w2 i = true -> i <> self).
  { intros i Hi ->. unfold is_sheep in Hi. rewrite Ha2 in Hi.
    simpl in Hi. rewrite Hwolf in Hi. discriminate. }
  assert (Hsame : forall i, i <> self -> is_sheep w2 i = is_sheep w i).
  { intros i Hi. unfold is_sheep. now rewrite Hag. }
  assert (Hs0' : s0 <> self).
  { intros ->. unfold is_sheep in Hs0sheep. rewrite Hself, Hwolf in Hs0sheep.
    discriminate. }
  (* the feed *)
  assert (Hne : sheep_at w2 c' <> []).
  { assert (Hin : s0 ∈ sheep_at w2 c'); [|intros Hn; rewrite Hn in Hin; inversion Hin].
    apply elem_of_sheep_at. split; [|now rewrite Hsame].
    unfold w2. rewrite occupants_set_agents. unfold w1.
    rewrite occupants_relocate. cbv zeta.
    rewrite decide_True by reflexivity. apply elem_of_app. left.
    destruct (decide (agent_cell (AnAnimal a) = Some c'));
      [now apply elem_of_remove_first_ne|assumption]. }
  destruct (random_choice_spec (sheep_at w2 c') w2 g1 Hne) as (s & _ & Hs & _).
  pose proof Hs as Hsin. apply list_elem_of_lookup_2 in Hsin.
  apply elem_of_sheep_at in Hsin as [Hsocc Hssheep].
  pose proof (Hnot _ Hssheep) as Hsne.
  destruct (is_sheep_animal _ _ Hssheep) as (sa & Hsa & Hspa).
  assert (Hcell2 : cell a2 = Some c') by reflexivity.
  assert (Hneq : self <> s) by congruence.
  pose proof (Wolf_feed_eats _ _ _ _ _ _ g1 Ha2 Hcell2 Hs Hsa Hneq) as Hfeed.
  set (w3 := devoured self a2 s sa w2) in *.
  set (g3 := snd (rs_randbelow (length (sheep_at w2 c')) g1)) in *.
  set (a3 := with_energy (energy a2 + energy_from_food a2) a2).
  assert (Ha3 : agents w3 !! self = Some (AnAnimal a3)).
  { unfold w3. rewrite agents_devoured.
    rewrite lookup_delete_ne by congruence. apply lookup_insert_eq. }
  assert (Hs3 : agents w3 !! s = None).
  { unfold w3. rewrite agents_devoured. apply lookup_delete_eq. }
  assert (Hn3 : next_id w3 = next_id w).
  { unfold w3. rewrite next_id_devoured. unfold w2, w1.
    change (next_id (set_agents ?f ?m)) with (next_id m). apply next_id_relocate. }
  assert (Hslt : s < next_id w).
  { apply Hfresh. rewrite <- Hag by assumption. rewrite Hsa. eauto. }
  assert (Hselflt : self < next_id w) by (apply Hfresh; rewrite Hself; eauto).
  (* death or reproduction *)
  assert (Hstep : step self w g = resolve self w3 g3).
  { apply (step_resolve self a w g w1 g1 w2 g1 w3 g3); rewrite ?Hwolf; assumption. }
  assert (Hocc : s ∈ occupants w c').
  { unfold w2 in Hsocc. rewrite occupants_set_agents in Hsocc.
    apply elem_of_occupants_relocate in Hsocc as [->|Hin]; [congruence|assumption]. }
  rewrite Hstep.
  destruct (Qlt_le_dec (energy a3) 0) as [Hneg|Hpos].
  - rewrite (resolve_dies self a3) by assumption.
    eexists _, _, c', s. split; [reflexivity|].
    repeat (split; [first [assumption | now rewrite <- Hsame]|]).
    change (agents (set_agents ?f ?m)) with (f (agents m)).
    rewrite agents_relocate. split.
    + rewrite lookup_delete_ne, lookup_insert_ne by congruence. exact Hs3.
    + left. apply lookup_delete_eq.
  - apply Qle_not_lt in Hpos. rewrite (resolve_survives self a3) by assumption.
    destruct (Qltb (fst (rs_random g3)) (p_reproduce a3)).
    + rewrite (spawn_offspring_Ok self a3) by assumption.
      eexists _, _, c', s. split; [reflexivity|].
      repeat (split; [first [assumption | now rewrite <- Hsame]|]).
      rewrite agents_spawned, Hn3. split.
      * rewrite !lookup_insert_ne by lia. exact Hs3.
      * right. eexists. rewrite lookup_insert_ne by lia.
        split; [apply lookup_insert_eq|reflexivity].
    + eexists _, _, c', s. split; [reflexivity|].
      repeat (split; [first [assumption | now rewrite <- Hsame]|]).
      right. exists a3. split; [exact Ha3|reflexivity].
Qed.


Lemma find_ext {A} (f f' : A -> bool) (l : list A) :
  (forall x, f x = f' x) -> List.find f l = List.find f' l.
Proof.
  intros Hf. induction l as [|x l IH]; [reflexivity|].
  simpl. now rewrite Hf, IH.
Qed.

Lemma is_grass_eaten self a q gq w i :
  agents w !! self = Some (AnAnimal a) ->
  agents w !! q = Some (AGrassPatch gq) ->
  is_grass (eaten self a q gq w) i = is_grass w i.
Proof.
  intros Hself Hq. unfold is_grass, eaten. simpl.
  destruct (decide (i = q)) as [->|Hiq].
  - now rewrite lookup_insert_eq, Hq.
  - rewrite lookup_insert_ne by congruence.
    destruct (decide (i = self)) as [->|His].
    + now rewrite lookup_insert_eq, Hself.
    + now rewrite lookup_insert_ne by congruence.
Qed.

(** X5: a patch feeds one sheep.  When a sheep eats the fully grown
    patch of its cell, a feed by any sheep of that cell that follows (the
    same sheep or another) returns without a change: it finds the same
    patch, now eaten, gains nothing and queues no second event. *)
Theorem Sheep_feed_twice s1 a1 s2 a2 c q gq w (g g2 : G) :
  agents w !! s1 = Some (AnAnimal a1) ->
  cell a1 = Some c ->
  agents w !! s2 = Some (AnAnimal a2) ->
  cell a2 = Some c ->
  List.find (is_grass w) (occupants w c) = Some q ->
  agents w !! q = Some (AGrassPatch gq) ->
  fully_grown gq = true ->
  (0 <= grass_regrowth_time gq)%Z ->
  exists w1,
    Sheep_feed s1 w g = Ok (tt, w1, g) /\
    agents w1 !! s1
      = Some (AnAnimal (with_energy (energy a1 + energy_from_food a1) a1)) /\
    event_list w1 = event_list w ++ [mkEvent (time w + grass_regrowth_time gq) q] /\
    Sheep_feed s2 w1 g2 = Ok (tt, w1, g2).
Proof.
  intros H1 Hc1 H2 Hc2 Hfind Hq Hgrown Hr.
  exists (eaten s1 a1 q gq w).
  assert (Hne1 : s1 <> q) by (intros ->; congruence).
  assert (Hne2 : s2 <> q) by (intros ->; congruence).
  assert (Ha1 : agents (eaten s1 a1 q gq w) !! s1
                = Some (AnAnimal (with_energy (energy a1 + energy_from_food a1) a1))).
  { unfold eaten. simpl. rewrite lookup_insert_ne by congruence.
    apply lookup_insert_eq. }
  split; [now apply (Sheep_feed_grown s1 a1 c q gq)|].
  split; [exact Ha1|]. split; [reflexivity|].
  assert (Hfind' : List.find (is_grass (eaten s1 a1 q gq w))
                     (occupants (eaten s1 a1 q gq w) c) = Some q).
  { rewrite <- Hfind. apply find_ext. intros i. now apply is_grass_eaten. }
  assert (Hq' : agents (eaten s1 a1 q gq w) !! q
                = Some (AGrassPatch (with_fully_grown false gq))).
  { unfold eaten. simpl. apply lookup_insert_eq. }
  destruct (decide (s2 = s1)) as [->|Hs].
  - apply (Sheep_feed_not_grown s1 _ c q (with_fully_grown false gq) _ g2 Ha1); auto.
  - assert (Ha2 : agents (eaten s1 a1 q gq w) !! s2 = Some (AnAnimal a2)).
    { unfold eaten. simpl. now rewrite !lookup_insert_ne by congruence. }
    apply (Sheep_feed_not_grown s2 _ c q (with_fully_grown false gq) _ g2 Ha2); auto.
Qed.

(** X6: an animal without a cell cannot act.  The constructor called
    with its default [cell=None] registers the animal under the next free
    identity and enters it in no cell; the [move] and the [feed] of either
    class and the whole [step] of such an animal then fail with
    [AttributeError]. *)
Theorem Animal_init_without_cell sp e p f w (g : G) :
  exists w',
    Animal_init sp e p f None w g = Ok (next_id w, w', g) /\
    agents w' !! next_id w = Some (AnAnimal (mkAnimal sp e p f None)) /\
    cell_agents w' = cell_agents w /\
    move sp (next_id w) w' g = Err AttributeError /\
    feed sp (next_id w) w' g = Err AttributeError /\
    step (next_id w) w' g = Err AttributeError.
Proof.
  eexists. split; [apply Animal_init_Ok|].
  set (a := mkAnimal sp e p f None).
  set (w' := relocate _ _ _ _).
  assert (Ha : agents w' !! next_id w = Some (AnAnimal a)).
  { unfold w'. rewrite agents_relocate. apply lookup_insert_eq. }
  split; [exact Ha|]. split; [reflexivity|].
  assert (Hmove : move sp (next_id w) w' g = Err AttributeError).
  { destruct sp; simpl; unfold Sheep_move, Wolf_move;
      (erewrite bind_eq by (apply get_animal_Ok; exact Ha));
      apply bind_err; reflexivity. }
  split; [exact Hmove|]. split.
  - destruct sp; simpl; unfold Sheep_feed, Wolf_feed;
      (erewrite bind_eq by (apply get_animal_Ok; exact Ha));
      apply bind_err; reflexivity.
  - unfold step.
    erewrite bind_eq by (apply get_animal_Ok; exact Ha).
    apply bind_err. exact Hmove.
Qed.


(** X7: a step spares the others.  Whatever an animal's step does to
    the animal itself, every other animal comes out of it exactly as it went
    in (same energy, same cell), with one exception: a wolf's step may remove
    one sheep.  No step removes a patch, and no step removes two agents other
    than the stepping animal. *)
Theorem step_spares_others self a0 w (g : G) w' g' :
  fresh_ids w ->
  agents w !! self = Some (AnAnimal a0) ->
  step self w g = Ok (tt, w', g') ->
  (forall i x, i <> self -> agents w !! i = Some (AnAnimal x) ->
     agents w' !! i = Some (AnAnimal x) \/
     (agents w' !! i = None /\ species a0 = Wolf /\ species x = Sheep)) /\
  (forall i p, agents w !! i = Some (AGrassPatch p) -> is_Some (agents w' !! i)) /\
  (forall i j, i <> self -> j <> self ->
     is_Some (agents w !! i) -> is_Some (agents w !! j) ->
     agents w' !! i = None -> agents w' !! j = None -> i = j).
Proof.
  intros Hfresh Hself E.
  destruct (step_trace _ _ _ _ _ _ _ Hself E)
    as (w1 & a1 & w3 & a3 & g3 & Hw1 & Ha1 & Ha10 & Hfeed & Ha3 & Hres).
  cbv zeta in Hfeed.
  set (a2 := with_energy (energy a1 - 1) a1) in *.
  set (w2 := set_agents (insert self (AnAnimal a2)) w1) in *.
  assert (H2 : forall i, i <> self -> agents w2 !! i = agents w !! i).
  { intros i Hi. unfold w2.
    change (agents (set_agents ?f ?m)) with (f (agents m)).
    rewrite lookup_insert_ne by congruence.
    destruct Hw1 as [->|(c' & ->)]; [reflexivity|].
    rewrite agents_relocate. now rewrite lookup_insert_ne by congruence. }
  assert (Hn3 : next_id w3 = next_id w).
  { assert (Hn1 : next_id w1 = next_id w).
    { destruct Hw1 as [->|(c' & ->)]; [reflexivity|apply next_id_relocate]. }
    rewrite <- Hn1.
    destruct Hfeed as [[-> _]|[(_ & q & gq & _ & _ & _ & -> & _)
                              |(_ & s & sa & _ & _ & _ & -> & _)]];
      [reflexivity|reflexivity|now rewrite next_id_devoured]. }
  assert (H' : forall i, i <> self -> is_Some (agents w !! i) ->
                 agents w' !! i = agents w3 !! i).
  { intros i Hi Hsome. apply Hfresh in Hsome.
    apply resolve_inv in Hres as (a3' & Ha3' & [->|[->| ->]]).
    - change (agents (set_agents ?f ?m)) with (f (agents m)).
      rewrite agents_relocate.
      now rewrite lookup_delete_ne, lookup_insert_ne by congruence.
    - reflexivity.
    - rewrite agents_spawned, Hn3. now rewrite !lookup_insert_ne by lia. }
  assert (H3 : forall i, i <> self ->
                 (agents w3 !! i = agents w !! i) \/
                 (exists gq, agents w !! i = Some (AGrassPatch gq) /\
                             agents w3 !! i
                             = Some (AGrassPatch (with_fully_grown false gq))) \/
                 (exists sa, agents w !! i = Some (AnAnimal sa) /\
                             species sa = Sheep /\ species a0 = Wolf /\
                             agents w3 !! i = None /\
                             forall j, j <> self -> j <> i ->
                                       agents w3 !! j = agents w !! j)).
  { intros i Hi.
    destruct Hfeed as [[-> _]|[(_ & q & gq & Hq & _ & _ & -> & _)
                              |(Hwolf & s & sa & Hsa & Hspa & Hne & -> & _)]].
    - left. now apply H2.
    - assert (Hqs : q <> self) by (intros ->; unfold w2 in Hq; simpl in Hq;
                                   rewrite lookup_insert_eq in Hq; discriminate).
      unfold eaten. simpl. destruct (decide (i = q)) as [->|Hiq].
      + right. left. exists gq. rewrite <- H2 by assumption.
        split; [exact Hq|apply lookup_insert_eq].
      + left. rewrite !lookup_insert_ne by congruence.
        rewrite <- H2 by assumption. unfold w2. simpl.
        now rewrite lookup_insert_ne by congruence.
    - rewrite agents_devoured. destruct (decide (i = s)) as [->|His].
      + right. right. exists sa. rewrite <- H2 by assumption.
        split; [exact Hsa|]. split; [exact Hspa|]. split; [exact Hwolf|].
        split; [apply lookup_delete_eq|].
        intros j Hj Hjs. rewrite lookup_delete_ne, lookup_insert_ne by congruence.
        rewrite <- H2 by assumption. unfold w2. simpl.
        now rewrite lookup_insert_ne by congruence.
      + left. rewrite lookup_delete_ne, lookup_insert_ne by congruence.
        rewrite <- H2 by assumption. unfold w2. simpl.
        now rewrite lookup_insert_ne by congruence. }
  split; [|split].
  - intros i x Hi Hx. rewrite H' by (rewrite ?Hx; eauto).
    destruct (H3 i Hi) as [Heq|[(gq & Hgq & _)|(sa & Hsa & Hspa & Hwolf & Hnone & _)]].
    + left. congruence.
    + congruence.
    + right. rewrite Hsa in Hx. injection Hx as <-. auto.
  - intros i p Hp.
    assert (Hi : i <> self) by (intros ->; congruence).
    rewrite H' by (rewrite ?Hp; eauto).
    destruct (H3 i Hi) as [Heq|[(gq & _ & Hgq)|(sa & Hsa & _)]].
    + rewrite Heq, Hp. eauto.
    + rewrite Hgq. eauto.
    + congruence.
  - intros i j Hi Hj Hsi Hsj Hni Hnj.
    rewrite H' in Hni by assumption. rewrite H' in Hnj by assumption.
    destruct (H3 i Hi) as [Heq|[(gq & _ & Hgq)|(sa & _ & _ & _ & _ & Hrest)]].
    + rewrite Heq in Hni. rewrite Hni in Hsi. now destruct Hsi.
    + congruence.
    + destruct (decide (j = i)) as [->|Hji]; [reflexivity|].
      rewrite (Hrest j Hj Hji) in Hnj. rewrite Hnj in Hsj. now destruct Hsj.
Qed.


(** X8: a sheep next to safe grass always grazes.  [Sheep.move] looks
    for a fully grown patch anywhere among a cell's agents, [Sheep.feed]
    takes the first patch of the cell; where a cell holds at most one patch
    the two agree.  Then a sheep with a wolf-free neighbouring cell that
    holds fully grown grass completes its step, having moved to such a cell
    and eaten its patch: the patch is eaten afterwards and its regrowth is
    queued (regrowth times being non-negative, as scheduling requires). *)
Theorem Sheep_step_grazes self a c w (g : G) :
  fresh_ids w ->
  agents w !! self = Some (AnAnimal a) ->
  species a = Sheep ->
  cell a = Some c ->
  cells_with_grass w c <> [] ->
  one_patch_per_cell w ->
  regrowth_times_valid w ->
  exists w' g' c' q r,
    step self w g = Ok (tt, w', g') /\
    c' ∈ neighborhood w c /\
    existsb (is_wolf w) (occupants w c') = false /\
    q ∈ occupants w c' /\
    grass_state w q = Some (true, r) /\
    grass_state w' q = Some (false, r) /\
    event_list w' = event_list w ++ [mkEvent (time w + r) q].
Proof.
  intros Hfresh Hself Hsheep Hcell Hgrass Hone Hreg.
  (* the move *)
  destruct (Sheep_target_cells_cases w c) as [[_ Ht]|[Hnil _]]; [|contradiction].
  destruct (random_choice_spec (Sheep_target_cells w c) w g) as (c' & _ & Hc' & _).
  { now rewrite Ht. }
  pose proof Hc' as Hin. apply list_elem_of_lookup_2 in Hin. rewrite Ht in Hin.
  apply elem_of_cells_with_grass in Hin as [Hsafe Hex].
  assert (Hnonempty : cells_without_wolves w c <> []).
  { intros Hn. rewrite Hn in Hsafe. inversion Hsafe. }
  pose proof (Sheep_move_go _ _ _ _ _ g Hself Hcell Hnonempty Hc') as Hmove.
  apply elem_of_cells_without_wolves in Hsafe as [Hnb Hnowolf].
  apply existsb_true_elem in Hex as (q & Hq & Hgrown).
  unfold is_grown_grass in Hgrown.
  destruct (agents w !! q) as [[?|gq]|] eqn:Hgq; try discriminate.
  assert (Hqs : q <> self) by (intros ->; congruence).
  set (w1 := relocate self (AnAnimal a) (Some c') w) in *.
  set (g1 := snd (rs_randbelow (length (Sheep_target_cells w c)) g)) in *.
  set (a1 := with_cell (Some c') a).
  assert (Ha1 : agents w1 !! self = Some (AnAnimal a1)).
  { unfold w1. rewrite agents_relocate. apply lookup_insert_eq. }
  (* the cost *)
  pose proof (metabolize_Ok _ _ _ g1 Ha1) as Hmet.
  set (a2 := with_energy (energy a1 - 1) a1) in *.
  set (w2 := set_agents (insert self (AnAnimal a2)) w1) in *.
  assert (Ha2 : agents w2 !! self = Some (AnAnimal a2)) by apply lookup_insert_eq.
  assert (Hag : forall i, i <> self -> agents w2 !! i = agents w !! i).
  { intros i Hi. unfold w2.
    change (agents (set_agents ?f ?m)) with (f (agents m)).
    rewrite lookup_insert_ne by congruence.
    unfold w1. rewrite agents_relocate. now rewrite lookup_insert_ne by congruence. }
  assert (Hisg : forall i, is_grass w2 i = is_grass w i).
  { intros i. unfold is_grass. destruct (decide (i = self)) as [->|Hi].
    - now rewrite Ha2, Hself.
    - now rewrite Hag. }
  (* the feed *)
  assert (Hq2 : q ∈ occupants w2 c').
  { unfold w2. rewrite occupants_set_agents. unfold w1.
    rewrite occupants_relocate. cbv zeta.
    rewrite decide_True by reflexivity. apply elem_of_app. left.
    destruct (decide (agent_cell (AnAnimal a) = Some c'));
      [now apply elem_of_remove_first_ne|assumption]. }
  assert (Hqg : is_grass w q = true) by (unfold is_grass; now rewrite Hgq).
  destruct (find_is_grass_Some w2 (occupants w2 c') q Hq2) as (q' & Hfind).
  { now rewrite Hisg. }
  assert (Hq' : q' = q).
  { destruct (find_is_grass _ _ _ Hfind) as (Hin' & gq' & Hgq').
    assert (Hne : q' <> self) by (intros ->; congruence).
    apply (Hone c').
    - unfold w2 in Hin'. rewrite occupants_set_agents in Hin'.
      apply elem_of_occupants_relocate in Hin' as [->|Hin']; [congruence|assumption].
    - assumption.
    - rewrite <- Hisg. unfold is_grass. now rewrite Hgq'.
    - assumption. }
  subst q'.
  assert (Hgq2 : agents w2 !! q = Some (AGrassPatch gq)) by (now rewrite Hag).
  assert (Hcell2 : cell a2 = Some c') by reflexivity.
  pose proof (Sheep_feed_grown _ _ _ _ _ _ g1 Ha2 Hcell2 Hfind Hgq2 Hgrown
                (Hreg _ _ Hgq)) as Hfeed.
  set (w3 := eaten self a2 q gq w2) in *.
  set (a3 := with_energy (energy a2 + energy_from_food a2) a2).
  assert (Ha3 : agents w3 !! self = Some (AnAnimal a3)).
  { unfold w3, eaten. simpl. rewrite lookup_insert_ne by congruence.
    apply lookup_insert_eq. }
  (* the patches so far *)
  assert (F : grass_eaten q (grass_regrowth_time gq) w w3).
  { eapply grass_frame_eaten; [|apply grass_eaten_eaten; eauto].
    eapply grass_frame_trans.
    - apply (grass_frame_relocate self a a (Some c') w Hself).
    - apply (grass_frame_set_animal self a2 a1 w1 Ha1). }
  (* death or reproduction *)
  assert (Hstep : step self w g = resolve self w3 g1).
  { apply (step_resolve self a w g w1 g1 w2 g1 w3 g1); rewrite ?Hsheep; assumption. }
  assert (Hres : exists w' g', resolve self w3 g1 = Ok (tt, w', g') /\ grass_frame w3 w').
  { destruct (Qlt_le_dec (energy a3) 0) as [Hneg|Hpos].
    - rewrite (resolve_dies self a3) by assumption.
      eexists _, _. split; [reflexivity|]. now apply grass_frame_removed.
    - apply Qle_not_lt in Hpos. rewrite (resolve_survives self a3) by assumption.
      destruct (Qltb (fst (rs_random g1)) (p_reproduce a3)).
      + rewrite (spawn_offspring_Ok self a3) by assumption.
        eexists _, _. split; [reflexivity|].
        apply grass_frame_spawned; [assumption|].
        destruct F as (_ & _ & Hg & _ & _ & _). rewrite Hg.
        assert (Hn3 : next_id w3 = next_id w).
        { exact (next_id_relocate self (AnAnimal a) (Some c') w). }
        rewrite Hn3.
        assert (Hqlt : q < next_id w) by (apply Hfresh; rewrite Hgq; eauto).
        rewrite decide_False by lia.
        unfold grass_state, grass_of.
        destruct (agents w !! next_id w) as [x|] eqn:Hx; [|reflexivity].
        assert (next_id w < next_id w) by (apply Hfresh; rewrite Hx; eauto). lia.
      + eexists _, _. split; [reflexivity|apply grass_frame_refl]. }
  destruct Hres as (w' & g' & Hres & F').
  pose proof (grass_eaten_frame _ _ _ _ _ F F') as (Hq0 & _ & Hg & He & _ & _).
  exists w', g', c', q, (grass_regrowth_time gq).
  rewrite Hstep. split; [exact Hres|].
  repeat (split; [assumption|]). split.
  - rewrite Hg. now rewrite decide_True.
  - exact He.
Qed.


(** X9: where a wolf's prey comes from.  The move comes before the
    feed, so the only agent a wolf's step can remove beside the wolf itself
    is a sheep of the neighbouring cell the wolf has moved to; the wolf then
    is in that cell, unless the step has removed it as well.  In particular
    nobody is eaten when no neighbouring cell holds a sheep. *)
Theorem Wolf_step_victim self a0 c w (g : G) w' g' s :
  fresh_ids w ->
  agents w !! self = Some (AnAnimal a0) ->
  species a0 = Wolf ->
  cell a0 = Some c ->
  step self w g = Ok (tt, w', g') ->
  s <> self ->
  is_Some (agents w !! s) ->
  agents w' !! s = None ->
  exists c',
    c' ∈ neighborhood w c /\
    c' ∈ cells_with_sheep w c /\
    s ∈ occupants w c' /\
    is_sheep w s = true /\
    (agents w' !! self = None \/
     exists a', agents w' !! self = Some (AnAnimal a') /\ cell a' = Some c').
Proof.
  intros Hfresh Hself Hwolf Hcell E Hs Hsome Hnone.
  rewrite step_phases in E.
  erewrite bind_eq in E by (apply get_animal_Ok; eassumption).
  apply bind_inv in E as (u1 & w1 & g1 & Hmove & E).
  apply bind_inv in E as (u2 & w2 & g2 & Hmet & E).
  apply bind_inv in E as (u3 & w3 & g3 & Hfeed & E).
  rewrite Hwolf in Hmove, Hfeed. simpl in Hmove, Hfeed.
  (* the move *)
  assert (Hmv : exists c', c' ∈ neighborhood w c /\
                           w1 = relocate self (AnAnimal a0) (Some c') w).
  { destruct (neighborhood w c) as [|x l] eqn:Hn.
    - erewrite Wolf_move_nowhere in Hmove by eassumption. discriminate.
    - assert (Hne : neighborhood w c <> []) by (rewrite Hn; discriminate).
      pose proof (Wolf_target_cells_nonempty w c Hne) as Ht.
      destruct (random_choice_spec (Wolf_target_cells w c) w g Ht)
        as (c' & _ & Hc' & _).
      erewrite Wolf_move_go in Hmove by eassumption.
      exists c'. split; [|congruence].
      rewrite <- Hn. apply Wolf_target_cells_neighbor.
      eapply list_elem_of_lookup_2; eauto. }
  destruct Hmv as (c' & Hnb & ->).
  set (w1 := relocate self (AnAnimal a0) (Some c') w) in *.
  set (a1 := with_cell (Some c') a0).
  assert (Ha1 : agents w1 !! self = Some (AnAnimal a1)).
  { unfold w1. rewrite agents_relocate. apply lookup_insert_eq. }
  (* the cost *)
  apply metabolize_inv in Hmet as (a1' & Ha1' & -> & ->).
  rewrite Ha1 in Ha1'. injection Ha1' as <-.
  set (a2 := with_energy (energy a1 - 1) a1) in *.
  set (w2 := set_agents (insert self (AnAnimal a2)) w1) in *.
  assert (Ha2 : agents w2 !! self = Some (AnAnimal a2)) by apply lookup_insert_eq.
  assert (Hag : forall i, i <> self -> agents w2 !! i = agents w !! i).
  { intros i Hi. unfold w2.
    change (agents (set_agents ?f ?m)) with (f (agents m)).
    rewrite lookup_insert_ne by congruence.
    unfold w1. rewrite agents_relocate. now rewrite lookup_insert_ne by congruence. }
  (* the feed *)
  apply Wolf_feed_inv in Hfeed as (a' & c2 & Ha' & Hc2 & Hcase).
  rewrite Ha2 in Ha'. injection Ha' as <-.
  assert (c2 = c') by (simpl in Hc2; congruence). subst c2.
  assert (Hn3 : next_id w3 = next_id w /\
                exists a3, agents w3 !! self = Some (AnAnimal a3) /\
                           cell a3 = Some c').
  { destruct Hcase as [(_ & -> & _)|(s1 & sa & Hin & Hsa & Hspa & Hw3)].
    - split; [exact (next_id_relocate self (AnAnimal a0) (Some c') w)|eauto].
    - assert (Hne : self <> s1).
      { intros <-. rewrite Ha2 in Hsa. injection Hsa as <-.
        simpl in Hspa. congruence. }
      rewrite (Hw3 Hne). rewrite next_id_devoured, agents_devoured.
      split; [exact (next_id_relocate self (AnAnimal a0) (Some c') w)|].
      eexists. rewrite lookup_delete_ne by congruence.
      split; [apply lookup_insert_eq|reflexivity]. }
  destruct Hn3 as (Hn3 & a3 & Ha3 & Hc3).
  assert (Hslt : s < next_id w) by (now apply Hfresh).
  assert (Hselflt : self < next_id w) by (apply Hfresh; rewrite Hself; eauto).
  (* death or reproduction *)
  apply resolve_inv in E as (a3' & Ha3' & Hres).
  rewrite Ha3 in Ha3'. injection Ha3' as <-.
  assert (H' : agents w' !! s = agents w3 !! s /\
               (agents w' !! self = None \/
                exists a', agents w' !! self = Some (AnAnimal a') /\
                           cell a' = Some c')).
  { destruct Hres as [->|[->| ->]].
    - change (agents (set_agents ?f ?m)) with (f (agents m)).
      rewrite agents_relocate. split.
      + now rewrite lookup_delete_ne, lookup_insert_ne by congruence.
      + left. apply lookup_delete_eq.
    - split; [reflexivity|eauto].
    - rewrite agents_spawned, Hn3. split.
      + now rewrite !lookup_insert_ne by lia.
      + right. eexists. rewrite lookup_insert_ne by lia.
        split; [apply lookup_insert_eq|exact Hc3]. }
  destruct H' as (Hs3 & Hwhere). rewrite Hs3 in Hnone.
  destruct Hcase as [(_ & -> & _)|(s1 & sa & Hin & Hsa & Hspa & Hw3)].
  - rewrite Hag in Hnone by assumption. rewrite Hnone in Hsome. now destruct Hsome.
  - assert (Hne : self <> s1).
    { intros <-. rewrite Ha2 in Hsa. injection Hsa as <-.
      simpl in Hspa. congruence. }
    rewrite (Hw3 Hne) in Hnone. rewrite agents_devoured in Hnone.
    destruct (decide (s = s1)) as [->|Hss].
    + apply elem_of_sheep_at in Hin as [Hocc Hsheep].
      assert (Hocc' : s1 ∈ occupants w c').
      { unfold w2 in Hocc. rewrite occupants_set_agents in Hocc.
        apply elem_of_occupants_relocate in Hocc as [->|Hocc];
          [congruence|assumption]. }
      assert (Hsheep' : is_sheep w s1 = true).
      { unfold is_sheep in *. now rewrite <- Hag. }
      exists c'. split; [exact Hnb|]. split.
      * apply elem_of_cells_with_sheep. split; [exact Hnb|].
        apply existsb_true_elem. eauto.
      * auto.
    + rewrite lookup_delete_ne, lookup_insert_ne in Hnone by congruence.
      rewrite Hag in Hnone by assumption.
      rewrite Hnone in Hsome. now destruct Hsome.
Qed.

End Proofs.

(** * The theorems at work on the pasture *)

Lemma tape_same_stream_pad (g : list nat) : same_stream g (g ++ [0]).
Proof.
  intros ds. revert g. induction ds as [|d ds IH]; intros g; [reflexivity|].
  destruct g as [|x g].
  - destruct d; reflexivity.
  - destruct d; simpl; f_equal; apply IH.
Qed.

Ltac by_computation :=
  first
    [ lia
    | vm_compute; reflexivity
    | cbn; lia
    | apply fresh_idsb_spec; vm_compute; reflexivity
    | apply consistentb_spec; vm_compute; reflexivity
    | apply tape_same_stream_pad
    | unfold pasture;
      repeat first [ apply (reachable_born (G := list nat) [])
                   | apply (reachable_planted (G := list nat) []); [lia|]
                   | apply reachable_initial ] ].

Ltac by_evaluation :=
  first
    [ vm_compute; discriminate
    | vm_compute; eexists; reflexivity
    | by_computation ].

(** On the pasture patch [i] lies on cell [i], and nowhere else. *)
Lemma pasture_patch_cell c i :
  i ∈ occupants pasture c -> is_grass pasture i = true -> i = c.
Proof.
  intros Hi Hg.
  destruct (consistentb_spec pasture eq_refl) as [_ Hcons].
  destruct (Hcons i c Hi) as (x & Hx & Hxc).
  assert (Hlt : i < 6).
  { apply (fresh_idsb_spec pasture eq_refl). rewrite Hx. eauto. }
  do 6 (destruct i as [|i];
        [vm_compute in Hg; try discriminate;
         vm_compute in Hx; injection Hx as <-;
         vm_compute in Hxc; congruence|]).
  lia.
Qed.

Lemma pasture_one_patch_per_cell : one_patch_per_cell pasture.
Proof.
  intros c q q' Hq Hq' Hg Hg'.
  rewrite (pasture_patch_cell c q), (pasture_patch_cell c q'); auto.
Qed.

Lemma pasture_regrowth_times_valid : regrowth_times_valid pasture.
Proof.
  intros q gq Hq.
  assert (Hlt : q < 6).
  { apply (fresh_idsb_spec pasture eq_refl). rewrite Hq. eauto. }
  do 6 (destruct q as [|q];
        [vm_compute in Hq; try discriminate;
         injection Hq as <-; vm_compute; discriminate|]).
  lia.
Qed.




(** Wolf 4 eats sheep 5, the only sheep on cell 1. *)
Lemma Wolf_feed_spec_witness :
  let self := 4 in
  let a := wolf4 in
  let c := 1 in
  let w := pasture in
  let g := ([0] : list nat) in
  (agents w !! self = Some (AnAnimal a)) /\
  (species a = Wolf) /\
  (cell a = Some c) /\
  (consistent w) /\
  (fresh_ids w) /\
  (let sheep := sheep_at w c in
  let i := fst (rs_randbelow (length sheep) g) in
  (forall x, x ∈ sheep <-> x ∈ occupants w c /\ is_sheep w x = true) /\
  NoDup sheep /\
  (sheep = [] -> Wolf_feed self w g = Ok (tt, w, g)) /\
  (sheep <> [] ->
     exists s w',
       Wolf_feed self w g = Ok (tt, w', snd (rs_randbelow (length sheep) g)) /\
       i < length sheep /\
       sheep !! i = Some s /\
       agents w' !! self
         = Some (AnAnimal (with_energy (energy a + energy_from_food a) a)) /\
       agents w' !! s = None /\
       (forall j, j <> self -> j <> s -> agents w' !! j = agents w !! j) /\
       (forall c', s ∉ occupants w' c') /\
       (forall c' j, j <> s -> j ∈ occupants w' c' <-> j ∈ occupants w c') /\
       (forall c', s ∉ sheep_at w' c') /\
       (forall w'', evolution (G := list nat) None w' w'' ->
          agents w'' !! s = None /\
          (forall c', s ∉ occupants w'' c') /\
          (forall c', s ∉ sheep_at w'' c')))).
Proof.
  cbv zeta.
  split; [by_computation|].
  split; [by_computation|].
  split; [by_computation|].
  split; [by_computation|].
  split; [by_computation|].
  apply (Wolf_feed_spec (G := list nat) 4 wolf4 1 pasture (([0] : list nat))); by_computation.
Defined.

(** Sheep 5 leaves the wolf's cell for one of the cells 0 and 2. *)
Lemma Sheep_move_spec_witness :
  let self := 5 in
  let a := sheep5 in
  let c := 1 in
  let w := pasture in
  let g := ([1] : list nat) in
  (agents w !! self = Some (AnAnimal a)) /\
  (species a = Sheep) /\
  (cell a = Some c) /\
  (let targets := Sheep_target_cells w c in
  let i := fst (rs_randbelow (length targets) g) in
  (forall x, x ∈ cells_without_wolves w c <->
     x ∈ neighborhood w c /\ existsb (is_wolf w) (occupants w x) = false) /\
  (forall x, x ∈ cells_with_grass w c <->
     x ∈ cells_without_wolves w c /\
     existsb (is_grown_grass w) (occupants w x) = true) /\
  (cells_with_grass w c <> [] -> targets = cells_with_grass w c) /\
  (cells_with_grass w c = [] -> targets = cells_without_wolves w c) /\
  (NoDup (neighborhood w c) -> NoDup targets) /\
  (cells_without_wolves w c = [] -> Sheep_move self w g = Ok (tt, w, g)) /\
  (cells_without_wolves w c <> [] ->
     exists c' w',
       Sheep_move self w g = Ok (tt, w', snd (rs_randbelow (length targets) g)) /\
       i < length targets /\
       targets !! i = Some c' /\
       c' ∈ neighborhood w c /\
       existsb (is_wolf w) (occupants w c') = false /\
       existsb (is_wolf w') (occupants w' c') = false /\
       agents w' !! self = Some (AnAnimal (with_cell (Some c') a)) /\
       self ∈ occupants w' c' /\
       (forall j, j <> self -> agents w' !! j = agents w !! j))).
Proof.
  cbv zeta.
  split; [by_computation|].
  split; [by_computation|].
  split; [by_computation|].
  apply (Sheep_move_spec (G := list nat) 5 sheep5 1 pasture (([1] : list nat))); by_computation.
Defined.

(** Sheep 3 on the fully grown patch 0. *)
Lemma Sheep_feed_spec_witness :
  let self := 3 in
  let q := 0 in
  let a := sheep3 in
  let c := 0 in
  let gq := (mkGrassPatch true 3 (Some 0)) in
  let w := pasture in
  let g := ([] : list nat) in
  (agents w !! self = Some (AnAnimal a)) /\
  (cell a = Some c) /\
  (List.find (is_grass w) (occupants w c) = Some q) /\
  (agents w !! q = Some (AGrassPatch gq)) /\
  ((0 <= grass_regrowth_time gq)%Z) /\
  ((fully_grown gq = true ->
     exists w',
       Sheep_feed self w g = Ok (tt, w', g) /\
       agents w' !! self
         = Some (AnAnimal (with_energy (energy a + energy_from_food a) a)) /\
       agents w' !! q = Some (AGrassPatch (with_fully_grown false gq)) /\
       (forall i, i <> self -> i <> q -> agents w' !! i = agents w !! i) /\
       cell_agents w' = cell_agents w) /\
  (fully_grown gq = false -> Sheep_feed self w g = Ok (tt, w, g))).
Proof.
  cbv zeta.
  split; [by_computation|].
  split; [by_computation|].
  split; [by_computation|].
  split; [by_computation|].
  split; [by_computation|].
  apply (Sheep_feed_spec (G := list nat) 3 0 sheep3 0 ((mkGrassPatch true 3 (Some 0))) pasture (([] : list nat))); by_computation.
Defined.

(** Wolf 4 heads for cell 0, where sheep 3 grazes. *)
Lemma Wolf_move_spec_witness :
  let self := 4 in
  let a := wolf4 in
  let c := 1 in
  let w := pasture in
  let g := ([0] : list nat) in
  (agents w !! self = Some (AnAnimal a)) /\
  (cell a = Some c) /\
  (let targets := Wolf_target_cells w c in
  let i := fst (rs_randbelow (length targets) g) in
  (forall x, x ∈ cells_with_sheep w c <->
     x ∈ neighborhood w c /\ existsb (is_sheep w) (occupants w x) = true) /\
  (cells_with_sheep w c <> [] -> targets = cells_with_sheep w c) /\
  (cells_with_sheep w c = [] -> targets = neighborhood w c) /\
  (forall x, x ∈ targets <->
     x ∈ neighborhood w c /\
     (cells_with_sheep w c = [] \/ existsb (is_sheep w) (occupants w x) = true)) /\
  (NoDup (neighborhood w c) -> NoDup targets) /\
  (neighborhood w c <> [] ->
     exists c' w',
       Wolf_move self w g = Ok (tt, w', snd (rs_randbelow (length targets) g)) /\
       i < length targets /\
       targets !! i = Some c' /\
       c' ∈ neighborhood w c /\
       agents w' !! self = Some (AnAnimal (with_cell (Some c') a)) /\
       self ∈ occupants w' c' /\
       (forall j, j <> self -> agents w' !! j = agents w !! j)) /\
  (neighborhood w c = [] -> Wolf_move self w g = Err EmptySelectionError)).
Proof.
  cbv zeta.
  split; [by_computation|].
  split; [by_computation|].
  apply (Wolf_move_spec (G := list nat) 4 wolf4 1 pasture (([0] : list nat))); by_computation.
Defined.

(** Sheep 3 and the patch of its cell. *)
Lemma Sheep_feed_needs_grass_witness :
  let self := 3 in
  let a := sheep3 in
  let c := 0 in
  let w := pasture in
  let g := ([] : list nat) in
  (agents w !! self = Some (AnAnimal a)) /\
  (cell a = Some c) /\
  (((forall i, i ∈ occupants w c -> is_grass w i = false) ->
     Sheep_feed self w g = Err StopIteration /\
     (forall a0 w0 g0 w1 g1,
        agents w0 !! self = Some (AnAnimal a0) -> species a0 = Sheep ->
        move Sheep self w0 g0 = Ok (tt, w1, g1) ->
        metabolize self w1 g1 = Ok (tt, w, g) ->
        step self w0 g0 = Err StopIteration)) /\
  ((exists q, q ∈ occupants w c /\ is_grass w q = true) ->
     Sheep_feed self w g <> Err StopIteration /\
     ((forall q gq, agents w !! q = Some (AGrassPatch gq) ->
         (0 <= grass_regrowth_time gq)%Z) ->
      exists w', Sheep_feed self w g = Ok (tt, w', g)))).
Proof.
  cbv zeta.
  split; [by_computation|].
  split; [by_computation|].
  apply (Sheep_feed_needs_grass (G := list nat) 3 sheep3 0 pasture (([] : list nat))); by_computation.
Defined.


(** Patch 1, which is not grown, is assigned [False] again. *)
Lemma fully_grown_setter_schedules_unconditionally_witness :
  let p := 1 in
  let gp := (mkGrassPatch false 3 (Some 1)) in
  let w := pasture in
  let g := ([] : list nat) in
  (agents w !! p = Some (AGrassPatch gp)) /\
  ((0 <= grass_regrowth_time gp)%Z) /\
  (let ev := mkEvent (time w + grass_regrowth_time gp) p in
  (exists w1 w2,
     set_fully_grown p false w g = Ok (tt, w1, g) /\
     agents w1 !! p = Some (AGrassPatch (with_fully_grown false gp)) /\
     event_list w1 = event_list w ++ [ev] /\
     set_fully_grown p false w1 g = Ok (tt, w2, g) /\
     agents w2 !! p = Some (AGrassPatch (with_fully_grown false gp)) /\
     event_list w2 = event_list w ++ [ev; ev] /\
     length (pending p (event_list w2)) = 2 + length (pending p (event_list w))) /\
  (exists w3,
     set_fully_grown p true w g = Ok (tt, w3, g) /\
     agents w3 !! p = Some (AGrassPatch (with_fully_grown true gp)) /\
     event_list w3 = event_list w) /\
  (forall self u w' g',
     Sheep_feed self w g = Ok (u, w', g') ->
     event_list w' = event_list w \/
     exists q gq,
       agents w !! q = Some (AGrassPatch gq) /\ fully_grown gq = true /\
       agents w' !! q = Some (AGrassPatch (with_fully_grown false gq)) /\
       event_list w' = event_list w ++ [mkEvent (time w + grass_regrowth_time gq) q])).
Proof.
  cbv zeta.
  split; [by_computation|].
  split; [by_computation|].
  apply (fully_grown_setter_schedules_unconditionally (G := list nat) 1 ((mkGrassPatch false 3 (Some 1))) pasture (([] : list nat))); by_computation.
Defined.


(** Sheep 5, whose [p_reproduce] is zero. *)
Lemma step_reproduction_bounds_witness :
  let self := 5 in
  let a0 := sheep5 in
  let w := pasture in
  let g := ([1; 50] : list nat) in
  let w' := (model_after (step (G := list nat) 5 pasture [1; 50]) pasture) in
  let g' := ([] : list nat) in
  (agents w !! self = Some (AnAnimal a0)) /\
  (step self w g = Ok (tt, w', g')) /\
  (((p_reproduce a0 <= 0)%Q -> next_id w' = next_id w) /\
  ((1 <= p_reproduce a0)%Q -> is_Some (agents w' !! self) ->
   next_id w' = S (next_id w))).
Proof.
  cbv zeta.
  split; [by_evaluation|].
  split; [by_evaluation|].
  apply (step_reproduction_bounds (G := list nat) 5 sheep5 pasture (([1; 50] : list nat)) ((model_after (step (G := list nat) 5 pasture [1; 50]) pasture)) (([] : list nat))); by_evaluation.
Defined.

(** Sheep 3 eats patch 0. *)
Lemma step_grass_by_class_witness :
  let self := 3 in
  let a0 := sheep3 in
  let w := pasture in
  let g := ([30] : list nat) in
  let w' := (model_after (step (G := list nat) 3 pasture [30]) pasture) in
  let g' := ([] : list nat) in
  (fresh_ids w) /\
  (agents w !! self = Some (AnAnimal a0)) /\
  (step self w g = Ok (tt, w', g')) /\
  (time w' = time w /\
  (((forall p, grass_state w' p = grass_state w p) /\
    event_list w' = event_list w) \/
   (species a0 = Sheep /\
    exists q r,
      grass_state w q = Some (true, r) /\
      (forall p, grass_state w' p
                 = if decide (p = q) then Some (false, r) else grass_state w p) /\
      event_list w' = event_list w ++ [mkEvent (time w + r) q]))).
Proof.
  cbv zeta.
  split; [by_evaluation|].
  split; [by_evaluation|].
  split; [by_evaluation|].
  apply (step_grass_by_class (G := list nat) 3 sheep3 pasture (([30] : list nat)) ((model_after (step (G := list nat) 3 pasture [30]) pasture)) (([] : list nat))); by_evaluation.
Defined.

(** Wolf 4 goes to cell 0 and eats sheep 3. *)
Lemma Wolf_step_hunts_witness :
  let self := 4 in
  let a := wolf4 in
  let c := 1 in
  let w := pasture in
  let g := ([0; 0; 99] : list nat) in
  (fresh_ids w) /\
  (agents w !! self = Some (AnAnimal a)) /\
  (species a = Wolf) /\
  (cell a = Some c) /\
  (cells_with_sheep w c <> []) /\
  (exists w' g' c' s,
    step self w g = Ok (tt, w', g') /\
    c' ∈ neighborhood w c /\
    s ∈ occupants w c' /\
    is_sheep w s = true /\
    agents w' !! s = None /\
    (agents w' !! self = None \/
     exists a', agents w' !! self = Some (AnAnimal a') /\ cell a' = Some c')).
Proof.
  cbv zeta.
  split; [by_evaluation|].
  split; [by_evaluation|].
  split; [by_evaluation|].
  split; [by_evaluation|].
  split; [by_evaluation|].
  apply (Wolf_step_hunts (G := list nat) 4 wolf4 1 pasture (([0; 0; 99] : list nat))); by_evaluation.
Defined.

(** A second sheep, agent 6, joins sheep 3 on cell 0 and feeds after it. *)
Lemma Sheep_feed_twice_witness :
  let s1 := 3 in
  let a1 := sheep3 in
  let s2 := 6 in
  let a2 := (mkAnimal Sheep 2 0 4 (Some 0)) in
  let c := 0 in
  let q := 0 in
  let gq := (mkGrassPatch true 3 (Some 0)) in
  let w := (born Sheep 2 0 4 (Some 0) pasture) in
  let g := ([] : list nat) in
  let g2 := ([] : list nat) in
  (agents w !! s1 = Some (AnAnimal a1)) /\
  (cell a1 = Some c) /\
  (agents w !! s2 = Some (AnAnimal a2)) /\
  (cell a2 = Some c) /\
  (List.find (is_grass w) (occupants w c) = Some q) /\
  (agents w !! q = Some (AGrassPatch gq)) /\
  (fully_grown gq = true) /\
  ((0 <= grass_regrowth_time gq)%Z) /\
  (exists w1,
    Sheep_feed s1 w g = Ok (tt, w1, g) /\
    agents w1 !! s1
      = Some (AnAnimal (with_energy (energy a1 + energy_from_food a1) a1)) /\
    event_list w1 = event_list w ++ [mkEvent (time w + grass_regrowth_time gq) q] /\
    Sheep_feed s2 w1 g2 = Ok (tt, w1, g2)).
Proof.
  cbv zeta.
  split; [by_evaluation|].
  split; [by_evaluation|].
  split; [by_evaluation|].
  split; [by_evaluation|].
  split; [by_evaluation|].
  split; [by_evaluation|].
  split; [by_evaluation|].
  split; [by_evaluation|].
  apply (Sheep_feed_twice (G := list nat) 3 sheep3 6 ((mkAnimal Sheep 2 0 4 (Some 0))) 0 0 ((mkGrassPatch true 3 (Some 0))) ((born Sheep 2 0 4 (Some 0) pasture)) (([] : list nat)) (([] : list nat))); by_evaluation.
Defined.

(** The step of wolf 4, which eats sheep 3. *)
Lemma step_spares_others_witness :
  let self := 4 in
  let a0 := wolf4 in
  let w := pasture in
  let g := ([0; 0; 99] : list nat) in
  let w' := (model_after (step (G := list nat) 4 pasture [0; 0; 99]) pasture) in
  let g' := ([] : list nat) in
  (fresh_ids w) /\
  (agents w !! self = Some (AnAnimal a0)) /\
  (step self w g = Ok (tt, w', g')) /\
  ((forall i x, i <> self -> agents w !! i = Some (AnAnimal x) ->
     agents w' !! i = Some (AnAnimal x) \/
     (agents w' !! i = None /\ species a0 = Wolf /\ species x = Sheep)) /\
  (forall i p, agents w !! i = Some (AGrassPatch p) -> is_Some (agents w' !! i)) /\
  (forall i j, i <> self -> j <> self ->
     is_Some (agents w !! i) -> is_Some (agents w !! j) ->
     agents w' !! i = None -> agents w' !! j = None -> i = j)).
Proof.
  cbv zeta.
  split; [by_evaluation|].
  split; [by_evaluation|].
  split; [by_evaluation|].
  apply (step_spares_others (G := list nat) 4 wolf4 pasture (([0; 0; 99] : list nat)) ((model_after (step (G := list nat) 4 pasture [0; 0; 99]) pasture)) (([] : list nat))); by_evaluation.
Defined.

(** Sheep 5 leaves for cell 2 and eats patch 2. *)
Lemma Sheep_step_grazes_witness :
  let self := 5 in
  let a := sheep5 in
  let c := 1 in
  let w := pasture in
  let g := ([1; 50] : list nat) in
  (fresh_ids w) /\
  (agents w !! self = Some (AnAnimal a)) /\
  (species a = Sheep) /\
  (cell a = Some c) /\
  (cells_with_grass w c <> []) /\
  (one_patch_per_cell w) /\
  (regrowth_times_valid w) /\
  (exists w' g' c' q r,
    step self w g = Ok (tt, w', g') /\
    c' ∈ neighborhood w c /\
    existsb (is_wolf w) (occupants w c') = false /\
    q ∈ occupants w c' /\
    grass_state w q = Some (true, r) /\
    grass_state w' q = Some (false, r) /\
    event_list w' = event_list w ++ [mkEvent (time w + r) q]).
Proof.
  cbv zeta.
  split; [by_evaluation|].
  split; [by_evaluation|].
  split; [by_evaluation|].
  split; [by_evaluation|].
  split; [by_evaluation|].
  split; [exact pasture_one_patch_per_cell|].
  split; [exact pasture_regrowth_times_valid|].
  apply (Sheep_step_grazes (G := list nat) 5 sheep5 1 pasture (([1; 50] : list nat))); first [exact pasture_one_patch_per_cell | exact pasture_regrowth_times_valid | by_evaluation].
Defined.

(** Sheep 3, eaten by wolf 4, stood on cell 0, a neighbour of the wolf's cell 1. *)
Lemma Wolf_step_victim_witness :
  let self := 4 in
  let a0 := wolf4 in
  let c := 1 in
  let w := pasture in
  let g := ([0; 0; 99] : list nat) in
  let w' := (model_after (step (G := list nat) 4 pasture [0; 0; 99]) pasture) in
  let g' := ([] : list nat) in
  let s := 3 in
  (fresh_ids w) /\
  (agents w !! self = Some (AnAnimal a0)) /\
  (species a0 = Wolf) /\
  (cell a0 = Some c) /\
  (step self w g = Ok (tt, w', g')) /\
  (s <> self) /\
  (is_Some (agents w !! s)) /\
  (agents w' !! s = None) /\
  (exists c',
    c' ∈ neighborhood w c /\
    c' ∈ cells_with_sheep w c /\
    s ∈ occupants w c' /\
    is_sheep w s = true /\
    (agents w' !! self = None \/
     exists a', agents w' !! self = Some (AnAnimal a') /\ cell a' = Some c')).
Proof.
  cbv zeta.
  split; [by_evaluation|].
  split; [by_evaluation|].
  split; [by_evaluation|].
  split; [by_evaluation|].
  split; [by_evaluation|].
  split; [by_evaluation|].
  split; [by_evaluation|].
  split; [by_evaluation|].
  apply (Wolf_step_victim (G := list nat) 4 wolf4 1 pasture (([0; 0; 99] : list nat)) ((model_after (step (G := list nat) 4 pasture [0; 0; 99]) pasture)) (([] : list nat)) 3); by_evaluation.
Defined.

(** The sheep on the lawn over four ticks: it eats at tick 1 (energy 8 - 1 + 4
    = 11, the patch regrows at tick 4), starves on at ticks 2 and 3 (10, 9),
    and at tick 4 finds the patch grown again (9 - 1 + 4 = 12). *)
Example lawn_scenario :
  let after n :=
    match run (G := list nat) n lawn [] with
    | Ok (_, w, _) => Some (agents w !! 1, is_grown_grass w 0, event_list w, time w)
    | Err _ => None
    end in
  let sheep e := Some (AnAnimal (mkAnimal Sheep e 0 4 (Some 0))) in
  after 1 = Some (sheep 11%Q, false, [mkEvent 4 0], 1%Z) /\
  after 2 = Some (sheep 10%Q, false, [mkEvent 4 0], 2%Z) /\
  after 3 = Some (sheep 9%Q, false, [mkEvent 4 0], 3%Z) /\
  after 4 = Some (sheep 12%Q, false, [mkEvent 7 0], 4%Z).
Proof. cbv zeta. repeat split; vm_compute; reflexivity. Qed.
